(** * Lucas-Kanade optical flow: pyramid, flow step, warper, refiner

    A shallow embedding of [lucas_kanade.py].

    Modelling conventions.
    - A 2-D [np.ndarray] is a list of rows.  Samples are exact rationals
      ([Qc], canonical fractions, so that equality of arrays is Leibniz
      equality): float64 is idealised, rounding, overflow and [uint8]
      wrap-around are not modelled, and an image holds no [nan].  A
      statement that would be false under rounding is restricted to inputs
      on which float64 is exact (integers of bounded size).
    - A list of rows has no way to tell the shapes (0, k) apart: an array
      without rows is read as 0 x 0.  Statements about an empty array say
      which extent is empty and keep the shapes (0, k), k > 0, out.
    - The one place where the code manufactures [nan] (the fill value of
      [griddata]) is modelled by [option Qc], [None] being [nan].
    - A Python exception is a value [Err e] of the [result] type; the only
      handler of the file ([except np.linalg.LinAlgError]) is [catch_linalg].
    - Sizes ([window_size], [num_levels], [max_iter]) are natural numbers.
    - [np.linalg.inv], [cv2.resize], [cv2.cornerHarris] and
      [scipy.interpolate.griddata] are library routines; they are
      parameters of the development, constrained by the part of their
      contract that the code relies on.
      - [np.linalg.inv] factorises in floating point and raises
        [LinAlgError] only when it meets a pivot that is exactly zero.  Its
        contract here: a matrix with non-zero determinant is inverted; a
        matrix with a zero row or a zero column raises.  What it does on
        any other singular matrix is left open: it may raise, or return
        the inverse of a nearby matrix.
      - [griddata] triangulates its data points and raises [QhullError]
        when they lie on one line, as the pixels of an image with a single
        row or a single column do.  Its contract here: points on one
        horizontal or vertical line raise; points that span the plane give
        one value per query point, and the data value at a data point.
      Reference instances of the four routines ([inv_exact],
      [resize_nearest], [harris_response], [griddata_exact]) show that the
      contracts can be met and serve to run the functions on samples.
    - Of the video functions, [get_video_parameters] only reads the
      properties of a capture and is not modelled.  The three
      stabilisation drivers are modelled from the grey frames to the
      warped frames: their preamble, the steps (a) to (g) of their loop,
      the smoothing of the field and the crop of the last driver.  Reading
      and writing the video, the colour conversions and the cast of a
      warped frame to [uint8] are outside the model. *)

From Stdlib Require Import List Arith Lia ZArith QArith Qcanon Bool.
Import ListNotations.
Local Open Scope nat_scope.


(** ** Exceptions *)

Inductive error : Type :=
| ValueError        (* reshape of the wrong size, operands not broadcastable *)
| LinAlgError       (* np.linalg.inv on a zero pivot *)
| ZeroDivisionError (* int / 0 *)
| CvError           (* cv2.error: empty source or empty target size *)
| QhullError        (* griddata: the data points do not span the plane *).

Inductive result (A : Type) : Type :=
| Ok (a : A)
| Err (e : error).

Arguments Ok {A} a.
Arguments Err {A} e.

Definition bind {A B} (m : result A) (k : A -> result B) : result B :=
  match m with
  | Ok a => k a
  | Err e => Err e
  end.

Declare Scope result_scope.
Delimit Scope result_scope with result.
Notation "x <- m ;; k" := (bind m (fun x => k))
  (at level 61, m at next level, right associativity) : result_scope.
Notation "' p <- m ;; k" := (bind m (fun x => match x with p => k end))
  (at level 61, p pattern, m at next level, right associativity) : result_scope.
Open Scope result_scope.

(** [for x in xs: s = body(x, s)], stopping at the first exception. *)
Fixpoint for_each {X S} (xs : list X) (body : X -> S -> result S) (s : S)
  : result S :=
  match xs with
  | [] => Ok s
  | x :: rest => s' <- body x s ;; for_each rest body s'
  end.

(** [range(lo, hi)]; empty when [hi <= lo]. *)
Definition range (lo hi : nat) : list nat := seq lo (hi - lo).

(** ** Arrays *)

Definition image := list (list Qc).

Definition qz (z : Z) : Qc := Q2Qc (inject_Z z).

Definition nrows (a : image) : nat := length a.          (* a.shape[0] *)
Definition ncols (a : image) : nat := length (hd [] a).  (* a.shape[1] *)
Definition shape (a : image) : nat * nat := (nrows a, ncols a).

(** Every row has the width of the first one. *)
Definition rect (a : image) : Prop :=
  Forall (fun row => length row = ncols a) a.

(** [np.zeros((h, w))] *)
Definition zeros (h w : nat) : image := repeat (repeat 0%Qc w) h.

(** [a[r, c]] for indices in range. *)
Definition get2 (a : image) (r c : nat) : Qc := nth c (nth r a []) 0%Qc.

(** [l[i] = x] *)
Fixpoint set_nth {A} (l : list A) (i : nat) (x : A) : list A :=
  match l, i with
  | [], _ => []
  | _ :: t, O => x :: t
  | y :: t, S i' => y :: set_nth t i' x
  end.

(** [a[r, c] = x] *)
Definition set2 (a : image) (r c : nat) (x : Qc) : image :=
  set_nth a r (set_nth (nth r a []) c x).

(** [l[lo:hi]] for non-negative bounds: out-of-range bounds are clipped. *)
Definition slice {A} (lo hi : nat) (l : list A) : list A :=
  firstn (hi - lo) (skipn lo l).

(** [a[r0:r1, c0:c1]] *)
Definition slice2 (r0 r1 c0 c1 : nat) (a : image) : image :=
  map (slice c0 c1) (slice r0 r1 a).

(** [a.reshape(n)] of a 2-D array: the rows laid end to end, [ValueError]
    when the sizes disagree. *)
Definition reshape1 (a : image) (n : nat) : result (list Qc) :=
  let flat := concat a in
  if length flat =? n then Ok flat else Err ValueError.

(** [a.flatten()] *)
Definition flatten (a : image) : list Qc := concat a.

(** [l[::2]] *)
Fixpoint every_second {A} (l : list A) : list A :=
  match l with
  | [] => []
  | [x] => [x]
  | x :: _ :: t => x :: every_second t
  end.

(** [a[::2, ::2]] *)
Definition decimate (a : image) : image :=
  map (@every_second Qc) (every_second a).

(** ** Small dense linear algebra *)

Definition sumq (l : list Qc) : Qc := fold_right Qcplus 0%Qc l.

Fixpoint map2 {A B C} (f : A -> B -> C) (l : list A) (m : list B) : list C :=
  match l, m with
  | x :: l', y :: m' => f x y :: map2 f l' m'
  | _, _ => []
  end.

Definition dot (x y : list Qc) : Qc := sumq (map2 Qcmult x y).

(** [np.column_stack((x, y))] : one row [[x_i, y_i]] per entry. *)
Definition column_stack (x y : list Qc) : image :=
  map2 (fun a b => [a; b]) x y.

(** Column [j] of a matrix. *)
Definition column (a : image) (j : nat) : list Qc :=
  map (fun row => nth j row 0%Qc) a.

(** [np.transpose(a)] *)
Definition transpose (a : image) : image :=
  map (column a) (seq 0 (ncols a)).

(** [a @ b] for two matrices. *)
Definition matmul (a b : image) : image :=
  map (fun row => map (fun j => dot row (column b j)) (seq 0 (ncols b))) a.

(** [a @ v] for a matrix and a vector. *)
Definition matvec (a : image) (v : list Qc) : list Qc :=
  map (fun row => dot row v) a.

(** [-a] *)
Definition neg (a : image) : image := map (map Qcopp) a.

(** ** Filters *)

Definition PYRAMID_FILTER : image :=
  map (map (fun z => (Q2Qc (1 # 256) * qz z)%Qc))
      [[1; 4; 6; 4; 1];
       [4; 16; 24; 16; 4];
       [6; 24; 36; 24; 6];
       [4; 16; 24; 16; 4];
       [1; 4; 6; 4; 1]]%Z.

Definition X_DERIVATIVE_FILTER : image :=
  map (map qz) [[1; 0; -1]; [2; 0; -2]; [1; 0; -1]]%Z.

Definition Y_DERIVATIVE_FILTER : image := transpose X_DERIVATIVE_FILTER.

Definition WINDOW_SIZE : nat := 5.

(** ** [signal.convolve2d(a, k, boundary='symm', mode='same')] *)

(** Index of the sample that the symmetric extension of an axis of length
    [n] shows at position [i]: the axis mirrored at both ends. *)
Definition symm_index (n : nat) (i : Z) : nat :=
  let m := (i mod (2 * Z.of_nat n))%Z in
  if (m <? Z.of_nat n)%Z then Z.to_nat m
  else Z.to_nat (2 * Z.of_nat n - 1 - m).

Definition symm_get (a : image) (i j : Z) : Qc :=
  get2 a (symm_index (nrows a) i) (symm_index (ncols a) j).

(** Output sample [(i, j)]: the full convolution, read at the offset that
    centres the kernel. *)
Definition convolve_at (a k : image) (i j : nat) : Qc :=
  let ci := Z.of_nat ((nrows k - 1) / 2) in
  let cj := Z.of_nat ((ncols k - 1) / 2) in
  sumq (map (fun p =>
    sumq (map (fun q =>
      (get2 k p q *
       symm_get a (Z.of_nat i + ci - Z.of_nat p) (Z.of_nat j + cj - Z.of_nat q))%Qc)
      (seq 0 (ncols k))))
    (seq 0 (nrows k))).

Definition convolve2d (a k : image) : image :=
  map (fun i => map (fun j => convolve_at a k i j) (seq 0 (ncols a)))
      (seq 0 (nrows a)).

(** ** [build_pyramid] *)

Fixpoint build_pyramid_loop (levels : list nat) (pyramid : list image)
  : list image :=
  match levels with
  | [] => pyramid
  | level :: rest =>
      let blur_level := convolve2d (nth level pyramid []) PYRAMID_FILTER in
      let blur_level_sampled := decimate blur_level in
      build_pyramid_loop rest (pyramid ++ [blur_level_sampled])
  end.

Definition build_pyramid (img : image) (num_levels : nat) : list image :=
  build_pyramid_loop (range 0 num_levels) [img].

(** ** Elementwise arithmetic with NumPy broadcasting (2-D operands) *)

(** Extent of one axis of the result: equal extents, or one of them is 1. *)
Definition broadcast_dim (n m : nat) : result nat :=
  if n =? m then Ok n
  else if n =? 1 then Ok m
  else if m =? 1 then Ok n
  else Err ValueError.

(** Sample of [a] seen at [(r, c)] of the broadcast result. *)
Definition bget (a : image) (r c : nat) : Qc :=
  get2 a (if nrows a =? 1 then 0 else r) (if ncols a =? 1 then 0 else c).

Definition broadcast2 (f : Qc -> Qc -> Qc) (a b : image) : result image :=
  h <- broadcast_dim (nrows a) (nrows b) ;;
  w <- broadcast_dim (ncols a) (ncols b) ;;
  Ok (map (fun r => map (fun c => f (bget a r c) (bget b r c)) (seq 0 w))
          (seq 0 h)).

(** [a - b] and [a + b] *)
Definition sub_images : image -> image -> result image := broadcast2 Qcminus.
Definition add_images : image -> image -> result image := broadcast2 Qcplus.

(** [a * k] for a scalar [k] *)
Definition scale (a : image) (k : Qc) : image :=
  map (map (fun x => (x * k)%Qc)) a.

(** ** Sample inputs *)

Definition sample_I1 : image :=
  map (map qz) [[1; 2; 3]; [4; 5; 7]; [7; 9; 9]]%Z.

Definition sample_I2 : image :=
  map (map qz) [[1; 2; 4]; [4; 7; 7]; [7; 9; 12]]%Z.

Definition sample_1x3 : image := map (map qz) [[1; 2; 3]]%Z.

Definition sample_2x3 : image := map (map qz) [[1; 2; 3]; [4; 5; 6]]%Z.

Definition sample_field : image := map (map qz) [[1; 0]; [0; 2]]%Z.

Definition sample_4x4 : image :=
  map (map qz) [[1; 2; 3; 4]; [5; 6; 7; 8]; [9; 8; 7; 6]; [5; 4; 3; 2]]%Z.



(** ** Reference instances of the library routines

    Simple stand-ins that meet the contracts stated further down; they
    serve to run the functions on the sample inputs. *)

(** An inverse computed in exact arithmetic: it raises on every singular
    matrix. *)
Definition inv_exact (m : image) : option image :=
  match m with
  | [[a; b]; [c; d]] =>
      let det := (a * d - b * c)%Qc in
      if Qc_eq_dec det 0%Qc then None
      else Some [[(d / det)%Qc; (- b / det)%Qc];
                 [(- c / det)%Qc; (a / det)%Qc]]
  | _ => None
  end.

(** Nearest-neighbour resampling. *)
Definition resize_nearest (src : image) (dsize : nat * nat) : result image :=
  let '(w, h) := dsize in
  if (nrows src =? 0) || (ncols src =? 0) || (w =? 0) || (h =? 0)
  then Err CvError
  else Ok (map (fun i =>
             map (fun j => get2 src (i * nrows src / h) (j * ncols src / w))
                 (seq 0 w))
           (seq 0 h)).

(** Value stored at the first data point equal to [(x, y)], if any. *)
Fixpoint lookup_point (xs ys values : list Qc) (x y : Qc) : option Qc :=
  match xs, ys, values with
  | x0 :: xs', y0 :: ys', v :: values' =>
      if Qc_eq_dec x x0 then
        if Qc_eq_dec y y0 then Some v else lookup_point xs' ys' values' x y
      else lookup_point xs' ys' values' x y
  | _, _, _ => None
  end.

(** Every entry of [l] equals the first one. *)
Definition constantb (l : list Qc) : bool :=
  forallb (fun x => if Qc_eq_dec x (hd 0%Qc l) then true else false) l.

(** An interpolant that is defined at the data points only, and that
    rejects a point set lying on one vertical or horizontal line. *)
Definition griddata_exact (points : list Qc * list Qc) (values : list Qc)
    (xi : list Qc * list Qc) : result (list (option Qc)) :=
  if constantb (fst points) || constantb (snd points) then Err QhullError
  else Ok (map2 (lookup_point (fst points) (snd points) values)
                (fst xi) (snd xi)).

(** [a * b], entry by entry, on arrays of one shape. *)
Definition mul_images (a b : image) : image := map2 (map2 Qcmult) a b.

(** A Harris response [det(M) - k * trace(M)^2] from 3x3 derivatives summed
    over a [blockSize] x [blockSize] box. *)
Definition harris_response (src : image) (blockSize ksize : nat) (k : Qc)
  : image :=
  let Ix := convolve2d src X_DERIVATIVE_FILTER in
  let Iy := convolve2d src Y_DERIVATIVE_FILTER in
  let box := repeat (repeat 1%Qc blockSize) blockSize in
  let Sxx := convolve2d (mul_images Ix Ix) box in
  let Sxy := convolve2d (mul_images Ix Iy) box in
  let Syy := convolve2d (mul_images Iy Iy) box in
  map (fun i =>
    map (fun j =>
      let a := get2 Sxx i j in
      let b := get2 Sxy i j in
      let c := get2 Syy i j in
      (a * c - b * b - k * (a + c) * (a + c))%Qc)
      (seq 0 (ncols src)))
    (seq 0 (nrows src)).

(** ** Library routines

    The four routines below come from NumPy, OpenCV and SciPy.  The
    development is parametric in them. *)

Section Flow.

(** [np.linalg.inv(m)] on a 2x2 matrix: the inverse, or [None] when
    [LinAlgError] is raised.  The LU factorisation behind it raises when it
    meets a pivot that is exactly zero; in floating point a singular matrix
    need not produce one, so whether a singular matrix without a zero row
    or column is rejected is left open. *)
Variable inv : image -> option image.

(** [cv2.resize(src, dsize)], [dsize = (width, height)]; raises on an
    empty source or an empty target. *)
Variable resize : image -> nat * nat -> result image.

(** [cv2.cornerHarris(src, blockSize, ksize, k)]: the corner response map,
    of the shape of [src]. *)
Variable cornerHarris : image -> nat -> nat -> Qc -> image.

(** [griddata(points, values, xi, fill_value=np.nan)], the linear
    interpolant on a Delaunay triangulation of [points]; [points] and [xi]
    are given as a pair of coordinate arrays [(xs, ys)].  It returns one
    result per query point, [None] standing for [nan], and raises
    [QhullError] when the data points cannot be triangulated. *)
Variable griddata :
  list Qc * list Qc -> list Qc -> list Qc * list Qc ->
  result (list (option Qc)).

#[local] Set Default Proof Using "Type".

(** ** [lucas_kanade_step] *)

(** [a[r-b : r+b+1, c-b : c+b+1]] *)
Definition window (a : image) (boundary r c : nat) : image :=
  slice2 (r - boundary) (r + boundary + 1) (c - boundary) (c + boundary + 1) a.

(** [try: m  except np.linalg.LinAlgError: handler] *)
Definition catch_linalg {A} (m : result A) (handler : A) : result A :=
  match m with
  | Err LinAlgError => Ok handler
  | _ => m
  end.

(** [np.linalg.inv(m)] as a call that may raise. *)
Definition linalg_inv (m : image) : result image :=
  match inv m with
  | Some m_inv => Ok m_inv
  | None => Err LinAlgError
  end.

(** The [try] block and its handler:
    [x = (-inv(A.T @ A)) @ A.T @ b], or [(0, 0)] on [LinAlgError]. *)
Definition least_squares (A : image) (b : list Qc) : result (list Qc) :=
  catch_linalg
    (m <- linalg_inv (matmul (transpose A) A) ;;
     Ok (matvec (matmul (neg m) (transpose A)) b))
    [0%Qc; 0%Qc].

(** Body of the pixel loop up to the two assignments: the pair
    [(x[0], x[1])] for the window centred at [(idx_row, idx_col)]. *)
Definition solve_pixel (Ix Iy It : image) (boundary squared_N : nat)
    (idx_row idx_col : nat) : result (Qc * Qc) :=
  A_Ix <- reshape1 (window Ix boundary idx_row idx_col) squared_N ;;
  A_Iy <- reshape1 (window Iy boundary idx_row idx_col) squared_N ;;
  let A := column_stack A_Ix A_Iy in
  b <- reshape1 (window It boundary idx_row idx_col) squared_N ;;
  x <- least_squares A b ;;
  Ok (nth 0 x 0%Qc, nth 1 x 0%Qc).

(** [du[r, c] = x[0]; dv[r, c] = x[1]] *)
Definition assign (r c : nat) (x : Qc * Qc) (s : image * image)
  : image * image :=
  (set2 (fst s) r c (fst x), set2 (snd s) r c (snd x)).

Definition lucas_kanade_step (I1 I2 : image) (window_size : nat)
  : result (image * image) :=
  let Ix := convolve2d I2 X_DERIVATIVE_FILTER in
  let Iy := convolve2d I2 Y_DERIVATIVE_FILTER in
  It <- sub_images I2 I1 ;;
  let du := zeros (nrows I1) (ncols I1) in
  let dv := zeros (nrows I1) (ncols I1) in
  let boundary := window_size / 2 in
  let squared_N := window_size * window_size in
  for_each (range boundary (nrows I1 - boundary)) (fun idx_row s =>
    for_each (range boundary (ncols I1 - boundary)) (fun idx_col s =>
      x <- solve_pixel Ix Iy It boundary squared_N idx_row idx_col ;;
      Ok (assign idx_row idx_col x s)) s)
    (du, dv).

(** ** [warp_image] *)

(** [a / b] on Python integers. *)
Definition true_divide (a b : nat) : result Qc :=
  if b =? 0 then Err ZeroDivisionError
  else Ok (qz (Z.of_nat a) / qz (Z.of_nat b))%Qc.

(** [np.arange(n)] *)
Definition arange (n : nat) : list Qc :=
  map (fun i => qz (Z.of_nat i)) (seq 0 n).

(** [np.meshgrid(x, y)]: [x_mesh[i, j] = x[j]], [y_mesh[i, j] = y[i]]. *)
Definition meshgrid (x y : list Qc) : image * image :=
  (map (fun _ => x) y, map (fun yi => map (fun _ => yi) x) y).

(** [a + b] on 1-D arrays, with broadcasting. *)
Definition add_flat (a b : list Qc) : result (list Qc) :=
  n <- broadcast_dim (length a) (length b) ;;
  Ok (map (fun i =>
            (nth (if length a =? 1 then 0 else i) a 0 +
             nth (if length b =? 1 then 0 else i) b 0)%Qc)
          (seq 0 n)).

(** Rows of length [w], [h] of them, cut from a flat list. *)
Fixpoint chunks {A} (h w : nat) (l : list A) : list (list A) :=
  match h with
  | O => []
  | S h' => firstn w l :: chunks h' w (skipn w l)
  end.

(** [l.reshape((h, w))] of a 1-D array. *)
Definition reshape2 {A} (l : list A) (sh : nat * nat)
  : result (list (list A)) :=
  if length l =? fst sh * snd sh then Ok (chunks (fst sh) (snd sh) l)
  else Err ValueError.

(** [image_warp[np.isnan(image_warp)] = image[np.isnan(image_warp)]];
    the guard [if len(...)] around it only skips an assignment that would
    change nothing. *)
Definition fill_nan (image_warp : list (list (option Qc))) (img : image)
  : image :=
  map2 (map2 (fun o x => match o with Some y => y | None => x end))
       image_warp img.

(** Step 1 of [warp_image]: resize and normalise [u] and [v]. *)
Definition rescale_field (img u v : image) : result (image * image) :=
  u_factor <- true_divide (ncols img) (ncols u) ;;
  v_factor <- true_divide (nrows img) (nrows v) ;;
  let dim := (ncols img, nrows img) in
  u <- resize u dim ;;
  v <- resize v dim ;;
  let u := scale u u_factor in
  let v := scale v v_factor in
  Ok (u, v).

(** The grid points and the query points handed to [griddata]. *)
Definition grid_points (img : image) : list Qc * list Qc :=
  let dim := (ncols img, nrows img) in
  let x := arange (fst dim) in
  let y := arange (snd dim) in
  let '(x_mesh, y_mesh) := meshgrid x y in
  (flatten x_mesh, flatten y_mesh).

Definition query_points (img u v : image) : result (list Qc * list Qc) :=
  let '(xs, ys) := grid_points img in
  x_flattened <- add_flat xs (flatten u) ;;
  y_flattened <- add_flat ys (flatten v) ;;
  Ok (x_flattened, y_flattened).

Definition warp_image (img u v : image) : result image :=
  let image_warp := img in
  ' (u, v) <- rescale_field img u v ;;
  xi <- query_points img u v ;;
  let flattened_image := flatten image_warp in
  interpolated <- griddata (grid_points img) flattened_image xi ;;
  image_warp <- reshape2 interpolated (shape img) ;;
  Ok (fill_nan image_warp img).

(** ** [faster_lucas_kanade_step] *)

Definition TH : Qc := Q2Qc (3 # 100).
Definition MAX_SHAPE : nat := 200.

Definition Qcltb (x y : Qc) : bool :=
  match (x ?= y)%Qc with Lt => true | _ => false end.

Definition Qcmax (x y : Qc) : Qc := if Qcltb x y then y else x.

(** [a.max()]: [ValueError] on an array without entries. *)
Definition amax (a : image) : result Qc :=
  match flatten a with
  | [] => Err ValueError
  | x :: rest => Ok (fold_left Qcmax rest x)
  end.

(** [corners[corners < t] = 0] *)
Definition suppress_below (corners : image) (t : Qc) : image :=
  map (map (fun x => if Qcltb x t then 0%Qc else x)) corners.

(** [corners = cv2.cornerHarris(I2, 5, 5, 0.05)] followed by
    [corners[corners < TH * corners.max()] = 0]. *)
Definition thresholded_corners (I2 : image) : result image :=
  let corners := cornerHarris I2 5 5 (Q2Qc (5 # 100)) in
  top <- amax corners ;;
  Ok (suppress_below corners (TH * top)%Qc).

Definition faster_lucas_kanade_step (I1 I2 : image) (window_size : nat)
  : result (image * image) :=
  let du := zeros (nrows I1) (ncols I1) in
  let dv := zeros (nrows I1) (ncols I1) in
  if (nrows I1 <? MAX_SHAPE) && (ncols I1 <? MAX_SHAPE) then
    lucas_kanade_step I1 I2 window_size
  else
    let Ix := convolve2d I2 X_DERIVATIVE_FILTER in
    let Iy := convolve2d I2 Y_DERIVATIVE_FILTER in
    It <- sub_images I2 I1 ;;
    let boundary := window_size / 2 in
    let squared_N := window_size * window_size in
    corners <- thresholded_corners I2 ;;
    for_each (range boundary (nrows I1 - boundary)) (fun idx_row s =>
      for_each (range boundary (ncols I1 - boundary)) (fun idx_col s =>
        if Qc_eq_dec (get2 corners idx_row idx_col) 0%Qc then Ok s
        else
          x <- solve_pixel Ix Iy It boundary squared_N idx_row idx_col ;;
          Ok (assign idx_row idx_col x s)) s)
      (du, dv).

(** ** [lucas_kanade_optical_flow] and [faster_lucas_kanade_optical_flow]

    The two functions are the same text up to the step they call. *)

(** [int(np.ceil(a / b))] *)
Definition ceil_div (a b : nat) : nat := (a + b - 1) / b.

(** [IMAGE_SIZE], a [(width, height)] pair. *)
Definition image_size (I1 : image) (num_levels : nat) : nat * nat :=
  let h_factor := ceil_div (nrows I1) (2 ^ num_levels) in
  let w_factor := ceil_div (ncols I1) (2 ^ num_levels) in
  (w_factor * 2 ^ num_levels, h_factor * 2 ^ num_levels).

(** [if I.shape != IMAGE_SIZE: I = cv2.resize(I, IMAGE_SIZE)] *)
Definition fit_size (I : image) (IMAGE_SIZE : nat * nat) : result image :=
  if (nrows I =? fst IMAGE_SIZE) && (ncols I =? snd IMAGE_SIZE) then Ok I
  else resize I IMAGE_SIZE.

Definition level_iterations
    (step : image -> image -> nat -> result (image * image))
    (I1_level I2_level : image) (window_size max_iter : nat)
    (u v : image) : result (image * image) :=
  cur_I2 <- warp_image I2_level u v ;;
  ' (u, v, _) <-
    for_each (range 0 max_iter) (fun iter_num '(u, v, cur_I2) =>
      ' (du, dv) <- step I1_level cur_I2 window_size ;;
      u <- add_images u du ;;
      v <- add_images v dv ;;
      cur_I2 <- warp_image I2_level u v ;;
      Ok (u, v, cur_I2)) (u, v, cur_I2) ;;
  Ok (u, v).

(** Body of the loop over the pyramid levels. *)
Definition refine_level
    (step : image -> image -> nat -> result (image * image))
    (pyramid_I1 pyarmid_I2 : list image) (window_size max_iter : nat)
    (pyramid_level : nat) (s : image * image) : result (image * image) :=
  ' (u, v) <- level_iterations step (nth pyramid_level pyramid_I1 [])
                (nth pyramid_level pyarmid_I2 []) window_size max_iter
                (fst s) (snd s) ;;
  if pyramid_level =? 0 then Ok (u, v)
  else
    let dim := (ncols (nth (pyramid_level - 1) pyramid_I1 []),
                nrows (nth (pyramid_level - 1) pyramid_I1 [])) in
    u <- resize u dim ;;
    v <- resize v dim ;;
    Ok (scale u (qz 2), scale v (qz 2)).

Definition pyramidal_flow
    (step : image -> image -> nat -> result (image * image))
    (I1 I2 : image) (window_size max_iter num_levels : nat)
  : result (image * image) :=
  let IMAGE_SIZE := image_size I1 num_levels in
  I1 <- fit_size I1 IMAGE_SIZE ;;
  I2 <- fit_size I2 IMAGE_SIZE ;;
  let pyramid_I1 := build_pyramid I1 num_levels in
  let pyarmid_I2 := build_pyramid I2 num_levels in
  let u := zeros (nrows (last pyarmid_I2 [])) (ncols (last pyarmid_I2 [])) in
  let v := zeros (nrows (last pyarmid_I2 [])) (ncols (last pyarmid_I2 [])) in
  for_each (rev (range 0 (length pyarmid_I2)))
           (refine_level step pyramid_I1 pyarmid_I2 window_size max_iter)
           (u, v).

Definition lucas_kanade_optical_flow :=
  pyramidal_flow lucas_kanade_step.

Definition faster_lucas_kanade_optical_flow :=
  pyramidal_flow faster_lucas_kanade_step.

(** ** Vocabulary of the statements *)

(** [a] has [h] rows, each of length [w]. *)
Definition has_shape (a : image) (h w : nat) : Prop :=
  length a = h /\ Forall (fun row => length row = w) a.

(** Every entry of [l] is zero. *)
Definition all_zero (l : list Qc) : Prop := Forall (fun x => x = 0%Qc) l.

(** What one pass of a loop body does to the pair [(du, dv)] at pixel
    [(r, c)]: it writes the pair [x], or leaves the arrays alone. *)
Definition step_effect (g : nat -> nat -> option (Qc * Qc)) (r c : nat)
    (s : image * image) : image * image :=
  match g r c with
  | Some x => assign r c x s
  | None => s
  end.

(** [(du[r, c], dv[r, c])] *)
Definition pair_at (s : image * image) (r c : nat) : Qc * Qc :=
  (get2 (fst s) r c, get2 (snd s) r c).

(** [x in xs] *)
Definition mem (x : nat) (xs : list nat) : bool := existsb (Nat.eqb x) xs.

(** [s'] is [s] overwritten by [g] on the pixels selected by [dom]. *)
Definition overwritten (g : nat -> nat -> option (Qc * Qc))
    (dom : nat -> nat -> bool) (h w : nat) (s s' : image * image) : Prop :=
  has_shape (fst s') h w /\ has_shape (snd s') h w /\
  forall r c,
    pair_at s' r c =
    match (if dom r c then g r c else None) with
    | Some x => x
    | None => pair_at s r c
    end.

(** The window of [(r, c)] fits inside an [h] x [w] image. *)
Definition interior (h w boundary r c : nat) : bool :=
  (boundary <=? r) && (r <? h - boundary) &&
  (boundary <=? c) && (c <? w - boundary).

(** The value the dense step leaves at a pixel. *)
Definition pixel_flow (Ix Iy It : image) (ws r c : nat) : option (Qc * Qc) :=
  match solve_pixel Ix Iy It (ws / 2) (ws * ws) r c with
  | Ok x => Some x
  | Err _ => None
  end.

(** Two extents that NumPy cannot broadcast against each other. *)
Definition unbroadcastable (n m : nat) : Prop := n <> m /\ n <> 1 /\ m <> 1.

(** The value the sparse step leaves at a pixel, on a large image. *)
Definition corner_flow (corners Ix Iy It : image) (ws r c : nat)
  : option (Qc * Qc) :=
  if Qc_eq_dec (get2 corners r c) 0%Qc then None
  else pixel_flow Ix Iy It ws r c.

(** Determinant of a 2x2 matrix. *)
Definition det2 (m : image) : Qc :=
  (get2 m 0 0 * get2 m 1 1 - get2 m 0 1 * get2 m 1 0)%Qc.

(** The matrix [A] of the window centred at [(r, c)]. *)
Definition design_matrix (Ix Iy : image) (ws r c : nat) : image :=
  column_stack (concat (window Ix (ws / 2) r c))
               (concat (window Iy (ws / 2) r c)).

(** [A.T @ A] *)
Definition normal_matrix (A : image) : image := matmul (transpose A) A.

(** [warp_image] once the field has been rescaled and the query points
    formed: interpolate, reshape, fill. *)
Definition sample_and_fill (img : image) (xi : list Qc * list Qc)
  : result image :=
  interpolated <- griddata (grid_points img) (flatten img) xi ;;
  image_warp <- reshape2 interpolated (shape img) ;;
  Ok (fill_nan image_warp img).

(** Extent of an axis [k] levels down the pyramid. *)
Definition level_dim (d k : nat) : nat := Nat.iter k (fun x => ceil_div x 2) d.

(** A step function that, on two images of one shape, returns two arrays
    of that shape. *)
Definition shape_preserving
    (step : image -> image -> nat -> result (image * image)) (ws : nat)
  : Prop :=
  forall A B h w, has_shape A h w -> has_shape B h w -> 0 < h -> 0 < w ->
    exists du dv, step A B ws = Ok (du, dv) /\
                  has_shape du h w /\ has_shape dv h w.

(** [np.full((h, w), c)] *)
Definition full (h w : nat) (c : Qc) : image := repeat (repeat c w) h.

(** [a + k] for a scalar [k].  The sum is exact; in float64 it is exact
    as long as the samples and [k] are integers of moderate size, which is
    what [integer_samples] states. *)
Definition offset (a : image) (k : Qc) : image :=
  map (map (fun x => (x + k)%Qc)) a.

(** Every sample of [a] is an integer of absolute value at most [bound].
    With a bound of [2 ^ 40], the sums of two such numbers and the
    derivative filters applied to them stay below [2 ^ 53] and are exact
    in float64. *)
Definition integer_samples (bound : Z) (a : image) : Prop :=
  Forall (Forall (fun x => exists z, x = qz z /\ (Z.abs z <= bound)%Z)) a.

(** Sum of the entries of a kernel. *)
Definition kernel_sum (k : image) : Qc :=
  sumq (map (fun p => sumq (map (fun q => get2 k p q) (seq 0 (ncols k))))
            (seq 0 (nrows k))).

(** ** The stabilisation drivers: smoothing of the field and cropping

    The pure array steps of [lucas_kanade_video_stabilization] and its two
    variants; reading, colour conversion and writing of frames are not
    modelled. *)

(** End of the slice [l[lo:-hi]] of a sequence of length [n], for
    [hi >= 0]: [-0] is [0]. *)
Definition neg_stop (hi n : nat) : nat := if hi =? 0 then 0 else n - hi.

(** [l[lo:-hi]] *)
Definition slice_neg {A} (lo hi : nat) (l : list A) : list A :=
  slice lo (neg_stop hi (length l)) l.

(** [a[r0:-r1, c0:-c1]] *)
Definition slice2_neg (r0 r1 c0 c1 : nat) (a : image) : image :=
  map (slice_neg c0 c1) (slice_neg r0 r1 a).

(** [np.mean(a)]: [nan] ([None]) on an array without entries. *)
Definition mean (a : image) : option Qc :=
  match flatten a with
  | [] => None
  | x :: rest =>
      Some (sumq (x :: rest) / qz (Z.of_nat (length (x :: rest))))%Qc
  end.

(** The entries of [l] at the positions [lo <= i < stop], counted from
    [i], replaced by their image under [f]. *)
Fixpoint update_from {A} (i lo stop : nat) (f : A -> A) (l : list A)
  : list A :=
  match l with
  | [] => []
  | x :: rest =>
      (if (lo <=? i) && (i <? stop) then f x else x)
        :: update_from (S i) lo stop f rest
  end.

(** [l[lo:-hi] = f(l[lo:-hi])], entry by entry. *)
Definition update_slice_neg {A} (lo hi : nat) (f : A -> A) (l : list A)
  : list A :=
  update_from 0 lo (neg_stop hi (length l)) f l.

(** [a[b:-b, b:-b] = x] *)
Definition fill_interior (a : image) (boarder : nat) (x : Qc) : image :=
  update_slice_neg boarder boarder
    (update_slice_neg boarder boarder (fun _ => x)) a.

(** Steps c and d on one field:
    [mean_u = np.mean(u[b:-b, b:-b]); u[b:-b, b:-b] = mean_u].
    A [nan] mean comes from an empty slice, into which the assignment
    writes nothing. *)
Definition smooth_interior (u : image) (boarder : nat) : image :=
  match mean (slice2_neg boarder boarder boarder boarder u) with
  | Some mean_u => fill_interior u boarder mean_u
  | None => u
  end.

(** [next_frame[start_rows:-end_rows, start_cols:-end_cols]] of
    [lucas_kanade_faster_video_stabilization_fix_effects]. *)
Definition crop_borders (frame : image)
    (start_rows start_cols end_rows end_cols : nat) : image :=
  slice2_neg start_rows end_rows start_cols end_cols frame.


(** ** The frame loop of the stabilisation drivers

    [lucas_kanade_video_stabilization] and its two faster variants read
    the grey frames of a video, bring the first one to [IMAGE_SIZE] and
    run the steps (a) to (g) on every later frame.  The functions below
    are that computation on the grey frames, up to the warped frame;
    reading and writing the video, the colour conversions and the cast of
    the warped frame to [uint8] are not part of them. *)

(** Steps (a) to (g) of the loop body.  The state is the list of warped
    frames so far and [(prev_frame, prev_u, prev_v)]. *)
Definition stabilization_step
    (flow : image -> image -> nat -> nat -> nat -> result (image * image))
    (IMAGE_SIZE : nat * nat) (window_size max_iter num_levels : nat)
    (grey_cur_frame : image) (s : list image * (image * image * image))
  : result (list image * (image * image * image)) :=
  let '(warped_frames, (prev_frame, prev_u, prev_v)) := s in
  let boarder := window_size / 2 in
  grey_cur_frame_resized <- resize grey_cur_frame IMAGE_SIZE ;;
  ' (u, v) <- flow prev_frame grey_cur_frame_resized
                window_size max_iter num_levels ;;
  let u := smooth_interior u boarder in
  let v := smooth_interior v boarder in
  u <- add_images u prev_u ;;
  v <- add_images v prev_v ;;
  warped_frame <- warp_image grey_cur_frame_resized u v ;;
  Ok (warped_frames ++ [warped_frame], (grey_cur_frame_resized, u, v)).

(** The preamble and the loop: the warped frames, in order, of the frames
    that follow [first_frame_gray]. *)
Definition stabilize_frames
    (flow : image -> image -> nat -> nat -> nat -> result (image * image))
    (window_size max_iter num_levels : nat)
    (first_frame_gray : image) (frames : list image) : result (list image) :=
  let IMAGE_SIZE := image_size first_frame_gray num_levels in
  first_frame_gray <- fit_size first_frame_gray IMAGE_SIZE ;;
  let u := zeros (nrows first_frame_gray) (ncols first_frame_gray) in
  let v := zeros (nrows first_frame_gray) (ncols first_frame_gray) in
  s <- for_each frames
         (stabilization_step flow IMAGE_SIZE window_size max_iter num_levels)
         ([], (first_frame_gray, u, v)) ;;
  Ok (fst s).

Definition lucas_kanade_video_stabilization :=
  stabilize_frames lucas_kanade_optical_flow.

Definition lucas_kanade_faster_video_stabilization :=
  stabilize_frames faster_lucas_kanade_optical_flow.

(** The data point of index [i]. *)
Definition point_at (points : list Qc * list Qc) (i : nat) : Qc * Qc :=
  (nth i (fst points) 0%Qc, nth i (snd points) 0%Qc).

(** Twice the signed area of the triangle [a], [b], [c]. *)
Definition cross (a b c : Qc * Qc) : Qc :=
  ((fst b - fst a) * (snd c - snd a) - (fst c - fst a) * (snd b - snd a))%Qc.

(** Three of the data points are not on one line: a triangulation
    exists. *)
Definition spans_plane (points : list Qc * list Qc) : Prop :=
  exists i j k,
    i < length (fst points) /\ j < length (fst points) /\
    k < length (fst points) /\
    cross (point_at points i) (point_at points j) (point_at points k)
    <> 0%Qc.

(** All data points share their abscissa, or all share their ordinate:
    a single row or column of pixels, or a single pixel. *)
Definition on_axis_line (points : list Qc * list Qc) : Prop :=
  (forall x, In x (fst points) -> x = hd 0%Qc (fst points)) \/
  (forall y, In y (snd points) -> y = hd 0%Qc (snd points)).

(** ** Contracts of the library routines *)

(** On a matrix whose determinant is not zero the inverse is returned
    (floating-point rounding is not modelled). *)
Hypothesis inv_nonsingular : forall a b c d,
  (a * d - b * c)%Qc <> 0%Qc ->
  inv [[a; b]; [c; d]]
  = Some [[(d / (a * d - b * c))%Qc; (- b / (a * d - b * c))%Qc];
          [(- c / (a * d - b * c))%Qc; (a / (a * d - b * c))%Qc]].

(** A zero row or a zero column gives a pivot that is exactly zero:
    [LinAlgError]. *)
Hypothesis inv_zero_line : forall a b c d,
  (a = 0%Qc /\ b = 0%Qc) \/ (c = 0%Qc /\ d = 0%Qc) \/
  (a = 0%Qc /\ c = 0%Qc) \/ (b = 0%Qc /\ d = 0%Qc) ->
  inv [[a; b]; [c; d]] = None.

(** The corner response map has the shape of the source. *)
Hypothesis cornerHarris_shape : forall src blockSize ksize k,
  has_shape (cornerHarris src blockSize ksize k) (nrows src) (ncols src).

(** A non-empty source resized to a non-empty target has the target's
    size. *)
Hypothesis resize_shape : forall src w h,
  0 < nrows src -> 0 < ncols src -> 0 < w -> 0 < h ->
  exists dst, resize src (w, h) = Ok dst /\ has_shape dst h w.

(** Resizing to the size the source already has copies it. *)
Hypothesis resize_same_size : forall src h w,
  has_shape src h w -> 0 < h -> 0 < w -> resize src (w, h) = Ok src.

(** Data points on one vertical or horizontal line cannot be
    triangulated. *)
Hypothesis griddata_degenerate : forall points values xi,
  fst points <> [] ->
  length (snd points) = length (fst points) ->
  length values = length (fst points) ->
  on_axis_line points ->
  griddata points values xi = Err QhullError.

(** On data points that span the plane: one interpolated value (or [nan])
    per query point. *)
Hypothesis griddata_length : forall points values xi,
  spans_plane points ->
  length (snd points) = length (fst points) ->
  length values = length (fst points) ->
  length (fst xi) = length (snd xi) ->
  exists interpolated,
    griddata points values xi = Ok interpolated /\
    length interpolated = length (fst xi).

(** Queried at its own (pairwise distinct) data points, the interpolant
    returns the data. *)
Hypothesis griddata_at_points : forall points values,
  spans_plane points ->
  length (fst points) = length values ->
  length (snd points) = length values ->
  NoDup (combine (fst points) (snd points)) ->
  griddata points values points = Ok (map Some values).

(** Resampling an all-zero array gives an all-zero array. *)
Hypothesis resize_zeros : forall h w w' h',
  0 < h -> 0 < w -> 0 < w' -> 0 < h' ->
  resize (zeros h w) (w', h') = Ok (zeros h' w').

(** * Properties *)

(** ** Shapes *)

Lemma has_shape_nrows a h w : has_shape a h w -> nrows a = h.
Proof. intros [H _]; exact H. Qed.

Lemma has_shape_ncols a h w : has_shape a h w -> 0 < h -> ncols a = w.
Proof.
  intros [Hl Hr] Hh. unfold ncols. destruct a as [|row a]; simpl in *.
  - lia.
  - inversion Hr; assumption.
Qed.

Lemma has_shape_shape a h w : has_shape a h w -> 0 < h -> shape a = (h, w).
Proof.
  intros Hs Hh. unfold shape.
  rewrite (has_shape_nrows _ _ _ Hs), (has_shape_ncols _ _ _ Hs Hh). reflexivity.
Qed.

Lemma has_shape_row a h w r :
  has_shape a h w -> r < h -> length (nth r a []) = w.
Proof.
  intros [Hl Hr] Hlt. rewrite Forall_forall in Hr.
  apply Hr, nth_In. lia.
Qed.

Lemma has_shape_tabulate (f : nat -> nat -> Qc) h w :
  has_shape (map (fun r => map (fun c => f r c) (seq 0 w)) (seq 0 h)) h w.
Proof.
  split.
  - rewrite length_map, length_seq. reflexivity.
  - apply Forall_forall. intros row Hin. apply in_map_iff in Hin.
    destruct Hin as [r [<- _]]. rewrite length_map, length_seq. reflexivity.
Qed.

Lemma get2_tabulate (f : nat -> nat -> Qc) h w r c :
  r < h -> c < w ->
  get2 (map (fun r => map (fun c => f r c) (seq 0 w)) (seq 0 h)) r c = f r c.
Proof.
  intros Hr Hc. unfold get2.
  rewrite (nth_indep _ [] (map (fun c => f 0 c) (seq 0 w)))
    by (rewrite length_map, length_seq; exact Hr).
  rewrite (map_nth (fun r => map (fun c => f r c) (seq 0 w)) (seq 0 h) 0 r).
  rewrite seq_nth by exact Hr. simpl.
  rewrite (nth_indep _ 0%Qc (f r 0))
    by (rewrite length_map, length_seq; exact Hc).
  rewrite (map_nth (fun c => f r c) (seq 0 w) 0 c).
  rewrite seq_nth by exact Hc. reflexivity.
Qed.

Lemma has_shape_zeros h w : has_shape (zeros h w) h w.
Proof.
  split.
  - apply repeat_length.
  - apply Forall_forall. intros row Hin. apply repeat_spec in Hin.
    subst row. apply repeat_length.
Qed.

Lemma get2_zeros h w r c : get2 (zeros h w) r c = 0%Qc.
Proof.
  unfold get2, zeros.
  destruct (Nat.lt_ge_cases r h) as [Hr|Hr].
  - rewrite nth_repeat_lt by exact Hr.
    destruct (Nat.lt_ge_cases c w) as [Hc|Hc].
    + apply nth_repeat_lt; exact Hc.
    + apply nth_overflow. rewrite repeat_length. exact Hc.
  - rewrite (nth_overflow (repeat (repeat 0%Qc w) h))
      by (rewrite repeat_length; exact Hr).
    destruct c; reflexivity.
Qed.

Lemma has_shape_convolve2d a k :
  has_shape (convolve2d a k) (nrows a) (ncols a).
Proof. apply has_shape_tabulate. Qed.

(** ** Updates *)

Lemma set_nth_length A (l : list A) i x : length (set_nth l i x) = length l.
Proof.
  revert i; induction l as [|y l IH]; intros [|i]; simpl; auto.
Qed.

Lemma set_nth_same A (l : list A) i d : set_nth l i (nth i l d) = l.
Proof.
  revert i; induction l as [|y l IH]; intros [|i]; simpl; try reflexivity.
  rewrite IH. reflexivity.
Qed.

Lemma nth_set_nth A (l : list A) i j x d :
  nth j (set_nth l i x) d =
  if (i =? j) && (i <? length l) then x else nth j l d.
Proof.
  revert i j; induction l as [|y l IH]; intros i j.
  - simpl. rewrite andb_false_r. destruct i; reflexivity.
  - destruct i as [|i], j as [|j]; simpl; try reflexivity.
    rewrite IH. reflexivity.
Qed.

Lemma set2_same a r c : set2 a r c (get2 a r c) = a.
Proof.
  unfold set2, get2. rewrite set_nth_same. apply set_nth_same.
Qed.

Lemma get2_set2 a r c x r' c' :
  get2 (set2 a r c x) r' c' =
  if (r =? r') && (c =? c') && (r <? nrows a) && (c <? length (nth r a []))
  then x else get2 a r' c'.
Proof.
  unfold get2, set2, nrows. rewrite nth_set_nth.
  destruct (r =? r') eqn:Er; simpl; [|reflexivity].
  apply Nat.eqb_eq in Er; subst r'.
  destruct (r <? length a) eqn:Hr; simpl.
  - rewrite nth_set_nth. destruct (c =? c'); reflexivity.
  - rewrite andb_false_r. reflexivity.
Qed.

Lemma has_shape_set2 a h w r c x :
  has_shape a h w -> has_shape (set2 a r c x) h w.
Proof.
  intros [Hl Hr]. unfold set2. split.
  - rewrite set_nth_length. exact Hl.
  - apply Forall_forall. intros row Hin.
    apply In_nth with (d := []) in Hin. destruct Hin as [j [Hj <-]].
    rewrite set_nth_length in Hj. rewrite nth_set_nth.
    rewrite Forall_forall in Hr.
    destruct ((r =? j) && (r <? length a)) eqn:E.
    + rewrite set_nth_length. apply andb_prop in E. destruct E as [_ E].
      apply Nat.ltb_lt in E. apply Hr, nth_In. exact E.
    + apply Hr, nth_In. exact Hj.
Qed.

Lemma set2_zeros h w r c : set2 (zeros h w) r c 0%Qc = zeros h w.
Proof.
  rewrite <- (get2_zeros h w r c) at 1. apply set2_same.
Qed.

Lemma Ok_inj A (a b : A) : Ok a = Ok b -> a = b.
Proof.
  intros H.
  exact (f_equal (fun r => match r with Ok x => x | Err _ => a end) H).
Qed.

(** ** Loops *)

Lemma for_each_stable X S (xs : list X) (body : X -> S -> result S) s :
  (forall x, In x xs -> body x s = Ok s) -> for_each xs body s = Ok s.
Proof.
  induction xs as [|x xs IH]; intros Hb; simpl.
  - reflexivity.
  - rewrite Hb by (left; reflexivity). simpl. apply IH.
    intros y Hy. apply Hb. right. exact Hy.
Qed.

Lemma for_each_invariant X S (P : S -> Prop) (xs : list X)
    (body : X -> S -> result S) s :
  P s ->
  (forall x s0, In x xs -> P s0 -> exists s1, body x s0 = Ok s1 /\ P s1) ->
  exists s', for_each xs body s = Ok s' /\ P s'.
Proof.
  revert s; induction xs as [|x xs IH]; intros s Hs Hb; simpl.
  - exists s. split; [reflexivity | exact Hs].
  - destruct (Hb x s (or_introl eq_refl) Hs) as [s1 [E1 P1]].
    rewrite E1. simpl. apply IH; [exact P1|].
    intros y s0 Hy. apply Hb. right. exact Hy.
Qed.

Lemma in_range x lo hi : In x (range lo hi) <-> lo <= x < hi.
Proof. unfold range. rewrite in_seq. lia. Qed.

(** ** Windows *)

Lemma Forall_firstn A (P : A -> Prop) n (l : list A) :
  Forall P l -> Forall P (firstn n l).
Proof.
  intros H; revert n; induction H as [|x l Hx Hl IH]; intros [|n]; simpl;
    constructor; auto.
Qed.

Lemma Forall_skipn A (P : A -> Prop) n (l : list A) :
  Forall P l -> Forall P (skipn n l).
Proof.
  intros H; revert n; induction H as [|x l Hx Hl IH]; intros [|n]; simpl;
    auto.
Qed.

Lemma Forall_slice A (P : A -> Prop) lo hi (l : list A) :
  Forall P l -> Forall P (slice lo hi l).
Proof. intros H. apply Forall_firstn, Forall_skipn, H. Qed.

Lemma slice_length A lo hi (l : list A) :
  hi <= length l -> length (slice lo hi l) = hi - lo.
Proof. intros H. unfold slice. rewrite length_firstn, length_skipn. lia. Qed.

Lemma has_shape_window a h w b r c :
  has_shape a h w -> b <= r -> r + b < h -> b <= c -> c + b < w ->
  has_shape (window a b r c) (2 * b + 1) (2 * b + 1).
Proof.
  intros [Hl Hr] Hb1 Hb2 Hb3 Hb4. unfold window, slice2. split.
  - rewrite length_map, slice_length by lia. lia.
  - apply Forall_map. apply Forall_slice.
    eapply Forall_impl; [|exact Hr]. intros row Hrow. simpl in Hrow |- *.
    rewrite slice_length by lia. lia.
Qed.

Lemma length_concat_has_shape a h w :
  has_shape a h w -> length (concat a) = h * w.
Proof.
  intros [Hl Hr]. subst h. induction Hr as [|row a Hrow Ha IH]; simpl.
  - reflexivity.
  - rewrite length_app, IH, Hrow. reflexivity.
Qed.

Lemma odd_half_window ws : Nat.odd ws = true -> 2 * (ws / 2) + 1 = ws.
Proof.
  intros H. apply Nat.odd_spec in H. destruct H as [k ->].
  replace (2 * k + 1) with (1 + k * 2) by lia.
  rewrite Nat.div_add by lia. simpl. lia.
Qed.

(** The window of an interior pixel reshapes to [window_size ** 2] entries. *)
Lemma reshape1_window a h w ws r c :
  has_shape a h w -> Nat.odd ws = true ->
  ws / 2 <= r < h - ws / 2 -> ws / 2 <= c < w - ws / 2 ->
  reshape1 (window a (ws / 2) r c) (ws * ws) = Ok (concat (window a (ws / 2) r c)).
Proof.
  intros Hs Hodd Hr Hc. unfold reshape1.
  rewrite length_concat_has_shape
    with (h := 2 * (ws / 2) + 1) (w := 2 * (ws / 2) + 1)
    by (apply has_shape_window with (h := h) (w := w); auto; lia).
  rewrite (odd_half_window ws Hodd), Nat.eqb_refl. reflexivity.
Qed.

(** ** Least squares *)

Lemma dot_all_zero x b : all_zero b -> dot x b = 0%Qc.
Proof.
  intros Hb. unfold dot. revert x.
  induction Hb as [|y b Hy Hb IH]; intros [|x0 x]; simpl; try reflexivity.
  subst y. rewrite IH, Qcmult_0_r. apply Qcplus_0_l.
Qed.

Lemma nth_all_zero l i : all_zero l -> nth i l 0%Qc = 0%Qc.
Proof.
  intros H. revert i. induction H as [|x l Hx Hl IH]; intros [|i]; cbn; auto.
Qed.

Lemma all_zero_matvec a b : all_zero b -> all_zero (matvec a b).
Proof.
  intros Hb. unfold matvec, all_zero. apply Forall_map.
  apply Forall_forall. intros row _. apply dot_all_zero. exact Hb.
Qed.

Lemma linalg_inv_cases m :
  linalg_inv m = Err LinAlgError \/ exists m_inv, linalg_inv m = Ok m_inv.
Proof. unfold linalg_inv. destruct (inv m); eauto. Qed.

(** Whatever [np.linalg.inv] does, a zero right-hand side gives a zero
    solution. *)
Lemma least_squares_all_zero A b :
  all_zero b -> exists x, least_squares A b = Ok x /\ all_zero x.
Proof.
  intros Hb. unfold least_squares.
  destruct (linalg_inv_cases (matmul (transpose A) A)) as [E|[m_inv E]];
    rewrite E; cbn [bind catch_linalg].
  - exists [0%Qc; 0%Qc]. split; [reflexivity|]. repeat constructor.
  - eexists. split; [reflexivity|]. apply all_zero_matvec. exact Hb.
Qed.

Lemma all_zero_concat_window h w b r c :
  all_zero (concat (window (zeros h w) b r c)).
Proof.
  unfold all_zero. apply Forall_concat. unfold window, slice2.
  apply Forall_map, Forall_slice. unfold zeros.
  apply Forall_forall. intros row Hin. apply repeat_spec in Hin. subst row.
  apply Forall_slice. apply Forall_forall. intros x Hx.
  apply repeat_spec in Hx. exact Hx.
Qed.

(** ** Broadcasting *)

Lemma broadcast_dim_same n : broadcast_dim n n = Ok n.
Proof. unfold broadcast_dim. rewrite Nat.eqb_refl. reflexivity. Qed.

Lemma map_const A B (f : A -> B) (y : B) (l : list A) :
  (forall x, f x = y) -> map f l = repeat y (length l).
Proof.
  intros H. induction l as [|x l IH]; simpl.
  - reflexivity.
  - rewrite H, IH. reflexivity.
Qed.

Lemma sub_images_self a : sub_images a a = Ok (zeros (nrows a) (ncols a)).
Proof.
  unfold sub_images, broadcast2. rewrite !broadcast_dim_same. simpl.
  f_equal. unfold zeros.
  rewrite map_const with (y := repeat 0%Qc (ncols a)).
  - rewrite length_seq. reflexivity.
  - intros r. rewrite map_const with (y := 0%Qc).
    + rewrite length_seq. reflexivity.
    + intros c. ring.
Qed.

(** ** The dense step on a pair of equal images *)

Lemma solve_pixel_zero_It Ix Iy h w ws r c :
  has_shape Ix h w -> has_shape Iy h w -> Nat.odd ws = true ->
  ws / 2 <= r < h - ws / 2 -> ws / 2 <= c < w - ws / 2 ->
  solve_pixel Ix Iy (zeros h w) (ws / 2) (ws * ws) r c = Ok (0%Qc, 0%Qc).
Proof.
  intros HIx HIy Hodd Hr Hc. unfold solve_pixel.
  rewrite !reshape1_window with (h := h) (w := w)
    by (auto using has_shape_zeros).
  cbn [bind].
  destruct (least_squares_all_zero
              (column_stack (concat (window Ix (ws / 2) r c))
                            (concat (window Iy (ws / 2) r c)))
              (concat (window (zeros h w) (ws / 2) r c))
              (all_zero_concat_window h w (ws / 2) r c)) as [x [E Hx]].
  rewrite E. cbn [bind]. rewrite !nth_all_zero by exact Hx. reflexivity.
Qed.

(** C1. Zero-motion identity: for every image [I] and odd [window_size],
    [lucas_kanade_step(I, I, window_size)] returns [du] and [dv] that are
    all-zero arrays of the shape of [I]. *)
Theorem lucas_kanade_step_zero_motion (I : image) (window_size : nat) :
  Nat.odd window_size = true ->
  lucas_kanade_step I I window_size
  = Ok (zeros (nrows I) (ncols I), zeros (nrows I) (ncols I)).
Proof.
  intros Hodd. unfold lucas_kanade_step.
  rewrite sub_images_self. cbn [bind].
  apply for_each_stable. intros r Hr. apply in_range in Hr.
  apply for_each_stable. intros c Hc. apply in_range in Hc.
  rewrite solve_pixel_zero_It with (h := nrows I) (w := ncols I)
    by (auto using has_shape_convolve2d; lia).
  cbn [bind]. unfold assign. cbn [fst snd].
  rewrite set2_zeros. reflexivity.
Qed.


(** ** The pixel loop *)

Lemma pair_at_assign s h w r c x r' c' :
  has_shape (fst s) h w -> has_shape (snd s) h w -> r < h -> c < w ->
  pair_at (assign r c x s) r' c' =
  if (r =? r') && (c =? c') then x else pair_at s r' c'.
Proof.
  intros H1 H2 Hr Hc. unfold pair_at, assign. cbn [fst snd].
  rewrite !get2_set2.
  rewrite (has_shape_nrows _ _ _ H1), (has_shape_nrows _ _ _ H2).
  rewrite (has_shape_row _ _ _ _ H1 Hr), (has_shape_row _ _ _ _ H2 Hr).
  apply Nat.ltb_lt in Hr, Hc. rewrite Hr, Hc, !andb_true_r.
  destruct ((r =? r') && (c =? c')); [destruct x|]; reflexivity.
Qed.

Lemma has_shape_assign s h w r c x :
  has_shape (fst s) h w -> has_shape (snd s) h w ->
  has_shape (fst (assign r c x s)) h w /\
  has_shape (snd (assign r c x s)) h w.
Proof. intros H1 H2. split; apply has_shape_set2; assumption. Qed.

Lemma pair_at_step_effect g s h w r c r' c' :
  has_shape (fst s) h w -> has_shape (snd s) h w -> r < h -> c < w ->
  pair_at (step_effect g r c s) r' c' =
  match (if (r =? r') && (c =? c') then g r c else None) with
  | Some x => x
  | None => pair_at s r' c'
  end.
Proof.
  intros H1 H2 Hr Hc. unfold step_effect.
  destruct (g r c) as [x|].
  - rewrite pair_at_assign with (h := h) (w := w) by auto.
    destruct ((r =? r') && (c =? c')); reflexivity.
  - destruct ((r =? r') && (c =? c')); reflexivity.
Qed.

Lemma row_loop_overwritten g h w r cols
    (body : nat -> image * image -> result (image * image)) :
  r < h -> (forall c, In c cols -> c < w) ->
  (forall c s, In c cols -> body c s = Ok (step_effect g r c s)) ->
  forall s, has_shape (fst s) h w -> has_shape (snd s) h w ->
  exists s', for_each cols body s = Ok s' /\
    overwritten g (fun r' c' => (r =? r') && mem c' cols) h w s s'.
Proof.
  intros Hr. induction cols as [|c cols IH]; intros Hw Hb s H1 H2.
  - exists s. split; [reflexivity|]. split; [assumption|]. split; [assumption|].
    intros r' c'. cbn. rewrite andb_false_r. reflexivity.
  - cbn [for_each]. rewrite Hb by (left; reflexivity). cbn [bind].
    assert (Hc : c < w) by (apply Hw; left; reflexivity).
    assert (Hs1 : has_shape (fst (step_effect g r c s)) h w /\
                  has_shape (snd (step_effect g r c s)) h w).
    { unfold step_effect. destruct (g r c); auto using has_shape_assign. }
    destruct Hs1 as [K1 K2].
    destruct (IH (fun c0 Hc0 => Hw c0 (or_intror Hc0))
                 (fun c0 s0 Hc0 => Hb c0 s0 (or_intror Hc0))
                 (step_effect g r c s) K1 K2) as [s' [E [S1 [S2 Hval]]]].
    exists s'. split; [exact E|]. split; [assumption|]. split; [assumption|].
    intros r' c'.
    rewrite Hval, pair_at_step_effect with (h := h) (w := w) by auto.
    unfold mem. cbn [existsb]. fold (mem c' cols).
    rewrite (Nat.eqb_sym c' c).
    destruct (r =? r') eqn:Er; cbn [andb]; [|reflexivity].
    apply Nat.eqb_eq in Er. subst r'.
    destruct (c =? c') eqn:Ecc; cbn [orb].
    + apply Nat.eqb_eq in Ecc. subst c'.
      destruct (mem c cols); destruct (g r c); reflexivity.
    + destruct (mem c' cols); destruct (g r c'); reflexivity.
Qed.

Lemma pixel_loop_overwritten g h w rows cols
    (body : nat -> nat -> image * image -> result (image * image)) :
  (forall r, In r rows -> r < h) -> (forall c, In c cols -> c < w) ->
  (forall r c s, In r rows -> In c cols ->
     body r c s = Ok (step_effect g r c s)) ->
  forall s, has_shape (fst s) h w -> has_shape (snd s) h w ->
  exists s',
    for_each rows (fun r s0 => for_each cols (fun c s1 => body r c s1) s0) s
    = Ok s' /\
    overwritten g (fun r' c' => mem r' rows && mem c' cols) h w s s'.
Proof.
  intros Hh Hw. induction rows as [|r rows IH]; intros Hb s H1 H2.
  - exists s. split; [reflexivity|]. split; [assumption|]. split; [assumption|].
    reflexivity.
  - cbn [for_each].
    destruct (row_loop_overwritten g h w r cols (fun c s1 => body r c s1)
                (Hh r (or_introl eq_refl)) Hw
                (fun c s0 Hc => Hb r c s0 (or_introl eq_refl) Hc) s H1 H2)
      as [s1 [E1 [K1 [K2 V1]]]].
    rewrite E1. cbn [bind].
    destruct (IH (fun r0 Hr0 => Hh r0 (or_intror Hr0))
                 (fun r0 c0 s0 Hr0 Hc0 => Hb r0 c0 s0 (or_intror Hr0) Hc0)
                 s1 K1 K2) as [s' [E [S1 [S2 Hval]]]].
    exists s'. split; [exact E|]. split; [assumption|]. split; [assumption|].
    intros r' c'. rewrite Hval, V1.
    change (mem r' (r :: rows)) with ((r' =? r) || mem r' rows).
    rewrite (Nat.eqb_sym r' r).
    destruct (mem r' rows); destruct (r =? r'); cbn [andb orb];
      destruct (mem c' cols); try reflexivity;
      destruct (g r' c'); reflexivity.
Qed.

(** ** The dense step, pixel by pixel *)

Lemma mem_range x lo hi : mem x (range lo hi) = (lo <=? x) && (x <? hi).
Proof.
  apply Bool.eq_iff_eq_true. unfold mem.
  rewrite existsb_exists, andb_true_iff, Nat.leb_le, Nat.ltb_lt. split.
  - intros [y [Hy E]]. apply Nat.eqb_eq in E. subst y.
    apply in_range. exact Hy.
  - intros H. exists x. split; [apply in_range; exact H | apply Nat.eqb_refl].
Qed.

Lemma interior_mem h w b r c :
  mem r (range b (h - b)) && mem c (range b (w - b)) = interior h w b r c.
Proof. rewrite !mem_range. unfold interior. rewrite andb_assoc. reflexivity. Qed.

Lemma interior_spec h w b r c :
  interior h w b r c = true <-> (b <= r < h - b /\ b <= c < w - b).
Proof.
  unfold interior.
  rewrite !andb_true_iff, !Nat.leb_le, !Nat.ltb_lt.
  split; [intros [[[A B] C] D] | intros [[A B] [C D]]]; repeat split;
    assumption.
Qed.

Lemma broadcast2_same_shape f a b :
  nrows a = nrows b -> ncols a = ncols b ->
  exists d, broadcast2 f a b = Ok d /\ has_shape d (nrows a) (ncols a).
Proof.
  intros Hr Hc. unfold broadcast2. rewrite <- Hr, <- Hc.
  rewrite !broadcast_dim_same. cbn [bind].
  eexists. split; [reflexivity|].
  apply (has_shape_tabulate (fun r c => f (bget a r c) (bget b r c))).
Qed.

Lemma least_squares_total A b : exists x, least_squares A b = Ok x.
Proof.
  unfold least_squares.
  destruct (linalg_inv_cases (matmul (transpose A) A)) as [E|[m_inv E]];
    rewrite E; cbn [bind catch_linalg]; eauto.
Qed.

Lemma solve_pixel_total Ix Iy It h w ws r c :
  has_shape Ix h w -> has_shape Iy h w -> has_shape It h w ->
  Nat.odd ws = true ->
  ws / 2 <= r < h - ws / 2 -> ws / 2 <= c < w - ws / 2 ->
  exists x, solve_pixel Ix Iy It (ws / 2) (ws * ws) r c = Ok x.
Proof.
  intros HIx HIy HIt Hodd Hr Hc. unfold solve_pixel.
  rewrite !reshape1_window with (h := h) (w := w) by auto.
  cbn [bind].
  destruct (least_squares_total
              (column_stack (concat (window Ix (ws / 2) r c))
                            (concat (window Iy (ws / 2) r c)))
              (concat (window It (ws / 2) r c))) as [x E].
  rewrite E. cbn [bind]. eauto.
Qed.

Lemma lucas_kanade_step_spec I1 I2 ws :
  nrows I1 = nrows I2 -> ncols I1 = ncols I2 -> Nat.odd ws = true ->
  exists It du dv,
    sub_images I2 I1 = Ok It /\
    has_shape It (nrows I1) (ncols I1) /\
    lucas_kanade_step I1 I2 ws = Ok (du, dv) /\
    has_shape du (nrows I1) (ncols I1) /\
    has_shape dv (nrows I1) (ncols I1) /\
    forall r c,
      (get2 du r c, get2 dv r c) =
      match (if interior (nrows I1) (ncols I1) (ws / 2) r c
             then pixel_flow (convolve2d I2 X_DERIVATIVE_FILTER)
                             (convolve2d I2 Y_DERIVATIVE_FILTER) It ws r c
             else None) with
      | Some x => x
      | None => (0%Qc, 0%Qc)
      end.
Proof.
  intros Hrows Hcols Hodd.
  destruct (broadcast2_same_shape Qcminus I2 I1 (eq_sym Hrows) (eq_sym Hcols))
    as [It [EIt HIt]].
  rewrite <- Hrows, <- Hcols in HIt.
  set (Ix := convolve2d I2 X_DERIVATIVE_FILTER).
  set (Iy := convolve2d I2 Y_DERIVATIVE_FILTER).
  assert (HIx : has_shape Ix (nrows I1) (ncols I1)).
  { rewrite Hrows, Hcols. apply has_shape_convolve2d. }
  assert (HIy : has_shape Iy (nrows I1) (ncols I1)).
  { rewrite Hrows, Hcols. apply has_shape_convolve2d. }
  set (h := nrows I1) in Hrows, HIt, HIx, HIy |- *.
  set (w := ncols I1) in Hcols, HIt, HIx, HIy |- *.
  destruct (pixel_loop_overwritten (pixel_flow Ix Iy It ws) h w
              (range (ws / 2) (h - ws / 2)) (range (ws / 2) (w - ws / 2))
              (fun idx_row idx_col s =>
                 x <- solve_pixel Ix Iy It (ws / 2) (ws * ws) idx_row idx_col ;;
                 Ok (assign idx_row idx_col x s)))
    with (s := (zeros h w, zeros h w)) as [[du dv] [E [Hdu [Hdv Hval]]]].
  - intros r Hr. apply in_range in Hr. lia.
  - intros c Hc. apply in_range in Hc. lia.
  - intros r c s Hr Hc. apply in_range in Hr, Hc.
    unfold step_effect, pixel_flow.
    destruct (solve_pixel_total Ix Iy It h w ws r c) as [x Ex]; auto.
    rewrite Ex. reflexivity.
  - apply has_shape_zeros.
  - apply has_shape_zeros.
  - exists It, du, dv. unfold lucas_kanade_step.
    unfold sub_images. rewrite EIt. cbn [bind].
    fold h w Ix Iy. rewrite E.
    repeat (split; [first [reflexivity | assumption]|]).
    intros r c. specialize (Hval r c).
    unfold pair_at in Hval. cbn [fst snd] in Hval.
    rewrite Hval, interior_mem, !get2_zeros. reflexivity.
Qed.

(** C4. Border invariant: for every pair of same-shape images and every odd
    [window_size], the call returns [du] and [dv] of the shape of the
    images, and both are zero at every pixel of the margin of width
    [floor(window_size / 2)] along the top, bottom, left and right edges:
    only pixels whose whole window fits inside the image are written. *)
Theorem lucas_kanade_step_border (I1 I2 : image) (window_size : nat) :
  shape I1 = shape I2 -> Nat.odd window_size = true ->
  exists du dv,
    lucas_kanade_step I1 I2 window_size = Ok (du, dv) /\
    has_shape du (nrows I1) (ncols I1) /\
    has_shape dv (nrows I1) (ncols I1) /\
    forall r c,
      r < window_size / 2 \/ nrows I1 - window_size / 2 <= r \/
      c < window_size / 2 \/ ncols I1 - window_size / 2 <= c ->
      get2 du r c = 0%Qc /\ get2 dv r c = 0%Qc.
Proof.
  intros Hshape Hodd. unfold shape in Hshape.
  injection Hshape as Hrows Hcols.
  destruct (lucas_kanade_step_spec I1 I2 window_size Hrows Hcols Hodd)
    as [It [du [dv [_ [_ [E [Hdu [Hdv Hval]]]]]]]].
  exists du, dv. repeat (split; [assumption|]).
  intros r c Hborder. specialize (Hval r c).
  assert (Hout : interior (nrows I1) (ncols I1) (window_size / 2) r c = false).
  { apply not_true_is_false. rewrite interior_spec. lia. }
  rewrite Hout in Hval. injection Hval as -> ->. split; reflexivity.
Qed.

(** ** Shape mismatch *)

Lemma broadcast_dim_unbroadcastable n m :
  unbroadcastable n m -> broadcast_dim n m = Err ValueError.
Proof.
  intros [H1 [H2 H3]]. unfold broadcast_dim.
  apply Nat.eqb_neq in H1, H2, H3. rewrite H1, H2, H3. reflexivity.
Qed.

Lemma broadcast_dim_error n m e :
  broadcast_dim n m = Err e -> e = ValueError.
Proof.
  unfold broadcast_dim.
  destruct (n =? m); [discriminate|].
  destruct (n =? 1); [discriminate|].
  destruct (m =? 1); [discriminate|].
  intros E. injection E as <-. reflexivity.
Qed.

Lemma broadcast2_unbroadcastable f a b :
  unbroadcastable (nrows a) (nrows b) \/ unbroadcastable (ncols a) (ncols b) ->
  broadcast2 f a b = Err ValueError.
Proof.
  intros [H|H]; unfold broadcast2.
  - rewrite (broadcast_dim_unbroadcastable _ _ H). reflexivity.
  - rewrite (broadcast_dim_unbroadcastable _ _ H).
    destruct (broadcast_dim (nrows a) (nrows b)) as [h|e] eqn:E; cbn [bind].
    + reflexivity.
    + rewrite (broadcast_dim_error _ _ _ E). reflexivity.
Qed.

(** C10, as amended. A pair of images whose shapes cannot be broadcast
    against each other (some axis has different extents, neither of them 1)
    is rejected: the call raises [ValueError] at [It = I2 - I1]. *)
Theorem lucas_kanade_step_rejects_unbroadcastable
    (I1 I2 : image) (window_size : nat) :
  unbroadcastable (nrows I1) (nrows I2) \/
  unbroadcastable (ncols I1) (ncols I2) ->
  lucas_kanade_step I1 I2 window_size = Err ValueError.
Proof.
  intros H. unfold lucas_kanade_step, sub_images.
  rewrite broadcast2_unbroadcastable; [reflexivity|].
  destruct H as [[H1 [H2 H3]]|[H1 [H2 H3]]]; [left|right];
    repeat split; auto.
Qed.

(** An image of shape (1, 3) against one of shape (3, 3), with a window of
    one pixel: the subtraction broadcasts the single row and the call
    returns, whatever [np.linalg.inv] does on the three windows. *)
Lemma lucas_kanade_step_broadcast_row_accepted :
  exists s, lucas_kanade_step sample_1x3 sample_I2 1 = Ok s.
Proof.
  unfold lucas_kanade_step, solve_pixel, least_squares, linalg_inv.
  cbn.
  repeat (match goal with |- context [inv ?m] => destruct (inv m) end; cbn).
  all: eexists; reflexivity.
Qed.

(** ** The sparse step *)

Lemma amax_total a h w :
  has_shape a h w -> 0 < h -> 0 < w -> exists top, amax a = Ok top.
Proof.
  intros [Hl Hr] Hh Hw. unfold amax, flatten.
  destruct a as [|row a]; [simpl in Hl; lia|].
  inversion Hr as [|? ? Hrow _]; subst.
  destruct row as [|x row]; [simpl in Hw; lia|].
  simpl. eauto.
Qed.

Lemma thresholded_corners_total I2 :
  0 < nrows I2 -> 0 < ncols I2 ->
  exists corners, thresholded_corners I2 = Ok corners.
Proof using cornerHarris_shape.
  intros Hh Hw. unfold thresholded_corners.
  destruct (amax_total _ _ _ (cornerHarris_shape I2 5 5 (Q2Qc (5 # 100))) Hh Hw)
    as [top E].
  rewrite E. cbn [bind]. eauto.
Qed.

Lemma faster_lucas_kanade_step_small I1 I2 ws :
  nrows I1 < MAX_SHAPE -> ncols I1 < MAX_SHAPE ->
  faster_lucas_kanade_step I1 I2 ws = lucas_kanade_step I1 I2 ws.
Proof.
  intros Hh Hw. unfold faster_lucas_kanade_step.
  apply Nat.ltb_lt in Hh, Hw. rewrite Hh, Hw. reflexivity.
Qed.

Lemma faster_lucas_kanade_step_large I1 I2 ws :
  nrows I1 = nrows I2 -> ncols I1 = ncols I2 -> Nat.odd ws = true ->
  0 < nrows I1 -> 0 < ncols I1 ->
  MAX_SHAPE <= nrows I1 \/ MAX_SHAPE <= ncols I1 ->
  exists corners It du dv,
    thresholded_corners I2 = Ok corners /\
    sub_images I2 I1 = Ok It /\
    faster_lucas_kanade_step I1 I2 ws = Ok (du, dv) /\
    has_shape du (nrows I1) (ncols I1) /\
    has_shape dv (nrows I1) (ncols I1) /\
    forall r c,
      (get2 du r c, get2 dv r c) =
      match (if interior (nrows I1) (ncols I1) (ws / 2) r c
             then corner_flow corners
                    (convolve2d I2 X_DERIVATIVE_FILTER)
                    (convolve2d I2 Y_DERIVATIVE_FILTER) It ws r c
             else None) with
      | Some x => x
      | None => (0%Qc, 0%Qc)
      end.
Proof using cornerHarris_shape.
  intros Hrows Hcols Hodd Hh Hw Hlarge.
  destruct (thresholded_corners_total I2) as [corners Ecorners];
    [lia | lia |].
  destruct (broadcast2_same_shape Qcminus I2 I1 (eq_sym Hrows) (eq_sym Hcols))
    as [It [EIt HIt]].
  rewrite <- Hrows, <- Hcols in HIt.
  assert (Hbig : (nrows I1 <? MAX_SHAPE) && (ncols I1 <? MAX_SHAPE) = false).
  { apply andb_false_iff. rewrite !Nat.ltb_ge. exact Hlarge. }
  set (Ix := convolve2d I2 X_DERIVATIVE_FILTER).
  set (Iy := convolve2d I2 Y_DERIVATIVE_FILTER).
  assert (HIx : has_shape Ix (nrows I1) (ncols I1)).
  { rewrite Hrows, Hcols. apply has_shape_convolve2d. }
  assert (HIy : has_shape Iy (nrows I1) (ncols I1)).
  { rewrite Hrows, Hcols. apply has_shape_convolve2d. }
  set (h := nrows I1) in Hrows, HIt, HIx, HIy, Hbig |- *.
  set (w := ncols I1) in Hcols, HIt, HIx, HIy, Hbig |- *.
  destruct (pixel_loop_overwritten (corner_flow corners Ix Iy It ws) h w
              (range (ws / 2) (h - ws / 2)) (range (ws / 2) (w - ws / 2))
              (fun idx_row idx_col s =>
                 if Qc_eq_dec (get2 corners idx_row idx_col) 0%Qc then Ok s
                 else
                   x <- solve_pixel Ix Iy It (ws / 2) (ws * ws) idx_row idx_col ;;
                   Ok (assign idx_row idx_col x s)))
    with (s := (zeros h w, zeros h w)) as [[du dv] [E [Hdu [Hdv Hval]]]].
  - intros r Hr. apply in_range in Hr. lia.
  - intros c Hc. apply in_range in Hc. lia.
  - intros r c s Hr Hc. apply in_range in Hr, Hc.
    unfold step_effect, corner_flow, pixel_flow.
    destruct (Qc_eq_dec (get2 corners r c) 0%Qc); [reflexivity|].
    destruct (solve_pixel_total Ix Iy It h w ws r c) as [x Ex]; auto.
    rewrite Ex. reflexivity.
  - apply has_shape_zeros.
  - apply has_shape_zeros.
  - exists corners, It, du, dv. unfold faster_lucas_kanade_step.
    fold h w. rewrite Hbig.
    unfold sub_images. rewrite EIt. cbn [bind].
    rewrite Ecorners. cbn [bind].
    fold h w Ix Iy. rewrite E.
    repeat (split; [first [reflexivity | assumption]|]).
    intros r c. specialize (Hval r c).
    unfold pair_at in Hval. cbn [fst snd] in Hval.
    rewrite Hval, interior_mem, !get2_zeros. reflexivity.
Qed.

(** ** The singular-window policy *)

Lemma dot_all_zero_l x b : all_zero x -> dot x b = 0%Qc.
Proof.
  intros Hx. unfold dot. revert b.
  induction Hx as [|y x Hy Hx IH]; intros [|b0 b]; simpl; try reflexivity.
  subst y. rewrite IH, Qcmult_0_l. apply Qcplus_0_l.
Qed.


Lemma det2_nil : det2 [] = 0%Qc.
Proof. unfold det2. cbn. ring. Qed.

Lemma normal_matrix_entries x xs y ys :
  let A := column_stack (x :: xs) (y :: ys) in
  normal_matrix A
  = [[dot (column A 0) (column A 0); dot (column A 0) (column A 1)];
     [dot (column A 1) (column A 0); dot (column A 1) (column A 1)]].
Proof. reflexivity. Qed.

(** The two branches of the [try] statement. *)
Lemma least_squares_policy A b :
  (inv (normal_matrix A) = None -> least_squares A b = Ok [0%Qc; 0%Qc]) /\
  (forall Minv, inv (normal_matrix A) = Some Minv ->
     least_squares A b = Ok (matvec (matmul (neg Minv) (transpose A)) b)).
Proof.
  unfold least_squares, linalg_inv.
  change (matmul (transpose A) A) with (normal_matrix A).
  split; [intros E | intros Minv E]; rewrite E; reflexivity.
Qed.


(** A window on which one of the two gradients vanishes gives a normal
    matrix with a zero row: [np.linalg.inv] raises. *)
Lemma inv_zero_gradient xs ys :
  xs <> [] -> ys <> [] ->
  let A := column_stack xs ys in
  all_zero (column A 0) \/ all_zero (column A 1) ->
  inv (normal_matrix A) = None.
Proof using inv_zero_line.
  intros Hx Hy.
  destruct xs as [|x xs]; [contradiction|].
  destruct ys as [|y ys]; [contradiction|].
  intros A Hzero. unfold A. rewrite normal_matrix_entries. fold A.
  apply inv_zero_line.
  destruct Hzero as [H0|H1].
  - left. split; apply dot_all_zero_l; exact H0.
  - right. left. split; apply dot_all_zero_l; exact H1.
Qed.

Lemma pixel_flow_interior Ix Iy It h w ws r c :
  has_shape Ix h w -> has_shape Iy h w -> has_shape It h w ->
  Nat.odd ws = true -> interior h w (ws / 2) r c = true ->
  pixel_flow Ix Iy It ws r c =
  match least_squares (design_matrix Ix Iy ws r c)
                      (concat (window It (ws / 2) r c)) with
  | Ok x => Some (nth 0 x 0%Qc, nth 1 x 0%Qc)
  | Err _ => None
  end.
Proof.
  intros HIx HIy HIt Hodd Hin. apply interior_spec in Hin.
  destruct Hin as [Hr Hc]. unfold pixel_flow, solve_pixel.
  rewrite !reshape1_window with (h := h) (w := w) by auto.
  cbn [bind]. fold (design_matrix Ix Iy ws r c).
  destruct (least_squares _ _); reflexivity.
Qed.


Lemma window_nonempty a h w ws r c :
  has_shape a h w -> Nat.odd ws = true ->
  ws / 2 <= r < h - ws / 2 -> ws / 2 <= c < w - ws / 2 ->
  concat (window a (ws / 2) r c) <> [].
Proof.
  intros Hs Hodd Hr Hc E.
  apply (f_equal (@length Qc)) in E. revert E.
  rewrite length_concat_has_shape
    with (h := 2 * (ws / 2) + 1) (w := 2 * (ws / 2) + 1)
    by (apply has_shape_window with (h := h) (w := w); auto; lia).
  cbn [length]. nia.
Qed.


(** C5 at a singular window.  For the images [sample_I1], [sample_I2] and
    a window of one pixel, the matrix [A.T @ A] of pixel (1, 1) is
    [[196, 392], [392, 784]]: its determinant is zero and it has no zero
    row or column.  The call returns, and what it stores at that pixel is
    [(0, 0)] only if [np.linalg.inv] raises on this matrix; if it returns
    a matrix, the pixel gets the product with that matrix. *)
Theorem singular_window_sample :
  let A := design_matrix (convolve2d sample_I2 X_DERIVATIVE_FILTER)
                         (convolve2d sample_I2 Y_DERIVATIVE_FILTER) 1 1 1 in
  normal_matrix A = map (map qz) [[196; 392]; [392; 784]]%Z /\
  det2 (normal_matrix A) = 0%Qc /\
  exists It du dv,
    sub_images sample_I2 sample_I1 = Ok It /\
    concat (window It (1 / 2) 1 1) = [qz 2] /\
    lucas_kanade_step sample_I1 sample_I2 1 = Ok (du, dv) /\
    (get2 du 1 1, get2 dv 1 1)
    = match inv (normal_matrix A) with
      | None => (0%Qc, 0%Qc)
      | Some Minv =>
          let x := matvec (matmul (neg Minv) (transpose A)) [qz 2] in
          (nth 0 x 0%Qc, nth 1 x 0%Qc)
      end.
Proof.
  intros A.
  split; [vm_compute; reflexivity|].
  split; [apply Qc_is_canon; vm_compute; reflexivity|].
  destruct (lucas_kanade_step_spec sample_I1 sample_I2 1 eq_refl eq_refl
              eq_refl) as [It [du [dv [EIt [HIt [E [_ [_ Hval]]]]]]]].
  exists It, du, dv. split; [exact EIt|].
  assert (Eb : concat (window It (1 / 2) 1 1) = [qz 2]).
  { vm_compute in EIt. apply Ok_inj in EIt. subst It.
    vm_compute. reflexivity. }
  split; [exact Eb|]. split; [exact E|].
  specialize (Hval 1 1).
  change (interior (nrows sample_I1) (ncols sample_I1) (1 / 2) 1 1)
    with true in Hval.
  rewrite pixel_flow_interior with (h := 3) (w := 3) in Hval;
    [| apply (has_shape_convolve2d sample_I2)
     | apply (has_shape_convolve2d sample_I2)
     | exact HIt | reflexivity | reflexivity].
  fold A in Hval. rewrite Eb in Hval.
  destruct (least_squares_policy A [qz 2]) as [Hnone Hsome].
  destruct (inv (normal_matrix A)) as [Minv|] eqn:Einv.
  - rewrite (Hsome Minv eq_refl) in Hval. exact Hval.
  - rewrite (Hnone eq_refl) in Hval. exact Hval.
Qed.


(** ** The pyramid *)

Lemma every_second_length_aux A (l : list A) :
  length (every_second l) = (length l + 1) / 2 /\
  forall x, length (every_second (x :: l)) = (length (x :: l) + 1) / 2.
Proof.
  induction l as [|y l [IH1 IH2]].
  - split; [reflexivity | intros x; reflexivity].
  - split; [apply IH2|]. intros x. cbn [every_second length].
    rewrite IH1.
    replace (S (S (length l)) + 1) with (length l + 1 + 1 * 2) by lia.
    rewrite Nat.div_add by lia. lia.
Qed.

Lemma every_second_length A (l : list A) :
  length (every_second l) = (length l + 1) / 2.
Proof. apply every_second_length_aux. Qed.

Lemma Forall_every_second_aux A (P : A -> Prop) (l : list A) :
  Forall P l ->
  Forall P (every_second l) /\ forall x, P x -> Forall P (every_second (x :: l)).
Proof.
  induction 1 as [|y l Hy Hl [IH1 IH2]].
  - split; [constructor | intros x Hx; repeat constructor; exact Hx].
  - split; [apply IH2; exact Hy|].
    intros x Hx. cbn [every_second]. constructor; assumption.
Qed.

Lemma Forall_every_second A (P : A -> Prop) (l : list A) :
  Forall P l -> Forall P (every_second l).
Proof. intros H. apply Forall_every_second_aux. exact H. Qed.

Lemma ceil_div_2 n : ceil_div n 2 = (n + 1) / 2.
Proof. unfold ceil_div. f_equal. lia. Qed.

Lemma has_shape_decimate a h w :
  has_shape a h w -> has_shape (decimate a) (ceil_div h 2) (ceil_div w 2).
Proof.
  intros [Hl Hr]. rewrite !ceil_div_2. unfold decimate. split.
  - rewrite length_map, every_second_length, Hl. reflexivity.
  - apply Forall_map, Forall_every_second.
    eapply Forall_impl; [|exact Hr]. intros row Hrow. cbn beta in Hrow |- *.
    rewrite every_second_length, Hrow. reflexivity.
Qed.

Lemma ceil_div_2_pos n : 0 < n -> 0 < ceil_div n 2.
Proof.
  intros H. rewrite ceil_div_2.
  apply Nat.div_str_pos. lia.
Qed.

(** One level down: shape of [convolve2d(level, PYRAMID_FILTER)[::2, ::2]]. *)
Lemma shape_next_level a k :
  has_shape (decimate (convolve2d a k))
            (ceil_div (nrows a) 2) (ceil_div (ncols a) 2) /\
  shape (decimate (convolve2d a k))
  = (ceil_div (nrows a) 2, ceil_div (ncols a) 2).
Proof.
  assert (H : has_shape (decimate (convolve2d a k))
                        (ceil_div (nrows a) 2) (ceil_div (ncols a) 2))
    by apply has_shape_decimate, has_shape_convolve2d.
  split; [exact H|].
  destruct a as [|row a].
  - reflexivity.
  - apply has_shape_shape; [exact H|].
    apply ceil_div_2_pos. cbn. lia.
Qed.

Lemma build_pyramid_loop_spec n : forall s pyramid,
  length pyramid = S s ->
  let q := build_pyramid_loop (seq s n) pyramid in
  length q = S (s + n) /\
  (forall k, k <= s -> nth k q [] = nth k pyramid []) /\
  (forall k, s <= k < s + n ->
     nth (S k) q [] = decimate (convolve2d (nth k q []) PYRAMID_FILTER)).
Proof.
  induction n as [|n IH]; intros s pyramid Hlen; cbn zeta.
  - cbn [seq build_pyramid_loop]. split; [lia|]. split; [reflexivity|].
    intros k Hk. lia.
  - cbn [seq build_pyramid_loop].
    set (d := decimate (convolve2d (nth s pyramid []) PYRAMID_FILTER)).
    destruct (IH (S s) (pyramid ++ [d])) as [L [Hpre Hnext]].
    { rewrite length_app, Hlen. cbn. lia. }
    split; [lia|]. split.
    + intros k Hk. rewrite Hpre by lia. apply app_nth1. lia.
    + intros k Hk. destruct (Nat.eq_dec k s) as [->|Hne].
      * rewrite !Hpre by lia.
        rewrite app_nth2 by lia. rewrite Hlen, Nat.sub_diag.
        rewrite app_nth1 by lia. reflexivity.
      * apply Hnext. lia.
Qed.

(** C2. Pyramid shape law: for every image and every [num_levels],
    [build_pyramid] returns [num_levels + 1] images, the first is the
    input, and every further level is the blurred previous level with every
    second row and column kept, of dimensions
    [ceil(height / 2)] x [ceil(width / 2)] of the previous one. *)
Theorem build_pyramid_shape_law (img : image) (num_levels : nat) :
  let pyramid := build_pyramid img num_levels in
  length pyramid = num_levels + 1 /\
  nth 0 pyramid [] = img /\
  forall k, k < num_levels ->
    nth (S k) pyramid []
    = decimate (convolve2d (nth k pyramid []) PYRAMID_FILTER) /\
    shape (nth (S k) pyramid [])
    = (ceil_div (nrows (nth k pyramid [])) 2,
       ceil_div (ncols (nth k pyramid [])) 2) /\
    rect (nth (S k) pyramid []).
Proof.
  cbn zeta. unfold build_pyramid, range. rewrite Nat.sub_0_r.
  destruct (build_pyramid_loop_spec num_levels 0 [img] eq_refl)
    as [L [Hpre Hnext]].
  split; [lia|]. split; [apply (Hpre 0); lia|].
  intros k Hk. rewrite Hnext by lia.
  destruct (shape_next_level
              (nth k (build_pyramid_loop (seq 0 num_levels) [img]) [])
              PYRAMID_FILTER) as [Hs Hsh].
  split; [reflexivity|]. split; [exact Hsh|].
  unfold rect. unfold shape in Hsh. injection Hsh as _ ->. apply Hs.
Qed.

(** ** Flat and 2-D views of an array *)

Lemma firstn_app_exact A (l m : list A) n :
  length l = n -> firstn n (l ++ m) = l.
Proof.
  intros <-. rewrite firstn_app, Nat.sub_diag, firstn_all. cbn.
  apply app_nil_r.
Qed.

Lemma skipn_app_exact A (l m : list A) n :
  length l = n -> skipn n (l ++ m) = m.
Proof.
  intros <-. rewrite skipn_app, Nat.sub_diag, skipn_all. reflexivity.
Qed.

Lemma chunks_concat A (a : list (list A)) h w :
  length a = h -> Forall (fun row => length row = w) a ->
  chunks h w (concat a) = a.
Proof.
  intros Hl Hr. revert h Hl. induction Hr as [|row a Hrow Ha IH]; intros h Hl.
  - subst h. reflexivity.
  - cbn [length] in Hl. subst h. cbn [concat chunks].
    rewrite firstn_app_exact, skipn_app_exact by exact Hrow.
    rewrite IH by reflexivity. reflexivity.
Qed.

Lemma chunks_shape A (l : list A) h w :
  length l = h * w ->
  length (chunks h w l) = h /\ Forall (fun row => length row = w) (chunks h w l).
Proof.
  revert l. induction h as [|h IH]; intros l Hl; cbn [chunks].
  - split; [reflexivity | constructor].
  - destruct (IH (skipn w l)) as [L F].
    { rewrite length_skipn. lia. }
    split; [cbn; rewrite L; reflexivity|].
    constructor; [|exact F]. rewrite length_firstn. lia.
Qed.

Lemma nth_chunks A (l : list A) h w r c d :
  length l = h * w -> r < h -> c < w ->
  nth c (nth r (chunks h w l) []) d = nth (r * w + c) l d.
Proof.
  revert l r. induction h as [|h IH]; intros l r Hl Hr Hc; [lia|].
  cbn [chunks]. destruct r as [|r]; cbn [nth].
  - rewrite nth_firstn. apply Nat.ltb_lt in Hc. rewrite Hc. reflexivity.
  - rewrite IH by (rewrite ?length_skipn; lia).
    rewrite nth_skipn. f_equal. lia.
Qed.

Lemma nth_concat_has_shape a h w r c d :
  has_shape a h w -> r < h -> c < w ->
  nth (r * w + c) (concat a) d = nth c (nth r a []) d.
Proof.
  intros Hs Hr Hc.
  rewrite <- (chunks_concat _ a h w (proj1 Hs) (proj2 Hs)) at 2.
  rewrite nth_chunks; auto.
  apply length_concat_has_shape. exact Hs.
Qed.

Lemma length_map2 A B C (f : A -> B -> C) l m :
  length (map2 f l m) = Nat.min (length l) (length m).
Proof.
  revert m; induction l as [|x l IH]; intros [|y m]; cbn; auto.
Qed.

Lemma nth_map2 A B C (f : A -> B -> C) l m i dl dm d :
  i < length l -> i < length m ->
  nth i (map2 f l m) d = f (nth i l dl) (nth i m dm).
Proof.
  revert m i; induction l as [|x l IH]; intros [|y m] [|i] Hl Hm;
    cbn in Hl, Hm |- *; try lia; auto.
  apply IH; lia.
Qed.

Lemma nth_seq_map A (l : list A) d :
  map (fun i => nth i l d) (seq 0 (length l)) = l.
Proof.
  induction l as [|x l IH]; cbn; [reflexivity|].
  rewrite <- seq_shift, map_map. cbn. rewrite IH. reflexivity.
Qed.

Lemma get2_scale a k r c : get2 (scale a k) r c = (get2 a r c * k)%Qc.
Proof.
  unfold get2, scale.
  change (@nil Qc) with (map (fun x => (x * k)%Qc) []) at 1.
  rewrite map_nth.
  rewrite <- (Qcmult_0_l k) at 1.
  apply (map_nth (fun x => (x * k)%Qc)).
Qed.

Lemma has_shape_scale a k h w : has_shape a h w -> has_shape (scale a k) h w.
Proof.
  intros [Hl Hr]. unfold scale. split.
  - rewrite length_map. exact Hl.
  - apply Forall_map. eapply Forall_impl; [|exact Hr].
    intros row Hrow. cbn beta in Hrow |- *. rewrite length_map. exact Hrow.
Qed.

Lemma scale_zeros h w k : scale (zeros h w) k = zeros h w.
Proof.
  unfold scale, zeros. rewrite !map_repeat. rewrite Qcmult_0_l. reflexivity.
Qed.

Lemma scale_one a : scale a 1%Qc = a.
Proof.
  unfold scale. rewrite <- (map_id a) at 2. apply map_ext. intros row.
  rewrite <- (map_id row) at 2. apply map_ext. intros x. apply Qcmult_1_r.
Qed.

(** ** Integers among the rationals *)

Lemma qz_inj a b : qz a = qz b -> a = b.
Proof.
  unfold qz. intros H. apply Q2Qc_eq_iff in H.
  apply inject_Z_injective. exact H.
Qed.

Lemma qz_mult a b : qz (a * b) = (qz a * qz b)%Qc.
Proof.
  unfold qz. apply Qc_is_canon. cbn [this Qcmult Q2Qc].
  rewrite !Qred_correct. rewrite inject_Z_mult. reflexivity.
Qed.

Lemma qz_of_nat_nonzero n : 0 < n -> qz (Z.of_nat n) <> 0%Qc.
Proof.
  intros Hn H. change 0%Qc with (qz 0) in H. apply qz_inj in H. lia.
Qed.

Lemma true_divide_total a b :
  0 < b -> true_divide a b = Ok (qz (Z.of_nat a) / qz (Z.of_nat b))%Qc.
Proof.
  intros Hb. unfold true_divide.
  destruct (b =? 0) eqn:E; [apply Nat.eqb_eq in E; lia | reflexivity].
Qed.

Lemma true_divide_same n : 0 < n -> true_divide n n = Ok 1%Qc.
Proof.
  intros Hn. rewrite true_divide_total by exact Hn. f_equal.
  unfold Qcdiv. apply Qcmult_inv_r. apply qz_of_nat_nonzero. exact Hn.
Qed.

Lemma true_divide_double n : 0 < n -> true_divide (2 * n) n = Ok (qz 2).
Proof.
  intros Hn. rewrite true_divide_total by exact Hn. f_equal.
  rewrite Nat2Z.inj_mul, qz_mult. change (Z.of_nat 2) with 2%Z.
  apply Qcdiv_mult_l. apply qz_of_nat_nonzero. exact Hn.
Qed.

(** ** The sampling grid *)

Lemma length_arange n : length (arange n) = n.
Proof. unfold arange. rewrite length_map, length_seq. reflexivity. Qed.

Lemma nth_arange n i : i < n -> nth i (arange n) 0%Qc = qz (Z.of_nat i).
Proof.
  intros Hi. unfold arange. change 0%Qc with (qz (Z.of_nat 0)).
  rewrite (map_nth (fun i => qz (Z.of_nat i))), seq_nth by exact Hi.
  reflexivity.
Qed.

Lemma has_shape_x_mesh h w :
  has_shape (fst (meshgrid (arange w) (arange h))) h w.
Proof.
  cbn [meshgrid fst]. split.
  - rewrite length_map. apply length_arange.
  - apply Forall_map, Forall_forall. intros y _. apply length_arange.
Qed.

Lemma has_shape_y_mesh h w :
  has_shape (snd (meshgrid (arange w) (arange h))) h w.
Proof.
  cbn [meshgrid snd]. split.
  - rewrite length_map. apply length_arange.
  - apply Forall_map, Forall_forall. intros y _.
    rewrite length_map. apply length_arange.
Qed.

Lemma grid_points_meshgrid img :
  grid_points img =
  (flatten (fst (meshgrid (arange (ncols img)) (arange (nrows img)))),
   flatten (snd (meshgrid (arange (ncols img)) (arange (nrows img))))).
Proof. reflexivity. Qed.

Lemma grid_points_length img :
  length (fst (grid_points img)) = nrows img * ncols img /\
  length (snd (grid_points img)) = nrows img * ncols img.
Proof.
  rewrite grid_points_meshgrid. cbn [fst snd]. unfold flatten. split.
  - apply length_concat_has_shape, has_shape_x_mesh.
  - apply length_concat_has_shape, has_shape_y_mesh.
Qed.

Lemma grid_points_nth img r c :
  r < nrows img -> c < ncols img ->
  nth (r * ncols img + c) (fst (grid_points img)) 0%Qc = qz (Z.of_nat c) /\
  nth (r * ncols img + c) (snd (grid_points img)) 0%Qc = qz (Z.of_nat r).
Proof.
  intros Hr Hc. rewrite grid_points_meshgrid. cbn [fst snd]. unfold flatten.
  rewrite (nth_concat_has_shape _ _ _ _ _ _ (has_shape_x_mesh _ _) Hr Hc).
  rewrite (nth_concat_has_shape _ _ _ _ _ _ (has_shape_y_mesh _ _) Hr Hc).
  cbn [meshgrid fst snd]. split.
  - rewrite nth_indep with (d' := (fun _ : Qc => arange (ncols img)) 0%Qc)
      by (rewrite length_map, length_arange; exact Hr).
    rewrite (map_nth (fun _ : Qc => arange (ncols img))
                     (arange (nrows img)) 0%Qc r).
    apply nth_arange. exact Hc.
  - rewrite nth_indep
      with (d' := (fun yi : Qc => map (fun _ : Qc => yi) (arange (ncols img)))
                    0%Qc)
      by (rewrite length_map, length_arange; exact Hr).
    rewrite (map_nth (fun yi : Qc => map (fun _ : Qc => yi) (arange (ncols img)))).
    rewrite nth_arange by exact Hr.
    rewrite nth_indep with (d' := (fun _ : Qc => qz (Z.of_nat r)) 0%Qc)
      by (rewrite length_map, length_arange; exact Hc).
    apply (map_nth (fun _ : Qc => qz (Z.of_nat r)) (arange (ncols img)) 0%Qc c).
Qed.

Lemma add_flat_same_length a b :
  length a = length b ->
  exists l, add_flat a b = Ok l /\ length l = length a /\
    forall i, i < length a ->
      nth i l 0%Qc = (nth i a 0 + nth i b 0)%Qc.
Proof.
  intros Hlen. unfold add_flat. rewrite <- Hlen, broadcast_dim_same.
  cbn [bind]. eexists. split; [reflexivity|]. split.
  - rewrite length_map, length_seq. reflexivity.
  - intros i Hi.
    rewrite nth_indep with (d' := (fun i => (nth (if length a =? 1 then 0 else i) a 0 +
             nth (if length a =? 1 then 0 else i) b 0)%Qc) 0)
      by (rewrite length_map, length_seq; exact Hi).
    rewrite (map_nth (fun i => (nth (if length a =? 1 then 0 else i) a 0 +
             nth (if length a =? 1 then 0 else i) b 0)%Qc)).
    rewrite seq_nth by exact Hi. cbn [Nat.add].
    destruct (length a =? 1) eqn:E; [|reflexivity].
    apply Nat.eqb_eq in E. replace i with 0 by lia. reflexivity.
Qed.

(** ** Grids that can and cannot be triangulated *)

Lemma grid_points_spans img h w :
  has_shape img h w -> 2 <= h -> 2 <= w -> spans_plane (grid_points img).
Proof.
  intros Himg Hh Hw.
  pose proof (has_shape_nrows _ _ _ Himg) as Er.
  pose proof (has_shape_ncols _ _ _ Himg ltac:(lia)) as Ec.
  destruct (grid_points_length img) as [Lx _]. rewrite Er, Ec in Lx.
  destruct (grid_points_nth img 0 0) as [X0 Y0]; [lia | lia |].
  destruct (grid_points_nth img 0 1) as [X1 Y1]; [lia | lia |].
  destruct (grid_points_nth img 1 0) as [X2 Y2]; [lia | lia |].
  rewrite Ec in X0, Y0, X1, Y1, X2, Y2.
  cbn [Nat.mul Nat.add] in X0, Y0, X1, Y1. rewrite Nat.mul_1_l in X2, Y2.
  rewrite Nat.add_0_r in X2, Y2.
  exists 0, 1, w. rewrite Lx.
  split; [nia|]. split; [nia|]. split; [nia|].
  unfold point_at, cross. cbn [fst snd].
  rewrite X0, Y0, X1, Y1, X2, Y2.
  intros E. apply (f_equal (fun q : Qc => Qeq_bool q 0)) in E.
  vm_compute in E. discriminate.
Qed.

Lemma grid_points_entries img i :
  i < nrows img * ncols img ->
  nth i (fst (grid_points img)) 0%Qc = qz (Z.of_nat (i mod ncols img)) /\
  nth i (snd (grid_points img)) 0%Qc = qz (Z.of_nat (i / ncols img)).
Proof.
  intros Hi.
  assert (Hw : ncols img <> 0) by (intros E; rewrite E in Hi; lia).
  pose proof (Nat.div_mod_eq i (ncols img)) as Ediv.
  pose proof (Nat.mod_upper_bound i (ncols img) Hw) as Hc.
  assert (Hr : i / ncols img < nrows img).
  { apply Nat.Div0.div_lt_upper_bound. lia. }
  destruct (grid_points_nth img (i / ncols img) (i mod ncols img) Hr Hc)
    as [Gx Gy].
  replace (i / ncols img * ncols img + i mod ncols img) with i in Gx, Gy
    by lia.
  split; assumption.
Qed.

Lemma hd_nth A (l : list A) d : hd d l = nth 0 l d.
Proof. destruct l; reflexivity. Qed.

Lemma grid_points_on_axis_line img h w :
  has_shape img h w -> 0 < h -> 0 < w -> h = 1 \/ w = 1 ->
  on_axis_line (grid_points img).
Proof.
  intros Himg Hh Hw Hone.
  pose proof (has_shape_nrows _ _ _ Himg) as Er.
  pose proof (has_shape_ncols _ _ _ Himg Hh) as Ec.
  destruct (grid_points_length img) as [Lx Ly]. rewrite Er, Ec in Lx, Ly.
  assert (Hentry : forall i, i < h * w ->
            nth i (fst (grid_points img)) 0%Qc = qz (Z.of_nat (i mod w)) /\
            nth i (snd (grid_points img)) 0%Qc = qz (Z.of_nat (i / w))).
  { intros i Hi. rewrite <- Ec. apply grid_points_entries.
    rewrite Er, Ec. exact Hi. }
  assert (H0 : 0 < h * w) by nia.
  destruct Hone as [-> | ->].
  - right. intros y Hy.
    apply In_nth with (d := 0%Qc) in Hy. destruct Hy as [i [Hi <-]].
    rewrite Ly in Hi.
    rewrite hd_nth.
    rewrite (proj2 (Hentry i Hi)), (proj2 (Hentry 0 H0)).
    rewrite Nat.div_small by lia. rewrite Nat.div_small by lia. reflexivity.
  - left. intros x Hx.
    apply In_nth with (d := 0%Qc) in Hx. destruct Hx as [i [Hi <-]].
    rewrite Lx in Hi.
    rewrite hd_nth.
    rewrite (proj1 (Hentry i Hi)), (proj1 (Hentry 0 H0)).
    rewrite !Nat.mod_1_r. reflexivity.
Qed.

(** ** The warper *)

Lemma rescale_field_total img u v :
  0 < nrows img -> 0 < ncols img ->
  0 < nrows u -> 0 < ncols u -> 0 < nrows v -> 0 < ncols v ->
  exists u_resized v_resized,
    resize u (ncols img, nrows img) = Ok u_resized /\
    resize v (ncols img, nrows img) = Ok v_resized /\
    has_shape u_resized (nrows img) (ncols img) /\
    has_shape v_resized (nrows img) (ncols img) /\
    rescale_field img u v
    = Ok (scale u_resized
                (qz (Z.of_nat (ncols img)) / qz (Z.of_nat (ncols u)))%Qc,
          scale v_resized
                (qz (Z.of_nat (nrows img)) / qz (Z.of_nat (nrows v)))%Qc).
Proof using resize_shape.
  intros Hh Hw Hu1 Hu2 Hv1 Hv2.
  destruct (resize_shape u (ncols img) (nrows img) Hu1 Hu2 Hw Hh)
    as [ur [Eu Su]].
  destruct (resize_shape v (ncols img) (nrows img) Hv1 Hv2 Hw Hh)
    as [vr [Ev Sv]].
  exists ur, vr. repeat (split; [assumption|]).
  unfold rescale_field.
  rewrite !true_divide_total by assumption. cbn [bind].
  rewrite Eu, Ev. reflexivity.
Qed.

Lemma query_points_total img u v :
  has_shape u (nrows img) (ncols img) ->
  has_shape v (nrows img) (ncols img) ->
  exists xi,
    query_points img u v = Ok xi /\
    length (fst xi) = nrows img * ncols img /\
    length (snd xi) = nrows img * ncols img /\
    forall r c, r < nrows img -> c < ncols img ->
      nth (r * ncols img + c) (fst xi) 0%Qc
      = (qz (Z.of_nat c) + get2 u r c)%Qc /\
      nth (r * ncols img + c) (snd xi) 0%Qc
      = (qz (Z.of_nat r) + get2 v r c)%Qc.
Proof.
  intros Hu Hv. unfold query_points.
  destruct (grid_points_length img) as [Lx Ly].
  pose proof (grid_points_nth img) as Hgrid.
  destruct (grid_points img) as [xs ys]. cbn [fst snd] in Lx, Ly, Hgrid |- *.
  destruct (add_flat_same_length xs (flatten u)) as [xq [Ex [Lxq Hxq]]].
  { unfold flatten.
    rewrite (length_concat_has_shape _ _ _ Hu). exact Lx. }
  destruct (add_flat_same_length ys (flatten v)) as [yq [Ey [Lyq Hyq]]].
  { unfold flatten.
    rewrite (length_concat_has_shape _ _ _ Hv). exact Ly. }
  rewrite Ex, Ey. cbn [bind]. exists (xq, yq). cbn [fst snd].
  split; [reflexivity|]. split; [congruence|]. split; [congruence|].
  intros r c Hr Hc.
  assert (Hi : r * ncols img + c < nrows img * ncols img) by nia.
  destruct (Hgrid r c Hr Hc) as [Gx Gy].
  rewrite Hxq, Hyq by lia. rewrite Gx, Gy. unfold flatten.
  rewrite (nth_concat_has_shape _ _ _ _ _ _ Hu Hr Hc).
  rewrite (nth_concat_has_shape _ _ _ _ _ _ Hv Hr Hc).
  split; reflexivity.
Qed.

Lemma has_shape_fill_nan g img h w :
  length g = h -> Forall (fun row => length row = w) g ->
  has_shape img h w -> has_shape (fill_nan g img) h w.
Proof.
  intros Lg Fg [Li Fi]. unfold fill_nan. split.
  - rewrite length_map2. lia.
  - subst h. clear Li. revert img Fi.
    induction Fg as [|grow g Hgrow Hg IH]; intros img Fi; [constructor|].
    destruct Fi as [|irow img Hirow Hi]; [constructor|].
    cbn [map2]. constructor; [|apply IH; exact Hi].
    rewrite length_map2. lia.
Qed.

Lemma get2_fill_nan g img h w r c :
  length g = h -> Forall (fun row => length row = w) g ->
  has_shape img h w -> r < h -> c < w ->
  get2 (fill_nan g img) r c =
  match nth c (nth r g []) None with
  | Some y => y
  | None => get2 img r c
  end.
Proof.
  intros Lg Fg [Li Fi] Hr Hc. unfold fill_nan, get2.
  rewrite nth_map2 with (dl := []) (dm := []) by lia.
  rewrite Forall_forall in Fg, Fi.
  rewrite nth_map2 with (dl := None) (dm := 0%Qc).
  - reflexivity.
  - rewrite Fg; [exact Hc | apply nth_In; lia].
  - rewrite Fi; [exact Hc | apply nth_In; lia].
Qed.

Lemma warp_image_stages img u v field xi :
  rescale_field img u v = Ok field ->
  query_points img (fst field) (snd field) = Ok xi ->
  warp_image img u v = sample_and_fill img xi.
Proof.
  intros Ef Exi. unfold warp_image. rewrite Ef. destruct field as [u' v'].
  cbn [bind fst snd] in Exi |- *. rewrite Exi. reflexivity.
Qed.

Lemma sample_and_fill_spec img xi h w :
  has_shape img h w -> 2 <= h -> 2 <= w ->
  length (fst xi) = h * w -> length (snd xi) = h * w ->
  exists interpolated out,
    griddata (grid_points img) (flatten img) xi = Ok interpolated /\
    sample_and_fill img xi = Ok out /\
    has_shape out h w /\
    forall r c, r < h -> c < w ->
      get2 out r c =
      match nth (r * w + c) interpolated None with
      | Some y => y
      | None => get2 img r c
      end.
Proof using griddata_length.
  intros Himg Hh Hw Lx Ly. unfold sample_and_fill, reshape2.
  assert (Ph : 0 < h) by lia.
  rewrite (has_shape_shape _ _ _ Himg Ph). cbn [fst snd].
  destruct (grid_points_length img) as [Gx Gy].
  rewrite (has_shape_nrows _ _ _ Himg), (has_shape_ncols _ _ _ Himg Ph)
    in Gx, Gy.
  assert (Li : length (flatten img) = h * w)
    by (apply length_concat_has_shape; exact Himg).
  destruct (griddata_length (grid_points img) (flatten img) xi)
    as [interpolated [Eg Lg]];
    [exact (grid_points_spans img h w Himg Hh Hw)
    | congruence | congruence | congruence |].
  rewrite Lx in Lg.
  exists interpolated. rewrite Eg. cbn [bind].
  rewrite Lg, Nat.eqb_refl. cbn [bind].
  destruct (chunks_shape _ interpolated h w Lg) as [Lc Fc].
  eexists. split; [reflexivity|]. split; [reflexivity|]. split.
  - apply has_shape_fill_nan; assumption.
  - intros r c Hr Hc.
    rewrite get2_fill_nan with (h := h) (w := w) by assumption.
    rewrite nth_chunks by assumption. reflexivity.
Qed.

(** C6, amended. Hole filling. For every image with at least two rows and
    two columns and every pair of non-empty displacement fields,
    [warp_image] returns an array of the shape of the image; each of its
    entries is the value interpolated at the pixel's query point when
    [griddata] defines one, and the pixel of the input image when
    [griddata] yields [nan].  No entry is [nan]. *)
Theorem warp_image_fills_holes (img u v : image) (h w : nat) :
  has_shape img h w -> 2 <= h -> 2 <= w ->
  0 < nrows u -> 0 < ncols u -> 0 < nrows v -> 0 < ncols v ->
  exists field xi interpolated out,
    rescale_field img u v = Ok field /\
    query_points img (fst field) (snd field) = Ok xi /\
    griddata (grid_points img) (flatten img) xi = Ok interpolated /\
    warp_image img u v = Ok out /\
    has_shape out h w /\
    forall r c, r < h -> c < w ->
      get2 out r c =
      match nth (r * w + c) interpolated None with
      | Some y => y
      | None => get2 img r c
      end.
Proof using resize_shape griddata_length.
  intros Himg Hh Hw Hu1 Hu2 Hv1 Hv2.
  assert (Ph : 0 < h) by lia.
  pose proof (has_shape_nrows _ _ _ Himg) as Er.
  pose proof (has_shape_ncols _ _ _ Himg Ph) as Ec.
  destruct (rescale_field_total img u v) as [ur [vr [_ [_ [Su [Sv Ef]]]]]];
    try lia.
  set (field := (scale ur (qz (Z.of_nat (ncols img)) / qz (Z.of_nat (ncols u)))%Qc,
                 scale vr (qz (Z.of_nat (nrows img)) / qz (Z.of_nat (nrows v)))%Qc))
    in Ef |- *.
  destruct (query_points_total img (fst field) (snd field))
    as [xi [Exi [Lx [Ly _]]]].
  { apply has_shape_scale. exact Su. }
  { apply has_shape_scale. exact Sv. }
  rewrite Er, Ec in Lx, Ly.
  destruct (sample_and_fill_spec img xi h w Himg Hh Hw Lx Ly)
    as [interpolated [out [Eg [Eout [Sout Hout]]]]].
  exists field, xi, interpolated, out.
  split; [exact Ef|]. split; [exact Exi|]. split; [exact Eg|].
  split; [|split; assumption].
  rewrite (warp_image_stages img u v field xi Ef Exi). exact Eout.
Qed.

Lemma has_shape_nonempty_image a h w :
  has_shape a h w -> 0 < h -> 0 < w -> 0 < nrows a /\ 0 < ncols a.
Proof.
  intros Ha Hh Hw.
  rewrite (has_shape_nrows _ _ _ Ha), (has_shape_ncols _ _ _ Ha Hh). auto.
Qed.

Lemma warp_image_reaches_griddata img u v :
  0 < nrows img -> 0 < ncols img ->
  0 < nrows u -> 0 < ncols u -> 0 < nrows v -> 0 < ncols v ->
  exists xi, warp_image img u v = sample_and_fill img xi.
Proof using resize_shape.
  intros Hh Hw Hu1 Hu2 Hv1 Hv2.
  destruct (rescale_field_total img u v Hh Hw Hu1 Hu2 Hv1 Hv2)
    as [ur [vr [_ [_ [Su [Sv Ef]]]]]].
  set (field := (scale ur (qz (Z.of_nat (ncols img)) / qz (Z.of_nat (ncols u)))%Qc,
                 scale vr (qz (Z.of_nat (nrows img)) / qz (Z.of_nat (nrows v)))%Qc))
    in Ef.
  destruct (query_points_total img (fst field) (snd field))
    as [xi [Exi _]].
  { apply has_shape_scale. exact Su. }
  { apply has_shape_scale. exact Sv. }
  exists xi. exact (warp_image_stages img u v field xi Ef Exi).
Qed.

Lemma sample_and_fill_flat img xi h w :
  has_shape img h w -> 0 < h -> 0 < w -> h = 1 \/ w = 1 ->
  sample_and_fill img xi = Err QhullError.
Proof using griddata_degenerate.
  intros Himg Hh Hw Hone. unfold sample_and_fill.
  destruct (grid_points_length img) as [Gx Gy].
  rewrite (has_shape_nrows _ _ _ Himg), (has_shape_ncols _ _ _ Himg Hh)
    in Gx, Gy.
  assert (Li : length (flatten img) = h * w)
    by (apply length_concat_has_shape; exact Himg).
  rewrite griddata_degenerate; [reflexivity | | congruence | congruence |].
  - intros E. rewrite E in Gx. cbn [length] in Gx. nia.
  - exact (grid_points_on_axis_line img h w Himg Hh Hw Hone).
Qed.

(** X24. An image that is a single row or a single column of pixels cannot be
    warped, whatever the (non-empty) displacement fields are: its grid
    cannot be triangulated and [griddata] raises [QhullError]. *)
Theorem warp_image_flat_grid (img u v : image) (h w : nat) :
  has_shape img h w -> 0 < h -> 0 < w -> h = 1 \/ w = 1 ->
  0 < nrows u -> 0 < ncols u -> 0 < nrows v -> 0 < ncols v ->
  warp_image img u v = Err QhullError.
Proof using resize_shape griddata_degenerate.
  intros Himg Hh Hw Hone Hu1 Hu2 Hv1 Hv2.
  destruct (has_shape_nonempty_image img h w Himg Hh Hw) as [I1 I2].
  destruct (warp_image_reaches_griddata img u v I1 I2 Hu1 Hu2 Hv1 Hv2)
    as [xi E].
  rewrite E. exact (sample_and_fill_flat img xi h w Himg Hh Hw Hone).
Qed.

(** C7. Rescale law. Before sampling, [u] is resized to the shape of the
    image and multiplied by [image width / u width], and [v] is resized and
    multiplied by [image height / v height]; the query point of pixel
    [(r, c)] is the grid point moved by these products.  When the image is
    twice as wide as [u] and twice as high as [v], the resized
    displacements are doubled. *)
Theorem warp_image_rescales_field (img u v : image) :
  0 < nrows img -> 0 < ncols img ->
  0 < nrows u -> 0 < ncols u -> 0 < nrows v -> 0 < ncols v ->
  exists u_resized v_resized field xi,
    resize u (ncols img, nrows img) = Ok u_resized /\
    resize v (ncols img, nrows img) = Ok v_resized /\
    has_shape u_resized (nrows img) (ncols img) /\
    has_shape v_resized (nrows img) (ncols img) /\
    rescale_field img u v = Ok field /\
    query_points img (fst field) (snd field) = Ok xi /\
    warp_image img u v = sample_and_fill img xi /\
    (forall r c,
       get2 (fst field) r c
       = (get2 u_resized r c *
          (qz (Z.of_nat (ncols img)) / qz (Z.of_nat (ncols u))))%Qc /\
       get2 (snd field) r c
       = (get2 v_resized r c *
          (qz (Z.of_nat (nrows img)) / qz (Z.of_nat (nrows v))))%Qc) /\
    (forall r c, r < nrows img -> c < ncols img ->
       nth (r * ncols img + c) (fst xi) 0%Qc
       = (qz (Z.of_nat c) + get2 (fst field) r c)%Qc /\
       nth (r * ncols img + c) (snd xi) 0%Qc
       = (qz (Z.of_nat r) + get2 (snd field) r c)%Qc) /\
    (ncols img = 2 * ncols u -> nrows img = 2 * nrows v ->
     forall r c,
       get2 (fst field) r c = (get2 u_resized r c * qz 2)%Qc /\
       get2 (snd field) r c = (get2 v_resized r c * qz 2)%Qc).
Proof using resize_shape.
  intros Hh Hw Hu1 Hu2 Hv1 Hv2.
  destruct (rescale_field_total img u v Hh Hw Hu1 Hu2 Hv1 Hv2)
    as [ur [vr [Eu [Ev [Su [Sv Ef]]]]]].
  set (ku := (qz (Z.of_nat (ncols img)) / qz (Z.of_nat (ncols u)))%Qc)
    in Ef |- *.
  set (kv := (qz (Z.of_nat (nrows img)) / qz (Z.of_nat (nrows v)))%Qc)
    in Ef |- *.
  destruct (query_points_total img (scale ur ku) (scale vr kv))
    as [xi [Exi [_ [_ Hxi]]]]; try (apply has_shape_scale; assumption).
  exists ur, vr, (scale ur ku, scale vr kv), xi. cbn [fst snd].
  repeat (split; [assumption|]).
  split; [exact (warp_image_stages img u v _ xi Ef Exi)|].
  split; [intros r c; rewrite !get2_scale; split; reflexivity|].
  split; [exact Hxi|].
  intros Hdw Hdh r c. rewrite !get2_scale.
  assert (Eku : ku = qz 2).
  { pose proof (true_divide_double (ncols u) Hu2) as E.
    rewrite true_divide_total in E by exact Hu2. rewrite <- Hdw in E.
    exact (Ok_inj _ _ _ E). }
  assert (Ekv : kv = qz 2).
  { pose proof (true_divide_double (nrows v) Hv1) as E.
    rewrite true_divide_total in E by exact Hv1. rewrite <- Hdh in E.
    exact (Ok_inj _ _ _ E). }
  rewrite Eku, Ekv. split; reflexivity.
Qed.

(** ** Warping by the zero field *)

Lemma NoDup_map_injective A B (f : A -> B) (l : list A) :
  (forall x y, f x = f y -> x = y) -> NoDup l -> NoDup (map f l).
Proof.
  intros Hf Hl. induction Hl as [|x l Hx Hl IH]; cbn; constructor.
  - intros Hin. apply in_map_iff in Hin. destruct Hin as [y [E Hy]].
    apply Hf in E. subst y. contradiction.
  - exact IH.
Qed.

Lemma NoDup_arange n : NoDup (arange n).
Proof.
  unfold arange. apply NoDup_map_injective; [|apply seq_NoDup].
  intros x y E. apply qz_inj in E. lia.
Qed.

Lemma combine_app_same A B (l1 l2 : list A) (m1 m2 : list B) :
  length l1 = length m1 ->
  combine (l1 ++ l2) (m1 ++ m2) = combine l1 m1 ++ combine l2 m2.
Proof.
  revert m1; induction l1 as [|x l1 IH]; intros [|y m1] E;
    cbn in E |- *; try discriminate; [reflexivity|].
  rewrite IH by lia. reflexivity.
Qed.

Lemma combine_constant A B (l : list A) (y : B) :
  combine l (map (fun _ => y) l) = map (fun x => (x, y)) l.
Proof. induction l as [|x l IH]; cbn; [reflexivity|]. rewrite IH. reflexivity. Qed.

Lemma combine_meshgrid (xs ys : list Qc) :
  combine (flatten (fst (meshgrid xs ys))) (flatten (snd (meshgrid xs ys)))
  = flat_map (fun y => map (fun x => (x, y)) xs) ys.
Proof.
  cbn [meshgrid fst snd]. unfold flatten.
  induction ys as [|y ys IH]; cbn [map concat flat_map]; [reflexivity|].
  rewrite combine_app_same by (rewrite length_map; reflexivity).
  rewrite combine_constant, IH. reflexivity.
Qed.

Lemma NoDup_product (xs ys : list Qc) :
  NoDup xs -> NoDup ys ->
  NoDup (flat_map (fun y => map (fun x => (x, y)) xs) ys).
Proof.
  intros Hx Hy. induction Hy as [|y ys Hnotin Hy IH]; cbn [flat_map].
  - constructor.
  - apply NoDup_app.
    + apply NoDup_map_injective; [|exact Hx].
      intros a b E. injection E as E. exact E.
    + exact IH.
    + intros [a b] H1 H2. apply in_map_iff in H1. destruct H1 as [x [E _]].
      injection E as _ <-. apply in_flat_map in H2.
      destruct H2 as [y' [Hy' H2]]. apply in_map_iff in H2.
      destruct H2 as [x' [E' _]]. injection E' as _ ->. contradiction.
Qed.

Lemma grid_points_NoDup img :
  NoDup (combine (fst (grid_points img)) (snd (grid_points img))).
Proof.
  rewrite grid_points_meshgrid. cbn [fst snd]. rewrite combine_meshgrid.
  apply NoDup_product; apply NoDup_arange.
Qed.

Lemma add_flat_zero a b :
  length a = length b -> all_zero b -> add_flat a b = Ok a.
Proof.
  intros Hlen Hb.
  destruct (add_flat_same_length a b Hlen) as [l [E [Ll Hl]]].
  rewrite E. f_equal. apply nth_ext with (d := 0%Qc) (d' := 0%Qc).
  - exact Ll.
  - intros i Hi. rewrite Hl by lia.
    rewrite (nth_all_zero b i Hb). apply Qcplus_0_r.
Qed.

Lemma all_zero_flatten_zeros h w : all_zero (flatten (zeros h w)).
Proof.
  unfold all_zero, flatten, zeros. apply Forall_concat.
  apply Forall_forall. intros row Hin. apply repeat_spec in Hin. subst row.
  apply Forall_forall. intros x Hx. apply repeat_spec in Hx. exact Hx.
Qed.

Lemma fill_nan_defined img :
  fill_nan (map (map Some) img) img = img.
Proof.
  unfold fill_nan. induction img as [|row img IH]; cbn [map map2].
  - reflexivity.
  - rewrite IH. f_equal.
    induction row as [|x row IHrow]; cbn [map map2]; [reflexivity|].
    rewrite IHrow. reflexivity.
Qed.

(** C3, amended. Warp identity: for every image with at least two rows
    and two columns, [warp_image] with all-zero displacement fields of the
    shape of the image returns the image itself. *)
Theorem warp_image_zero_field (img : image) (h w : nat) :
  has_shape img h w -> 2 <= h -> 2 <= w ->
  warp_image img (zeros h w) (zeros h w) = Ok img.
Proof using resize_same_size griddata_at_points.
  intros Himg Hh2 Hw2.
  assert (Hh : 0 < h) by lia. assert (Hw : 0 < w) by lia.
  pose proof (has_shape_nrows _ _ _ Himg) as Er.
  pose proof (has_shape_ncols _ _ _ Himg Hh) as Ec.
  pose proof (has_shape_zeros h w) as Hz.
  assert (Ef : rescale_field img (zeros h w) (zeros h w)
               = Ok (zeros h w, zeros h w)).
  { unfold rescale_field.
    rewrite (has_shape_nrows _ _ _ Hz), (has_shape_ncols _ _ _ Hz Hh).
    rewrite Er, Ec, !true_divide_same by assumption. cbn [bind].
    rewrite (resize_same_size _ _ _ Hz Hh Hw). cbn [bind].
    rewrite scale_one. reflexivity. }
  destruct (grid_points_length img) as [Lx Ly]. rewrite Er, Ec in Lx, Ly.
  assert (Lz : length (flatten (zeros h w)) = h * w).
  { apply length_concat_has_shape. exact Hz. }
  assert (Exi : query_points img (zeros h w) (zeros h w)
                = Ok (grid_points img)).
  { unfold query_points. destruct (grid_points img) as [xs ys].
    cbn [fst snd] in Lx, Ly |- *.
    rewrite !add_flat_zero by (try apply all_zero_flatten_zeros; congruence).
    reflexivity. }
  rewrite (warp_image_stages img _ _ _ _ Ef Exi).
  unfold sample_and_fill.
  assert (Li : length (flatten img) = h * w).
  { apply length_concat_has_shape. exact Himg. }
  rewrite griddata_at_points
    by (first [ exact (grid_points_spans img h w Himg Hh2 Hw2)
              | apply grid_points_NoDup | congruence ]).
  cbn [bind].
  unfold reshape2. rewrite (has_shape_shape _ _ _ Himg Hh). cbn [fst snd].
  rewrite length_map, Li, Nat.eqb_refl. cbn [bind]. f_equal.
  unfold flatten. rewrite concat_map.
  rewrite chunks_concat.
  - apply fill_nan_defined.
  - rewrite length_map. apply Himg.
  - apply Forall_map. eapply Forall_impl; [|apply Himg].
    intros row Hrow. cbn beta in Hrow |- *. rewrite length_map. exact Hrow.
Qed.

(** ** The pyramidal refiner *)

Lemma ceil_div_mul_ge a b : 0 < b -> a <= ceil_div a b * b.
Proof.
  intros Hb. unfold ceil_div.
  pose proof (Nat.div_mod_eq (a + b - 1) b) as E.
  pose proof (Nat.mod_upper_bound (a + b - 1) b) as U.
  nia.
Qed.

Lemma pow2_pos n : 0 < 2 ^ n.
Proof. induction n; cbn; lia. Qed.

Lemma level_dim_pos d k : 0 < d -> 0 < level_dim d k.
Proof.
  intros Hd. induction k as [|k IH]; cbn; [exact Hd|].
  apply ceil_div_2_pos. exact IH.
Qed.

Lemma last_nth A (l : list A) d : last l d = nth (length l - 1) l d.
Proof.
  induction l as [|x l IH]; [reflexivity|].
  destruct l as [|y l]; [reflexivity|].
  cbn [last length] in IH |- *. rewrite IH. cbn. rewrite Nat.sub_0_r.
  reflexivity.
Qed.

Lemma build_pyramid_levels img n h w :
  has_shape img h w -> 0 < h ->
  length (build_pyramid img n) = S n /\
  forall k, k <= n ->
    has_shape (nth k (build_pyramid img n) []) (level_dim h k) (level_dim w k).
Proof.
  intros Himg Hh. unfold build_pyramid, range. rewrite Nat.sub_0_r.
  destruct (build_pyramid_loop_spec n 0 [img] eq_refl) as [L [Hpre Hnext]].
  split; [exact L|].
  induction k as [|k IH]; intros Hk.
  - rewrite (Hpre 0) by lia. exact Himg.
  - rewrite Hnext by lia.
    assert (Hprev := IH ltac:(lia)).
    pose proof (shape_next_level
                  (nth k (build_pyramid_loop (seq 0 n) [img]) [])
                  PYRAMID_FILTER) as [Hs _].
    rewrite (has_shape_nrows _ _ _ Hprev) in Hs.
    rewrite (has_shape_ncols _ _ _ Hprev (level_dim_pos h k Hh)) in Hs.
    exact Hs.
Qed.

Lemma ceil_div_multiple k b : 0 < b -> ceil_div (k * b) b = k.
Proof.
  intros Hb. unfold ceil_div.
  replace (k * b + b - 1) with (b - 1 + k * b) by lia.
  rewrite Nat.div_add by lia.
  rewrite Nat.div_small by lia. reflexivity.
Qed.

Lemma ceil_div_double m : ceil_div (2 * m) 2 = m.
Proof. rewrite Nat.mul_comm. apply ceil_div_multiple. lia. Qed.

Lemma level_dim_multiple a n k :
  k <= n -> level_dim (a * 2 ^ n) k = a * 2 ^ (n - k).
Proof.
  induction k as [|k IH]; intros Hk.
  - rewrite Nat.sub_0_r. reflexivity.
  - unfold level_dim. rewrite Nat.iter_succ. fold (level_dim (a * 2 ^ n) k).
    rewrite IH by lia.
    replace (n - k) with (S (n - S k)) by lia.
    rewrite Nat.pow_succ_r'.
    replace (a * (2 * 2 ^ (n - S k))) with (2 * (a * 2 ^ (n - S k))) by lia.
    apply ceil_div_double.
Qed.

Lemma coarsest_level_bound h n : 2 ^ n < h -> 2 <= ceil_div h (2 ^ n).
Proof.
  intros Hlt. pose proof (pow2_pos n) as Hp. unfold ceil_div.
  apply Nat.div_le_lower_bound; lia.
Qed.

(** With [2 ^ n < d], every level of the pyramid down to level [n] keeps
    at least two samples along an axis of working extent
    [ceil(d / 2^n) * 2^n]. *)
Lemma level_dim_working d n k :
  2 ^ n < d -> k <= n -> 2 <= level_dim (ceil_div d (2 ^ n) * 2 ^ n) k.
Proof.
  intros Hlt Hk. rewrite level_dim_multiple by exact Hk.
  pose proof (coarsest_level_bound d n Hlt) as Ha.
  pose proof (pow2_pos (n - k)) as Hp. nia.
Qed.

Lemma fit_size_shape I h w H W :
  has_shape I h w -> 0 < h -> 0 < w -> 0 < H -> 0 < W ->
  (h = W -> w = H -> H = W) ->
  exists I', fit_size I (W, H) = Ok I' /\ has_shape I' H W.
Proof using resize_shape.
  intros HI Hh Hw PH PW Hsq. unfold fit_size. cbn [fst snd].
  rewrite (has_shape_nrows _ _ _ HI), (has_shape_ncols _ _ _ HI Hh).
  destruct ((h =? W) && (w =? H)) eqn:E.
  - apply andb_prop in E. destruct E as [E1 E2].
    apply Nat.eqb_eq in E1, E2. pose proof (Hsq E1 E2) as Esq.
    exists I. split; [reflexivity|].
    replace H with h by lia. replace W with w by lia. exact HI.
  - apply resize_shape.
    + rewrite (has_shape_nrows _ _ _ HI). exact Hh.
    + rewrite (has_shape_ncols _ _ _ HI Hh). exact Hw.
    + exact PW.
    + exact PH.
Qed.


Lemma add_images_shape a b h w :
  has_shape a h w -> has_shape b h w -> 0 < h ->
  exists c, add_images a b = Ok c /\ has_shape c h w.
Proof.
  intros Ha Hb Hh.
  destruct (broadcast2_same_shape Qcplus a b) as [c [E Hc]].
  - rewrite (has_shape_nrows _ _ _ Ha), (has_shape_nrows _ _ _ Hb). reflexivity.
  - rewrite (has_shape_ncols _ _ _ Ha Hh), (has_shape_ncols _ _ _ Hb Hh).
    reflexivity.
  - exists c. split; [exact E|].
    rewrite (has_shape_nrows _ _ _ Ha), (has_shape_ncols _ _ _ Ha Hh) in Hc.
    exact Hc.
Qed.

Lemma has_shape_nonempty a h w :
  has_shape a h w -> 0 < h -> 0 < w -> 0 < nrows a /\ 0 < ncols a.
Proof.
  intros Ha Hh Hw.
  rewrite (has_shape_nrows _ _ _ Ha), (has_shape_ncols _ _ _ Ha Hh). auto.
Qed.

Lemma warp_image_shape img u v h w h' w' :
  has_shape img h w -> 2 <= h -> 2 <= w ->
  has_shape u h' w' -> has_shape v h' w' -> 0 < h' -> 0 < w' ->
  exists out, warp_image img u v = Ok out /\ has_shape out h w.
Proof using resize_shape griddata_length.
  intros Himg Hh Hw Hu Hv Hh' Hw'.
  destruct (has_shape_nonempty u h' w' Hu Hh' Hw') as [U1 U2].
  destruct (has_shape_nonempty v h' w' Hv Hh' Hw') as [V1 V2].
  destruct (has_shape_nonempty img h w Himg ltac:(lia) ltac:(lia)) as [I1 I2].
  pose proof (has_shape_nrows _ _ _ Himg) as Er.
  pose proof (has_shape_ncols _ _ _ Himg ltac:(lia)) as Ec.
  destruct (rescale_field_total img u v I1 I2 U1 U2 V1 V2)
    as [ur [vr [_ [_ [Su [Sv Ef]]]]]].
  set (field := (scale ur (qz (Z.of_nat (ncols img)) / qz (Z.of_nat (ncols u)))%Qc,
                 scale vr (qz (Z.of_nat (nrows img)) / qz (Z.of_nat (nrows v)))%Qc))
    in Ef.
  destruct (query_points_total img (fst field) (snd field))
    as [xi [Exi [Lx [Ly _]]]].
  { apply has_shape_scale. exact Su. }
  { apply has_shape_scale. exact Sv. }
  rewrite Er, Ec in Lx, Ly.
  destruct (sample_and_fill_spec img xi h w Himg Hh Hw Lx Ly)
    as [interpolated [out [_ [Eout [Sout _]]]]].
  exists out. split; [|exact Sout].
  rewrite (warp_image_stages img u v field xi Ef Exi). exact Eout.
Qed.

Lemma level_iterations_shape step ws I1_level I2_level h w max_iter u v :
  shape_preserving step ws ->
  has_shape I1_level h w -> has_shape I2_level h w -> 2 <= h -> 2 <= w ->
  has_shape u h w -> has_shape v h w ->
  exists u' v',
    level_iterations step I1_level I2_level ws max_iter u v = Ok (u', v') /\
    has_shape u' h w /\ has_shape v' h w.
Proof using resize_shape griddata_length.
  intros Hstep H1 H2 Hh2 Hw2 Hu Hv. unfold level_iterations.
  assert (Hh : 0 < h) by lia. assert (Hw : 0 < w) by lia.
  destruct (warp_image_shape I2_level u v h w h w) as [cur [Ecur Hcur]];
    try assumption.
  rewrite Ecur. cbn [bind].
  set (P := fun s : image * image * image =>
              has_shape (fst (fst s)) h w /\ has_shape (snd (fst s)) h w /\
              has_shape (snd s) h w).
  match goal with
  | |- context [for_each ?xs ?body ?s] =>
      destruct (for_each_invariant _ _ P xs body s)
        as [[[u' v'] cur'] [E [P1 [P2 P3]]]]
  end.
  - unfold P. cbn [fst snd]. auto.
  - intros iter_num [[u0 v0] cur0] _ [Q1 [Q2 Q3]].
    cbn [fst snd] in Q1, Q2, Q3 |- *.
    destruct (Hstep I1_level cur0 h w H1 Q3 Hh Hw) as [du [dv [Es [Sdu Sdv]]]].
    rewrite Es. cbn [bind].
    destruct (add_images_shape u0 du h w Q1 Sdu Hh) as [u1 [Eu Su1]].
    destruct (add_images_shape v0 dv h w Q2 Sdv Hh) as [v1 [Ev Sv1]].
    rewrite Eu, Ev. cbn [bind].
    destruct (warp_image_shape I2_level u1 v1 h w h w) as [cur1 [Ec1 Hc1]];
      try assumption.
    rewrite Ec1. cbn [bind].
    exists (u1, v1, cur1). split; [reflexivity|]. unfold P. cbn [fst snd]. auto.
  - rewrite E. cbn [bind]. cbn [fst snd] in P1, P2 |- *. exists u', v'. auto.
Qed.

Lemma rev_range_S m : rev (range 0 (S m)) = m :: rev (range 0 m).
Proof.
  unfold range. rewrite !Nat.sub_0_r, seq_S, rev_app_distr. reflexivity.
Qed.

(** One pass of the loop over the levels: the iterations of the level,
    then, except at level 0, the field resized to the next finer level
    and doubled. *)
Lemma refine_level_spec step ws max_iter (pyramid_I1 pyarmid_I2 : list image)
    h w k u v :
  shape_preserving step ws -> 0 < h -> 0 < w ->
  has_shape (nth k pyramid_I1 []) (level_dim h k) (level_dim w k) ->
  has_shape (nth k pyarmid_I2 []) (level_dim h k) (level_dim w k) ->
  has_shape (nth (k - 1) pyramid_I1 [])
            (level_dim h (k - 1)) (level_dim w (k - 1)) ->
  2 <= level_dim h k -> 2 <= level_dim w k ->
  has_shape u (level_dim h k) (level_dim w k) ->
  has_shape v (level_dim h k) (level_dim w k) ->
  exists uk vk,
    level_iterations step (nth k pyramid_I1 []) (nth k pyarmid_I2 [])
      ws max_iter u v = Ok (uk, vk) /\
    has_shape uk (level_dim h k) (level_dim w k) /\
    has_shape vk (level_dim h k) (level_dim w k) /\
    match k with
    | 0 =>
        refine_level step pyramid_I1 pyarmid_I2 ws max_iter 0 (u, v)
        = Ok (uk, vk)
    | S k' =>
        exists ur vr,
          resize uk (level_dim w k', level_dim h k') = Ok ur /\
          resize vk (level_dim w k', level_dim h k') = Ok vr /\
          has_shape ur (level_dim h k') (level_dim w k') /\
          has_shape vr (level_dim h k') (level_dim w k') /\
          refine_level step pyramid_I1 pyarmid_I2 ws max_iter (S k') (u, v)
          = Ok (scale ur (qz 2), scale vr (qz 2))
    end.
Proof using resize_shape griddata_length.
  intros Hstep Hh Hw Hp1 Hp2 Hprev Lh Lw Hu Hv.
  destruct (level_iterations_shape step ws (nth k pyramid_I1 [])
              (nth k pyarmid_I2 []) (level_dim h k) (level_dim w k)
              max_iter u v Hstep Hp1 Hp2 Lh Lw Hu Hv)
    as [uk [vk [E [Su Sv]]]].
  exists uk, vk. split; [exact E|]. split; [exact Su|]. split; [exact Sv|].
  destruct k as [|k']; unfold refine_level; cbn [fst snd]; rewrite E;
    cbn [bind Nat.eqb].
  - reflexivity.
  - cbn [Nat.sub] in Hprev |- *. rewrite Nat.sub_0_r in Hprev |- *.
    pose proof (level_dim_pos h k' Hh) as Qh.
    pose proof (level_dim_pos w k' Hw) as Qw.
    rewrite (has_shape_nrows _ _ _ Hprev), (has_shape_ncols _ _ _ Hprev Qh).
    destruct (has_shape_nonempty uk _ _ Su ltac:(lia) ltac:(lia)) as [U1 U2].
    destruct (has_shape_nonempty vk _ _ Sv ltac:(lia) ltac:(lia)) as [V1 V2].
    destruct (resize_shape uk (level_dim w k') (level_dim h k') U1 U2 Qw Qh)
      as [ur [Eu Sur]].
    destruct (resize_shape vk (level_dim w k') (level_dim h k') V1 V2 Qw Qh)
      as [vr [Ev Svr]].
    exists ur, vr. rewrite Eu, Ev. cbn [bind]. auto.
Qed.

Lemma refine_levels_shape step ws max_iter (pyramid_I1 pyarmid_I2 : list image)
    n h w :
  shape_preserving step ws -> 0 < h -> 0 < w ->
  (forall k, k <= n ->
     has_shape (nth k pyramid_I1 []) (level_dim h k) (level_dim w k)) ->
  (forall k, k <= n ->
     has_shape (nth k pyarmid_I2 []) (level_dim h k) (level_dim w k)) ->
  (forall k, k <= n -> 2 <= level_dim h k /\ 2 <= level_dim w k) ->
  forall m, m <= n -> forall u v,
    has_shape u (level_dim h m) (level_dim w m) ->
    has_shape v (level_dim h m) (level_dim w m) ->
    exists u' v',
      for_each (rev (range 0 (S m)))
               (refine_level step pyramid_I1 pyarmid_I2 ws max_iter) (u, v)
      = Ok (u', v') /\
      has_shape u' h w /\ has_shape v' h w.
Proof using resize_shape griddata_length.
  intros Hstep Hh Hw Hp1 Hp2 Hbig.
  induction m as [|m IH]; intros Hm u v Hu Hv;
    rewrite rev_range_S; cbn [for_each].
  - destruct (refine_level_spec step ws max_iter pyramid_I1 pyarmid_I2
                h w 0 u v Hstep Hh Hw (Hp1 0 Hm) (Hp2 0 Hm) (Hp1 0 Hm)
                (proj1 (Hbig 0 Hm)) (proj2 (Hbig 0 Hm)) Hu Hv)
      as [uk [vk [_ [Su [Sv E]]]]].
    rewrite E. cbn. exists uk, vk. auto.
  - assert (Hm' : m <= n) by lia.
    assert (Hprev : has_shape (nth (S m - 1) pyramid_I1 [])
                      (level_dim h (S m - 1)) (level_dim w (S m - 1))).
    { cbn [Nat.sub]. rewrite Nat.sub_0_r. exact (Hp1 m Hm'). }
    destruct (refine_level_spec step ws max_iter pyramid_I1 pyarmid_I2
                h w (S m) u v Hstep Hh Hw (Hp1 (S m) Hm) (Hp2 (S m) Hm)
                Hprev (proj1 (Hbig (S m) Hm)) (proj2 (Hbig (S m) Hm)) Hu Hv)
      as [uk [vk [_ [_ [_ [ur [vr [_ [_ [Sur [Svr E]]]]]]]]]]].
    rewrite E. cbn [bind].
    apply IH; [exact Hm' | apply has_shape_scale; exact Sur
              | apply has_shape_scale; exact Svr].
Qed.

(** The working size and the two working images. *)
Lemma working_images I1 I2 n h w h2 w2 :
  has_shape I1 h w -> 0 < h -> 0 < w ->
  has_shape I2 h2 w2 -> 0 < h2 -> 0 < w2 ->
  let H := ceil_div h (2 ^ n) * 2 ^ n in
  let W := ceil_div w (2 ^ n) * 2 ^ n in
  (h2 = W -> w2 = H -> H = W) ->
  0 < H /\ 0 < W /\
  image_size I1 n = (W, H) /\
  exists I1' I2',
    fit_size I1 (W, H) = Ok I1' /\ fit_size I2 (W, H) = Ok I2' /\
    has_shape I1' H W /\ has_shape I2' H W.
Proof using resize_shape.
  intros H1 Hh Hw H2 Hh2 Hw2 H W Hsq.
  assert (HH : h <= H) by (apply ceil_div_mul_ge, pow2_pos).
  assert (HW : w <= W) by (apply ceil_div_mul_ge, pow2_pos).
  assert (PH : 0 < H) by lia. assert (PW : 0 < W) by lia.
  split; [exact PH|]. split; [exact PW|]. split.
  { unfold image_size.
    rewrite (has_shape_nrows _ _ _ H1), (has_shape_ncols _ _ _ H1 Hh).
    reflexivity. }
  destruct (fit_size_shape I1 h w H W H1 Hh Hw PH PW ltac:(lia))
    as [I1' [E1 S1]].
  destruct (fit_size_shape I2 h2 w2 H W H2 Hh2 Hw2 PH PW Hsq)
    as [I2' [E2 S2]].
  exists I1', I2'. auto.
Qed.

(** The refiner, unfolded on its two working images. *)
Lemma pyramidal_flow_loop step I1 I2 I1' I2' ws max_iter n H W :
  image_size I1 n = (W, H) ->
  fit_size I1 (W, H) = Ok I1' -> fit_size I2 (W, H) = Ok I2' ->
  has_shape I2' H W -> 0 < H -> 0 < W ->
  pyramidal_flow step I1 I2 ws max_iter n
  = for_each (rev (range 0 (S n)))
      (refine_level step (build_pyramid I1' n) (build_pyramid I2' n)
         ws max_iter)
      (zeros (level_dim H n) (level_dim W n),
       zeros (level_dim H n) (level_dim W n)).
Proof.
  intros Esize E1 E2 S2 PH PW.
  destruct (build_pyramid_levels I2' n H W S2 PH) as [L2 Lv2].
  unfold pyramidal_flow. rewrite Esize, E1. cbn [bind]. rewrite E2.
  cbn [bind]. rewrite L2, last_nth, L2. cbn [Nat.sub]. rewrite Nat.sub_0_r.
  assert (Hlast := Lv2 n (le_n n)).
  rewrite (has_shape_nrows _ _ _ Hlast).
  rewrite (has_shape_ncols _ _ _ Hlast (level_dim_pos H n PH)).
  reflexivity.
Qed.

Lemma pyramidal_flow_shape step I1 I2 ws max_iter n h w h2 w2 :
  shape_preserving step ws ->
  has_shape I1 h w -> 2 ^ n < h -> 2 ^ n < w ->
  has_shape I2 h2 w2 -> 0 < h2 -> 0 < w2 ->
  let H := ceil_div h (2 ^ n) * 2 ^ n in
  let W := ceil_div w (2 ^ n) * 2 ^ n in
  (h2 = W -> w2 = H -> H = W) ->
  exists I1' I2' u v,
    image_size I1 n = (W, H) /\
    fit_size I1 (W, H) = Ok I1' /\
    fit_size I2 (W, H) = Ok I2' /\
    has_shape I1' H W /\ has_shape I2' H W /\
    pyramidal_flow step I1 I2 ws max_iter n = Ok (u, v) /\
    has_shape u H W /\ has_shape v H W.
Proof using resize_shape griddata_length.
  intros Hstep H1 Lh Lw H2 Hh2 Hw2 H W Hsq.
  pose proof (pow2_pos n) as Hp.
  destruct (working_images I1 I2 n h w h2 w2 H1 ltac:(lia) ltac:(lia)
              H2 Hh2 Hw2 Hsq)
    as [PH [PW [Esize [I1' [I2' [E1 [E2 [S1 S2]]]]]]]].
  fold H W in PH, PW, Esize, E1, E2, S1, S2.
  destruct (build_pyramid_levels I1' n H W S1 PH) as [L1 Lv1].
  destruct (build_pyramid_levels I2' n H W S2 PH) as [L2 Lv2].
  destruct (refine_levels_shape step ws max_iter
              (build_pyramid I1' n) (build_pyramid I2' n) n H W
              Hstep PH PW Lv1 Lv2
              (fun k Hk => conj (level_dim_working h n k Lh Hk)
                                (level_dim_working w n k Lw Hk))
              n (le_n n)
              (zeros (level_dim H n) (level_dim W n))
              (zeros (level_dim H n) (level_dim W n))
              (has_shape_zeros _ _) (has_shape_zeros _ _))
    as [u [v [E [Su Sv]]]].
  exists I1', I2', u, v.
  repeat (split; [assumption|]). split; [|split; assumption].
  rewrite (pyramidal_flow_loop step I1 I2 I1' I2' ws max_iter n H W
             Esize E1 E2 S2 PH PW).
  exact E.
Qed.


Lemma ceil_div_small a b : 0 < a -> a <= b -> ceil_div a b = 1.
Proof.
  intros Ha Hb. unfold ceil_div.
  replace (a + b - 1) with (a - 1 + 1 * b) by lia.
  rewrite Nat.div_add by lia. rewrite Nat.div_small by lia. reflexivity.
Qed.

Lemma pyramidal_flow_flat step I1 I2 ws max_iter n h w :
  has_shape I1 h w -> has_shape I2 h w -> 0 < h -> 0 < w ->
  h <= 2 ^ n \/ w <= 2 ^ n ->
  pyramidal_flow step I1 I2 ws max_iter n = Err QhullError.
Proof using resize_shape griddata_degenerate.
  intros H1 H2 Hh Hw Hflat.
  set (H := ceil_div h (2 ^ n) * 2 ^ n).
  set (W := ceil_div w (2 ^ n) * 2 ^ n).
  pose proof (pow2_pos n) as Hp.
  assert (HH : h <= H) by (apply ceil_div_mul_ge; exact Hp).
  assert (HW : w <= W) by (apply ceil_div_mul_ge; exact Hp).
  destruct (working_images I1 I2 n h w h w H1 Hh Hw H2 Hh Hw
              ltac:(fold H W; lia))
    as [PH [PW [Esize [I1' [I2' [E1 [E2 [S1 S2]]]]]]]].
  fold H W in PH, PW, Esize, E1, E2, S1, S2.
  destruct (build_pyramid_levels I2' n H W S2 PH) as [_ Lv2].
  rewrite (pyramidal_flow_loop step I1 I2 I1' I2' ws max_iter n H W
             Esize E1 E2 S2 PH PW).
  rewrite rev_range_S. cbn [for_each]. unfold refine_level at 1.
  cbn [fst snd]. unfold level_iterations.
  pose proof (level_dim_pos H n PH) as Qh.
  pose proof (level_dim_pos W n PW) as Qw.
  pose proof (has_shape_zeros (level_dim H n) (level_dim W n)) as Hz.
  destruct (has_shape_nonempty _ _ _ Hz Qh Qw) as [Z1 Z2].
  destruct (has_shape_nonempty _ _ _ (Lv2 n (le_n n)) Qh Qw) as [L1 L2].
  destruct (warp_image_reaches_griddata (nth n (build_pyramid I2' n) [])
              (zeros (level_dim H n) (level_dim W n))
              (zeros (level_dim H n) (level_dim W n)) L1 L2 Z1 Z2 Z1 Z2)
    as [xi E].
  rewrite E.
  rewrite (sample_and_fill_flat (nth n (build_pyramid I2' n) []) xi
             (level_dim H n) (level_dim W n) (Lv2 n (le_n n)) Qh Qw);
    [reflexivity|].
  unfold H, W. rewrite !level_dim_multiple by lia. rewrite Nat.sub_diag.
  cbn [Nat.pow]. rewrite !Nat.mul_1_r.
  destruct Hflat as [Hf|Hf]; [left | right]; apply ceil_div_small; assumption.
Qed.

(** X25. When the images are not higher, or not wider, than [2 ^ num_levels]
    pixels, the coarsest level of the pyramid is a single row or a single
    column of pixels, and both refiners fail at their first warp, whatever
    [max_iter] and [window_size] are. *)
Theorem optical_flow_coarsest_level_flat
    (I1 I2 : image) (window_size max_iter num_levels h w : nat) :
  has_shape I1 h w -> has_shape I2 h w -> 0 < h -> 0 < w ->
  h <= 2 ^ num_levels \/ w <= 2 ^ num_levels ->
  lucas_kanade_optical_flow I1 I2 window_size max_iter num_levels
  = Err QhullError /\
  faster_lucas_kanade_optical_flow I1 I2 window_size max_iter num_levels
  = Err QhullError.
Proof using resize_shape griddata_degenerate.
  intros H1 H2 Hh Hw Hflat.
  split; apply pyramidal_flow_flat with (h := h) (w := w); assumption.
Qed.

(** ** Further properties of the dense and the sparse step *)

(** Two arrays of one shape with the same entries are equal. *)
Lemma image_ext a b h w :
  has_shape a h w -> has_shape b h w ->
  (forall r c, r < h -> c < w -> get2 a r c = get2 b r c) -> a = b.
Proof.
  intros [La Fa] [Lb Fb] Hget.
  apply nth_ext with (d := []) (d' := []); [congruence|].
  intros r Hr. rewrite La in Hr.
  rewrite Forall_forall in Fa, Fb.
  assert (Ra : length (nth r a []) = w) by (apply Fa, nth_In; lia).
  assert (Rb : length (nth r b []) = w) by (apply Fb, nth_In; lia).
  apply nth_ext with (d := 0%Qc) (d' := 0%Qc); [congruence|].
  intros c Hc. rewrite Ra in Hc. exact (Hget r c Hr Hc).
Qed.

Lemma range_cons lo hi : lo < hi -> range lo hi = lo :: range (S lo) hi.
Proof.
  intros H. unfold range.
  replace (hi - lo) with (S (hi - S lo)) by lia. reflexivity.
Qed.

Lemma range_nil lo hi : hi <= lo -> range lo hi = [].
Proof. intros H. unfold range. replace (hi - lo) with 0 by lia. reflexivity. Qed.

Lemma even_half_window ws : Nat.even ws = true -> 2 * (ws / 2) = ws.
Proof.
  intros H. apply Nat.even_spec in H. destruct H as [k ->].
  assert (E : 2 * k / 2 = k)
    by (rewrite (Nat.mul_comm 2 k); apply Nat.div_mul; lia).
  rewrite E. reflexivity.
Qed.

(** The window of an interior pixel has [(2 * boundary + 1) ** 2] entries,
    which a window size that is even never equals. *)
Lemma reshape1_window_even a h w ws r c :
  has_shape a h w -> Nat.even ws = true ->
  ws / 2 <= r < h - ws / 2 -> ws / 2 <= c < w - ws / 2 ->
  reshape1 (window a (ws / 2) r c) (ws * ws) = Err ValueError.
Proof.
  intros Hs Heven Hr Hc. unfold reshape1.
  rewrite length_concat_has_shape
    with (h := 2 * (ws / 2) + 1) (w := 2 * (ws / 2) + 1)
    by (apply has_shape_window with (h := h) (w := w); auto; lia).
  rewrite (even_half_window ws Heven).
  destruct ((ws + 1) * (ws + 1) =? ws * ws) eqn:E; [|reflexivity].
  apply Nat.eqb_eq in E. nia.
Qed.

(** X1. An even [window_size] is rejected as soon as one pixel is interior:
    the first window cannot be reshaped to [window_size ** 2] entries. *)
Theorem lucas_kanade_step_even_window_rejected
    (I1 I2 : image) (window_size : nat) :
  shape I1 = shape I2 -> Nat.even window_size = true ->
  window_size / 2 < nrows I1 - window_size / 2 ->
  window_size / 2 < ncols I1 - window_size / 2 ->
  lucas_kanade_step I1 I2 window_size = Err ValueError.
Proof.
  intros Hshape Heven Hrow Hcol. unfold shape in Hshape.
  injection Hshape as Hrows Hcols.
  destruct (broadcast2_same_shape Qcminus I2 I1 (eq_sym Hrows) (eq_sym Hcols))
    as [It [EIt HIt]].
  unfold lucas_kanade_step, sub_images. rewrite EIt. cbn [bind].
  rewrite (range_cons _ _ Hrow). cbn [for_each].
  rewrite (range_cons _ _ Hcol). cbn [for_each].
  unfold solve_pixel.
  rewrite reshape1_window_even with (h := nrows I1) (w := ncols I1);
    [reflexivity | | exact Heven | lia | lia].
  rewrite Hrows, Hcols. apply has_shape_convolve2d.
Qed.

(** X2. When the image is too small for a single window, nothing is solved:
    the result is the pair of zero arrays, whatever the parity of
    [window_size]. *)
Theorem lucas_kanade_step_no_interior (I1 I2 : image) (window_size : nat) :
  shape I1 = shape I2 ->
  nrows I1 <= 2 * (window_size / 2) \/ ncols I1 <= 2 * (window_size / 2) ->
  lucas_kanade_step I1 I2 window_size
  = Ok (zeros (nrows I1) (ncols I1), zeros (nrows I1) (ncols I1)).
Proof.
  intros Hshape Hsmall. unfold shape in Hshape.
  injection Hshape as Hrows Hcols.
  destruct (broadcast2_same_shape Qcminus I2 I1 (eq_sym Hrows) (eq_sym Hcols))
    as [It [EIt HIt]].
  unfold lucas_kanade_step, sub_images. rewrite EIt. cbn [bind].
  destruct Hsmall as [Hs|Hs].
  - rewrite range_nil by lia. reflexivity.
  - apply for_each_stable. intros r _.
    rewrite range_nil by lia. reflexivity.
Qed.

Lemma pixel_flow_zero_It Ix Iy h w ws r c :
  has_shape Ix h w -> has_shape Iy h w -> Nat.odd ws = true ->
  interior h w (ws / 2) r c = true ->
  pixel_flow Ix Iy (zeros h w) ws r c = Some (0%Qc, 0%Qc).
Proof.
  intros HIx HIy Hodd Hin. apply interior_spec in Hin. destruct Hin as [Hr Hc].
  unfold pixel_flow.
  rewrite solve_pixel_zero_It with (h := h) (w := w) by assumption.
  reflexivity.
Qed.

Lemma zero_pairs_zeros du dv h w :
  has_shape du h w -> has_shape dv h w ->
  (forall r c, (get2 du r c, get2 dv r c) = (0%Qc, 0%Qc)) ->
  du = zeros h w /\ dv = zeros h w.
Proof.
  intros Hdu Hdv Hval.
  split; apply image_ext with (h := h) (w := w);
    try assumption; try apply has_shape_zeros;
    intros r c _ _; rewrite get2_zeros;
    specialize (Hval r c); injection Hval as E1 E2; assumption.
Qed.

Lemma faster_lucas_kanade_step_outside I1 I2 ws :
  nrows I1 = nrows I2 -> ncols I1 = ncols I2 -> Nat.odd ws = true ->
  0 < nrows I1 -> 0 < ncols I1 ->
  exists du dv,
    faster_lucas_kanade_step I1 I2 ws = Ok (du, dv) /\
    has_shape du (nrows I1) (ncols I1) /\
    has_shape dv (nrows I1) (ncols I1) /\
    forall r c,
      interior (nrows I1) (ncols I1) (ws / 2) r c = false ->
      (get2 du r c, get2 dv r c) = (0%Qc, 0%Qc).
Proof using cornerHarris_shape.
  intros Hrows Hcols Hodd Hh Hw.
  destruct (Nat.lt_ge_cases (nrows I1) MAX_SHAPE) as [Hsh|Hsh];
    [destruct (Nat.lt_ge_cases (ncols I1) MAX_SHAPE) as [Hsw|Hsw]|].
  - destruct (lucas_kanade_step_spec I1 I2 ws Hrows Hcols Hodd)
      as [It [du [dv [_ [_ [E [Sdu [Sdv Hval]]]]]]]].
    exists du, dv.
    rewrite faster_lucas_kanade_step_small by assumption.
    repeat (split; [assumption|]).
    intros r c Hout. rewrite Hval, Hout. reflexivity.
  - destruct (faster_lucas_kanade_step_large I1 I2 ws Hrows Hcols Hodd Hh Hw
                (or_intror Hsw))
      as [corners [It [du [dv [_ [_ [E [Sdu [Sdv Hval]]]]]]]]].
    exists du, dv. repeat (split; [assumption|]).
    intros r c Hout. rewrite Hval, Hout. reflexivity.
  - destruct (faster_lucas_kanade_step_large I1 I2 ws Hrows Hcols Hodd Hh Hw
                (or_introl Hsh))
      as [corners [It [du [dv [_ [_ [E [Sdu [Sdv Hval]]]]]]]]].
    exists du, dv. repeat (split; [assumption|]).
    intros r c Hout. rewrite Hval, Hout. reflexivity.
Qed.

Lemma dense_step_same_image I ws :
  Nat.odd ws = true ->
  lucas_kanade_step I I ws
  = Ok (zeros (nrows I) (ncols I), zeros (nrows I) (ncols I)).
Proof.
  intros Hodd.
  destruct (lucas_kanade_step_spec I I ws eq_refl eq_refl Hodd)
    as [It [du [dv [EIt [_ [E [Sdu [Sdv Hval]]]]]]]].
  rewrite sub_images_self in EIt. apply Ok_inj in EIt. subst It.
  destruct (zero_pairs_zeros du dv _ _ Sdu Sdv) as [-> ->]; [|exact E].
  intros r c. rewrite Hval.
  destruct (interior (nrows I) (ncols I) (ws / 2) r c) eqn:Hin;
    [|reflexivity].
  rewrite pixel_flow_zero_It; auto using has_shape_convolve2d.
Qed.

(** X3. Zero motion for the sparse step: on a pair of equal, non-empty images
    and an odd [window_size] it returns the pair of zero arrays, on either
    side of the 200-pixel threshold. *)
Theorem faster_lucas_kanade_step_zero_motion (I : image) (window_size : nat) :
  Nat.odd window_size = true -> 0 < nrows I -> 0 < ncols I ->
  faster_lucas_kanade_step I I window_size
  = Ok (zeros (nrows I) (ncols I), zeros (nrows I) (ncols I)).
Proof using cornerHarris_shape.
  intros Hodd Hh Hw.
  destruct (Nat.lt_ge_cases (nrows I) MAX_SHAPE) as [Hsh|Hsh];
    [destruct (Nat.lt_ge_cases (ncols I) MAX_SHAPE) as [Hsw|Hsw]|].
  - rewrite faster_lucas_kanade_step_small by assumption.
    apply dense_step_same_image. exact Hodd.
  - destruct (faster_lucas_kanade_step_large I I window_size eq_refl eq_refl
                Hodd Hh Hw (or_intror Hsw))
      as [corners [It [du [dv [_ [EIt [E [Sdu [Sdv Hval]]]]]]]]].
    rewrite sub_images_self in EIt. apply Ok_inj in EIt. subst It.
    destruct (zero_pairs_zeros du dv _ _ Sdu Sdv) as [-> ->]; [|exact E].
    intros r c. rewrite Hval. unfold corner_flow.
    destruct (interior (nrows I) (ncols I) (window_size / 2) r c) eqn:Hin;
      [|reflexivity].
    destruct (Qc_eq_dec _ _); [reflexivity|].
    rewrite pixel_flow_zero_It; auto using has_shape_convolve2d.
  - destruct (faster_lucas_kanade_step_large I I window_size eq_refl eq_refl
                Hodd Hh Hw (or_introl Hsh))
      as [corners [It [du [dv [_ [EIt [E [Sdu [Sdv Hval]]]]]]]]].
    rewrite sub_images_self in EIt. apply Ok_inj in EIt. subst It.
    destruct (zero_pairs_zeros du dv _ _ Sdu Sdv) as [-> ->]; [|exact E].
    intros r c. rewrite Hval. unfold corner_flow.
    destruct (interior (nrows I) (ncols I) (window_size / 2) r c) eqn:Hin;
      [|reflexivity].
    destruct (Qc_eq_dec _ _); [reflexivity|].
    rewrite pixel_flow_zero_It; auto using has_shape_convolve2d.
Qed.

(** X4. Border invariant for the sparse step: the arrays it returns have the
    shape of the images and are zero on the margin of width
    [floor(window_size / 2)], below and above the 200-pixel threshold. *)
Theorem faster_lucas_kanade_step_border (I1 I2 : image) (window_size : nat) :
  shape I1 = shape I2 -> Nat.odd window_size = true ->
  0 < nrows I1 -> 0 < ncols I1 ->
  exists du dv,
    faster_lucas_kanade_step I1 I2 window_size = Ok (du, dv) /\
    has_shape du (nrows I1) (ncols I1) /\
    has_shape dv (nrows I1) (ncols I1) /\
    forall r c,
      r < window_size / 2 \/ nrows I1 - window_size / 2 <= r \/
      c < window_size / 2 \/ ncols I1 - window_size / 2 <= c ->
      get2 du r c = 0%Qc /\ get2 dv r c = 0%Qc.
Proof using cornerHarris_shape.
  intros Hshape Hodd Hh Hw. unfold shape in Hshape.
  injection Hshape as Hrows Hcols.
  destruct (faster_lucas_kanade_step_outside I1 I2 window_size Hrows Hcols
              Hodd Hh Hw) as [du [dv [E [Sdu [Sdv Hval]]]]].
  exists du, dv. repeat (split; [assumption|]).
  intros r c Hborder.
  assert (Hout : interior (nrows I1) (ncols I1) (window_size / 2) r c = false).
  { apply not_true_is_false. rewrite interior_spec. lia. }
  specialize (Hval r c Hout). injection Hval as -> ->. split; reflexivity.
Qed.

Lemma faster_lucas_kanade_step_shape_preserving ws :
  Nat.odd ws = true -> shape_preserving faster_lucas_kanade_step ws.
Proof using cornerHarris_shape.
  intros Hodd A B h w HA HB Hh Hw.
  pose proof (has_shape_nrows _ _ _ HA) as Ea.
  pose proof (has_shape_ncols _ _ _ HA Hh) as Eb.
  destruct (faster_lucas_kanade_step_outside A B ws)
    as [du [dv [E [Sdu [Sdv _]]]]].
  - rewrite (has_shape_nrows _ _ _ HB). exact Ea.
  - rewrite (has_shape_ncols _ _ _ HB Hh). exact Eb.
  - exact Hodd.
  - lia.
  - lia.
  - exists du, dv. rewrite Ea, Eb in Sdu, Sdv. auto.
Qed.

(** X5. The sparse refiner, like the dense one, returns a field of the
    resized full-resolution shape, both extents multiples of
    [2 ^ num_levels], when the images are higher and wider than
    [2 ^ num_levels] pixels, so that the coarsest level keeps two rows and
    two columns. *)
Theorem faster_lucas_kanade_optical_flow_shape
    (I1 I2 : image) (window_size max_iter num_levels h w : nat) :
  has_shape I1 h w -> has_shape I2 h w ->
  2 ^ num_levels < h -> 2 ^ num_levels < w ->
  Nat.odd window_size = true ->
  let H := ceil_div h (2 ^ num_levels) * 2 ^ num_levels in
  let W := ceil_div w (2 ^ num_levels) * 2 ^ num_levels in
  exists u v,
    faster_lucas_kanade_optical_flow I1 I2 window_size max_iter num_levels
    = Ok (u, v) /\
    has_shape u H W /\ has_shape v H W /\
    Nat.divide (2 ^ num_levels) H /\ Nat.divide (2 ^ num_levels) W.
Proof using cornerHarris_shape resize_shape griddata_length.
  intros H1 H2 Lh Lw Hodd H W.
  pose proof (pow2_pos num_levels) as Hp.
  assert (HH : h <= H) by (apply ceil_div_mul_ge; exact Hp).
  assert (HW : w <= W) by (apply ceil_div_mul_ge; exact Hp).
  destruct (pyramidal_flow_shape faster_lucas_kanade_step I1 I2 window_size
              max_iter num_levels h w h w
              (faster_lucas_kanade_step_shape_preserving _ Hodd)
              H1 Lh Lw H2 ltac:(lia) ltac:(lia) ltac:(fold H W; lia))
    as [I1' [I2' [u [v [_ [_ [_ [_ [_ [E [Su Sv]]]]]]]]]]].
  exists u, v. split; [exact E|]. split; [exact Su|]. split; [exact Sv|].
  split; apply Nat.divide_factor_r.
Qed.

(** ** Further properties of the working size and of the pyramid *)

Lemma ceil_div_mul_lt a b : 0 < b -> ceil_div a b * b < a + b.
Proof.
  intros Hb. unfold ceil_div.
  pose proof (Nat.div_mod_eq (a + b - 1) b) as E.
  nia.
Qed.

(** X6. The working size: each extent of [IMAGE_SIZE] is the least multiple of
    [2 ^ num_levels] that is not below the extent of [I1]; the image is
    never shrunk and grows by less than [2 ^ num_levels] per axis. *)
Theorem image_size_least_multiple (I1 : image) (num_levels : nat) :
  let W := fst (image_size I1 num_levels) in
  let H := snd (image_size I1 num_levels) in
  Nat.divide (2 ^ num_levels) W /\ Nat.divide (2 ^ num_levels) H /\
  ncols I1 <= W < ncols I1 + 2 ^ num_levels /\
  nrows I1 <= H < nrows I1 + 2 ^ num_levels.
Proof.
  cbn zeta. unfold image_size. cbn [fst snd].
  pose proof (pow2_pos num_levels) as Hp.
  split; [apply Nat.divide_factor_r|]. split; [apply Nat.divide_factor_r|].
  split; split;
    first [apply ceil_div_mul_ge; exact Hp | apply ceil_div_mul_lt; exact Hp].
Qed.

(** X7. An image whose extents are already multiples of [2 ^ num_levels] is its
    own working image: [IMAGE_SIZE] is its size and the size adjustment
    hands it back unchanged. *)
Theorem fit_size_multiple_unchanged (I : image) (num_levels a b : nat) :
  has_shape I (a * 2 ^ num_levels) (b * 2 ^ num_levels) -> 0 < a -> 0 < b ->
  image_size I num_levels = (b * 2 ^ num_levels, a * 2 ^ num_levels) /\
  fit_size I (image_size I num_levels) = Ok I.
Proof using resize_same_size.
  intros HI Ha Hb. pose proof (pow2_pos num_levels) as Hp.
  assert (Hh : 0 < a * 2 ^ num_levels) by nia.
  assert (Hw : 0 < b * 2 ^ num_levels) by nia.
  assert (E : image_size I num_levels
              = (b * 2 ^ num_levels, a * 2 ^ num_levels)).
  { unfold image_size.
    rewrite (has_shape_nrows _ _ _ HI), (has_shape_ncols _ _ _ HI Hh).
    rewrite !ceil_div_multiple by exact Hp. reflexivity. }
  split; [exact E|]. rewrite E. unfold fit_size. cbn [fst snd].
  destruct ((nrows I =? b * 2 ^ num_levels) && (ncols I =? a * 2 ^ num_levels));
    [reflexivity|].
  apply resize_same_size; assumption.
Qed.

(** Level [k] of a pyramid: [k] rounds of blur and decimation. *)
Lemma build_pyramid_level img n k :
  k <= n ->
  nth k (build_pyramid img n) []
  = Nat.iter k (fun a => decimate (convolve2d a PYRAMID_FILTER)) img.
Proof.
  unfold build_pyramid, range. rewrite Nat.sub_0_r.
  destruct (build_pyramid_loop_spec n 0 [img] eq_refl) as [_ [Hpre Hnext]].
  induction k as [|k IH]; intros Hk.
  - rewrite (Hpre 0) by lia. reflexivity.
  - rewrite Hnext by lia. rewrite IH by lia. rewrite Nat.iter_succ.
    reflexivity.
Qed.

Lemma iter_add A (f : A -> A) n m x :
  Nat.iter (n + m) f x = Nat.iter m f (Nat.iter n f x).
Proof.
  induction m as [|m IH]; [rewrite Nat.add_0_r; reflexivity|].
  rewrite Nat.add_succ_r, !Nat.iter_succ, IH. reflexivity.
Qed.

(** X8. Pyramids compose: the levels below level [n] of a deeper pyramid are
    the pyramid of level [n].  In particular the first [n + 1] levels do
    not depend on how many more are asked for. *)
Theorem build_pyramid_compose (img : image) (n m j : nat) :
  j <= m ->
  nth (n + j) (build_pyramid img (n + m)) []
  = nth j (build_pyramid (nth n (build_pyramid img n) []) m) [].
Proof.
  intros Hj.
  rewrite !build_pyramid_level by lia.
  apply iter_add.
Qed.

(** X9. On an image whose extents are multiples of [2 ^ num_levels] every
    level halves both extents exactly; the coarsest level is [a] x [b]. *)
Theorem build_pyramid_exact_halving (img : image) (num_levels a b k : nat) :
  has_shape img (a * 2 ^ num_levels) (b * 2 ^ num_levels) -> 0 < a ->
  k <= num_levels ->
  has_shape (nth k (build_pyramid img num_levels) [])
            (a * 2 ^ (num_levels - k)) (b * 2 ^ (num_levels - k)).
Proof.
  intros Himg Ha Hk. pose proof (pow2_pos num_levels) as Hp.
  assert (Hh : 0 < a * 2 ^ num_levels) by nia.
  destruct (build_pyramid_levels img num_levels _ _ Himg Hh) as [_ Hlv].
  specialize (Hlv k Hk).
  rewrite !level_dim_multiple in Hlv by exact Hk. exact Hlv.
Qed.

(** ** Further properties of the warper *)

(** X10. A displacement field [u] that has rows but no column, or a field
    [v] without rows, makes the factor computation divide by zero. *)
Theorem warp_image_empty_field (img u v : image) :
  (0 < nrows u /\ ncols u = 0) \/ nrows v = 0 ->
  warp_image img u v = Err ZeroDivisionError.
Proof.
  intros H. unfold warp_image, rescale_field, true_divide.
  destruct (ncols u =? 0) eqn:Eu; [reflexivity|].
  destruct H as [[_ H]|H]; [apply Nat.eqb_neq in Eu; contradiction|].
  rewrite H. reflexivity.
Qed.

(** ** The normal equations *)








(** ** Constant images and brightness offsets *)

Lemma symm_index_lt n i : 0 < n -> symm_index n i < n.
Proof.
  intros Hn. unfold symm_index.
  pose proof (Z.mod_pos_bound i (2 * Z.of_nat n) ltac:(lia)) as Hm.
  destruct (Z.ltb_spec (i mod (2 * Z.of_nat n)) (Z.of_nat n)); lia.
Qed.

Lemma sumq_cons x l : sumq (x :: l) = (x + sumq l)%Qc.
Proof. reflexivity. Qed.

Lemma sumq_map_add A (f g : A -> Qc) l :
  sumq (map (fun x => (f x + g x)%Qc) l)
  = (sumq (map f l) + sumq (map g l))%Qc.
Proof.
  induction l as [|x l IH]; cbn [map]; [cbn; ring|].
  rewrite !sumq_cons, IH. ring.
Qed.

Lemma sumq_map_scale A (f : A -> Qc) k l :
  sumq (map (fun x => (f x * k)%Qc) l) = (sumq (map f l) * k)%Qc.
Proof.
  induction l as [|x l IH]; cbn [map]; [cbn; ring|].
  rewrite !sumq_cons, IH. ring.
Qed.

(** Convolution sees a brightness offset [k] of the whole image as
    [k] times the sum of the kernel. *)
Lemma convolve_at_shift a a' K k i j :
  (forall p q, symm_get a' p q = (symm_get a p q + k)%Qc) ->
  convolve_at a' K i j = (convolve_at a K i j + kernel_sum K * k)%Qc.
Proof.
  intros Hget. unfold convolve_at, kernel_sum.
  set (ci := Z.of_nat ((nrows K - 1) / 2)).
  set (cj := Z.of_nat ((ncols K - 1) / 2)).
  set (term := fun (b : image) (p q : nat) =>
         (get2 K p q *
          symm_get b (Z.of_nat i + ci - Z.of_nat p)
                     (Z.of_nat j + cj - Z.of_nat q))%Qc).
  assert (Hrow : forall p,
             sumq (map (term a' p) (seq 0 (ncols K)))
             = (sumq (map (term a p) (seq 0 (ncols K))) +
                sumq (map (fun q => get2 K p q) (seq 0 (ncols K))) * k)%Qc).
  { intros p. rewrite <- (sumq_map_scale _ (fun q => get2 K p q)).
    rewrite <- (sumq_map_add _ (term a p) (fun q => (get2 K p q * k)%Qc)).
    f_equal. apply map_ext. intros q. unfold term. rewrite Hget. ring. }
  change (sumq (map (fun p => sumq (map (term a' p) (seq 0 (ncols K))))
                    (seq 0 (nrows K)))
          = (sumq (map (fun p => sumq (map (term a p) (seq 0 (ncols K))))
                       (seq 0 (nrows K))) +
             sumq (map (fun p => sumq (map (fun q => get2 K p q)
                                           (seq 0 (ncols K))))
                       (seq 0 (nrows K))) * k)%Qc).
  rewrite <- (sumq_map_scale _
                (fun p => sumq (map (fun q => get2 K p q) (seq 0 (ncols K))))).
  rewrite <- (sumq_map_add _
                (fun p => sumq (map (term a p) (seq 0 (ncols K))))
                (fun p => (sumq (map (fun q => get2 K p q) (seq 0 (ncols K)))
                           * k)%Qc)).
  f_equal. apply map_ext. intros p. apply Hrow.
Qed.

Lemma get2_offset a k h w r c :
  has_shape a h w -> r < h -> c < w ->
  get2 (offset a k) r c = (get2 a r c + k)%Qc.
Proof.
  intros Ha Hr Hc. unfold get2, offset.
  pose proof (has_shape_row a h w r Ha Hr) as Hrow.
  rewrite nth_indep with (d' := map (fun x => (x + k)%Qc) [])
    by (rewrite length_map; destruct Ha; lia).
  rewrite (map_nth (map (fun x => (x + k)%Qc))).
  rewrite nth_indep with (d' := (fun x => (x + k)%Qc) 0%Qc)
    by (rewrite length_map; lia).
  apply (map_nth (fun x => (x + k)%Qc)).
Qed.

Lemma has_shape_offset a k h w : has_shape a h w -> has_shape (offset a k) h w.
Proof.
  intros [Hl Hr]. unfold offset. split.
  - rewrite length_map. exact Hl.
  - apply Forall_map. eapply Forall_impl; [|exact Hr].
    intros row Hrow. cbn beta in Hrow |- *. rewrite length_map. exact Hrow.
Qed.

Lemma nrows_offset a k : nrows (offset a k) = nrows a.
Proof. unfold nrows, offset. apply length_map. Qed.

Lemma ncols_offset a k : ncols (offset a k) = ncols a.
Proof.
  unfold ncols, offset. destruct a as [|row a]; [reflexivity|].
  cbn. apply length_map.
Qed.

Lemma symm_get_offset a k h w p q :
  has_shape a h w -> 0 < h -> 0 < w ->
  symm_get (offset a k) p q = (symm_get a p q + k)%Qc.
Proof.
  intros Ha Hh Hw. unfold symm_get.
  rewrite nrows_offset, ncols_offset.
  rewrite (has_shape_nrows _ _ _ Ha), (has_shape_ncols _ _ _ Ha Hh).
  apply get2_offset with (h := h) (w := w);
    [exact Ha | apply symm_index_lt; exact Hh | apply symm_index_lt; exact Hw].
Qed.

(** A kernel whose entries sum to zero does not see a brightness offset. *)
Lemma convolve2d_offset a K k h w :
  has_shape a h w -> kernel_sum K = 0%Qc ->
  convolve2d (offset a k) K = convolve2d a K.
Proof.
  intros Ha HK. unfold convolve2d.
  rewrite nrows_offset, ncols_offset.
  apply map_ext_in. intros i Hi. apply map_ext_in. intros j Hj.
  apply in_seq in Hi, Hj.
  assert (Hh : 0 < h) by (rewrite <- (has_shape_nrows _ _ _ Ha); lia).
  assert (Hw : 0 < w) by (rewrite <- (has_shape_ncols _ _ _ Ha Hh); lia).
  rewrite convolve_at_shift with (a := a) (k := k)
    by (intros p q; apply symm_get_offset with (h := h) (w := w); assumption).
  rewrite HK. ring.
Qed.

Lemma kernel_sum_X : kernel_sum X_DERIVATIVE_FILTER = 0%Qc.
Proof. apply Qc_is_canon. vm_compute. reflexivity. Qed.

Lemma kernel_sum_Y : kernel_sum Y_DERIVATIVE_FILTER = 0%Qc.
Proof. apply Qc_is_canon. vm_compute. reflexivity. Qed.

Lemma kernel_sum_pyramid : kernel_sum PYRAMID_FILTER = 1%Qc.
Proof. apply Qc_is_canon. vm_compute. reflexivity. Qed.

Lemma bget_offset a k h w r c :
  has_shape a h w -> 0 < h -> r < h -> c < w ->
  bget (offset a k) r c = (bget a r c + k)%Qc.
Proof.
  intros Ha Hh Hr Hc. unfold bget. rewrite nrows_offset, ncols_offset.
  apply get2_offset with (h := h) (w := w); [exact Ha| |].
  - destruct (nrows a =? 1); [exact Hh | exact Hr].
  - destruct (ncols a =? 1); [lia | exact Hc].
Qed.

Lemma sub_images_offset a b k h w :
  has_shape a h w -> has_shape b h w ->
  sub_images (offset a k) (offset b k) = sub_images a b.
Proof.
  intros Ha Hb. unfold sub_images, broadcast2.
  rewrite !nrows_offset, !ncols_offset.
  destruct (Nat.eq_dec h 0) as [->|Hh0].
  - rewrite (has_shape_nrows _ _ _ Ha), (has_shape_nrows _ _ _ Hb).
    cbn [broadcast_dim Nat.eqb bind].
    destruct (broadcast_dim (ncols a) (ncols b)); reflexivity.
  - assert (Hh : 0 < h) by lia.
    rewrite (has_shape_nrows _ _ _ Ha), (has_shape_nrows _ _ _ Hb).
    rewrite (has_shape_ncols _ _ _ Ha Hh), (has_shape_ncols _ _ _ Hb Hh).
    rewrite !broadcast_dim_same. cbn [bind]. f_equal.
    apply map_ext_in. intros r Hr. apply map_ext_in. intros c Hc.
    apply in_seq in Hr, Hc.
    rewrite bget_offset with (h := h) (w := w) by (assumption || lia).
    rewrite bget_offset with (h := h) (w := w) by (assumption || lia).
    ring.
Qed.

(** X12. Brightness-offset invariance, for images of integer samples and
    an integer offset, all of absolute value at most [2 ^ 40] (the range in
    which float64 forms the sums, the gradients and the temporal derivative
    without rounding): adding the constant to both images changes neither
    the gradients nor the temporal derivative, hence not the result (an
    exception included). *)
Theorem lucas_kanade_step_offset_invariant
    (I1 I2 : image) (k : Z) (window_size h w : nat) :
  has_shape I1 h w -> has_shape I2 h w ->
  integer_samples (2 ^ 40) I1 -> integer_samples (2 ^ 40) I2 ->
  (Z.abs k <= 2 ^ 40)%Z ->
  lucas_kanade_step (offset I1 (qz k)) (offset I2 (qz k)) window_size
  = lucas_kanade_step I1 I2 window_size.
Proof.
  intros H1 H2 _ _ _. unfold lucas_kanade_step.
  rewrite (convolve2d_offset I2 _ (qz k) h w H2 kernel_sum_X).
  rewrite (convolve2d_offset I2 _ (qz k) h w H2 kernel_sum_Y).
  rewrite (sub_images_offset I2 I1 (qz k) h w H2 H1).
  rewrite nrows_offset, ncols_offset. reflexivity.
Qed.

Lemma get2_full h w c r j : r < h -> j < w -> get2 (full h w c) r j = c.
Proof.
  intros Hr Hj. unfold get2, full.
  rewrite nth_repeat_lt by exact Hr. apply nth_repeat_lt. exact Hj.
Qed.

Lemma has_shape_full h w c : has_shape (full h w c) h w.
Proof.
  split.
  - apply repeat_length.
  - apply Forall_forall. intros row Hin. apply repeat_spec in Hin.
    subst row. apply repeat_length.
Qed.

Lemma convolve_at_zeros h w K i j : convolve_at (zeros h w) K i j = 0%Qc.
Proof.
  unfold convolve_at.
  assert (Hrow : forall p,
    sumq (map (fun q =>
      (get2 K p q *
       symm_get (zeros h w)
         (Z.of_nat i + Z.of_nat ((nrows K - 1) / 2) - Z.of_nat p)
         (Z.of_nat j + Z.of_nat ((ncols K - 1) / 2) - Z.of_nat q))%Qc)
      (seq 0 (ncols K))) = (sumq (map (fun _ : nat => 0%Qc) (seq 0 (nrows K))) * 0)%Qc).
  { intros p. rewrite Qcmult_0_r.
    rewrite map_ext with (g := fun q => (get2 K p q * 0)%Qc).
    - rewrite sumq_map_scale. apply Qcmult_0_r.
    - intros q. unfold symm_get. rewrite get2_zeros. reflexivity. }
  rewrite map_ext with (g := fun p => ((fun _ : nat => 0%Qc) p * 0)%Qc).
  - rewrite sumq_map_scale. apply Qcmult_0_r.
  - intros p. rewrite Hrow. ring.
Qed.

(** Convolving a constant image, under the symmetric boundary, gives the
    constant times the sum of the kernel. *)
Lemma convolve2d_full h w c K :
  convolve2d (full h w c) K = full h w (kernel_sum K * c)%Qc.
Proof.
  unfold convolve2d.
  rewrite (has_shape_nrows _ _ _ (has_shape_full h w c)).
  destruct (Nat.eq_dec h 0) as [->|Hh0]; [reflexivity|].
  assert (Hh : 0 < h) by lia.
  rewrite (has_shape_ncols _ _ _ (has_shape_full h w c) Hh).
  change (full h w (kernel_sum K * c))
    with (repeat (repeat (kernel_sum K * c)%Qc w) h).
  rewrite map_const with (y := repeat (kernel_sum K * c)%Qc w);
    [rewrite length_seq; reflexivity|].
  intros i.
  destruct (Nat.eq_dec w 0) as [->|Hw0]; [reflexivity|].
  assert (Hw : 0 < w) by lia.
  rewrite map_const with (y := (kernel_sum K * c)%Qc);
    [rewrite length_seq; reflexivity|].
  intros j.
  rewrite convolve_at_shift with (a := zeros h w) (k := c).
  - rewrite convolve_at_zeros. ring.
  - intros p q. unfold symm_get. rewrite get2_zeros.
    rewrite (has_shape_nrows _ _ _ (has_shape_full h w c)).
    rewrite (has_shape_ncols _ _ _ (has_shape_full h w c) Hh).
    rewrite get2_full by (apply symm_index_lt; assumption). ring.
Qed.

Lemma every_second_repeat_aux A (x : A) n :
  every_second (repeat x n) = repeat x ((n + 1) / 2) /\
  every_second (repeat x (S n)) = repeat x ((S n + 1) / 2).
Proof.
  induction n as [|n [IH1 IH2]].
  - split; reflexivity.
  - split; [exact IH2|]. cbn [repeat every_second].
    change (every_second (repeat x n)) with (every_second (repeat x n)).
    rewrite IH1.
    replace (S (S n) + 1) with (n + 1 + 1 * 2) by lia.
    rewrite Nat.div_add by lia.
    replace ((n + 1) / 2 + 1) with (S ((n + 1) / 2)) by lia. reflexivity.
Qed.

Lemma decimate_full h w c :
  decimate (full h w c) = full (ceil_div h 2) (ceil_div w 2) c.
Proof.
  unfold decimate, full. rewrite !ceil_div_2.
  rewrite (proj1 (every_second_repeat_aux _ (repeat c w) h)).
  rewrite map_repeat.
  rewrite (proj1 (every_second_repeat_aux _ c w)). reflexivity.
Qed.

(** X13. The blur is normalised: a constant image gives a pyramid of constant
    images of the same value. *)
Theorem build_pyramid_constant (h w : nat) (c : Qc) (num_levels k : nat) :
  k <= num_levels ->
  nth k (build_pyramid (full h w c) num_levels) []
  = full (level_dim h k) (level_dim w k) c.
Proof.
  intros Hk. rewrite build_pyramid_level by exact Hk.
  clear Hk. induction k as [|k IH]; [reflexivity|].
  rewrite Nat.iter_succ, IH.
  rewrite convolve2d_full, kernel_sum_pyramid, Qcmult_1_l.
  rewrite decimate_full. unfold level_dim. rewrite !Nat.iter_succ.
  reflexivity.
Qed.

Lemma column_all_zero xs : forall ys j,
  all_zero xs -> all_zero ys -> all_zero (column (column_stack xs ys) j).
Proof.
  unfold all_zero, column, column_stack.
  induction xs as [|x xs IH]; intros [|y ys] j Hx Hy; cbn [map2 map];
    try constructor.
  - inversion Hx; inversion Hy; subst.
    destruct j as [|[|j]]; try reflexivity. destruct j; reflexivity.
  - inversion Hx; inversion Hy; subst. apply IH; assumption.
Qed.

Lemma det2_normal_matrix_zero xs ys :
  all_zero xs -> all_zero ys ->
  det2 (normal_matrix (column_stack xs ys)) = 0%Qc.
Proof.
  intros Hx Hy.
  destruct xs as [|x xs]; [apply det2_nil|].
  destruct ys as [|y ys]; [apply det2_nil|].
  set (A := column_stack (x :: xs) (y :: ys)).
  assert (E : normal_matrix A
              = [[dot (column A 0) (column A 0); dot (column A 0) (column A 1)];
                 [dot (column A 1) (column A 0); dot (column A 1) (column A 1)]])
    by reflexivity.
  rewrite E. unfold det2. cbn [get2 nth].
  rewrite !dot_all_zero by (apply column_all_zero; assumption). ring.
Qed.

(** X14. A flat target image gives zero flow: when [I2] is constant its
    gradients vanish, every window is singular, and the handler leaves
    [(0, 0)] everywhere, whatever [I1] is. *)
Theorem lucas_kanade_step_flat_target
    (I1 : image) (h w : nat) (c : Qc) (window_size : nat) :
  shape I1 = shape (full h w c) -> Nat.odd window_size = true ->
  lucas_kanade_step I1 (full h w c) window_size
  = Ok (zeros (nrows I1) (ncols I1), zeros (nrows I1) (ncols I1)).
Proof using inv_zero_line.
  intros Hshape Hodd. unfold shape in Hshape.
  injection Hshape as Hrows Hcols.
  destruct (lucas_kanade_step_spec I1 (full h w c) window_size Hrows Hcols Hodd)
    as [It [du [dv [EIt [HIt [E [Sdu [Sdv Hval]]]]]]]].
  destruct (zero_pairs_zeros du dv _ _ Sdu Sdv) as [-> ->]; [|exact E].
  intros r j. rewrite Hval.
  destruct (interior (nrows I1) (ncols I1) (window_size / 2) r j) eqn:Hin;
    [|reflexivity].
  assert (Hz : forall K, kernel_sum K = 0%Qc ->
                 convolve2d (full h w c) K = zeros h w).
  { intros K HK. rewrite convolve2d_full, HK, Qcmult_0_l. reflexivity. }
  rewrite (Hz _ kernel_sum_X), (Hz _ kernel_sum_Y).
  assert (Hs : has_shape (zeros h w) (nrows I1) (ncols I1)).
  { rewrite <- (Hz _ kernel_sum_X), Hrows, Hcols. apply has_shape_convolve2d. }
  rewrite pixel_flow_interior with (h := nrows I1) (w := ncols I1)
    by assumption.
  destruct (least_squares_policy
              (design_matrix (zeros h w) (zeros h w) window_size r j)
              (concat (window It (window_size / 2) r j))) as [Hnone _].
  rewrite Hnone; [reflexivity|].
  apply interior_spec in Hin. destruct Hin as [Hr Hc].
  unfold design_matrix. apply inv_zero_gradient.
  - apply window_nonempty with (h := nrows I1) (w := ncols I1); assumption.
  - apply window_nonempty with (h := nrows I1) (w := ncols I1); assumption.
  - left. apply column_all_zero; apply all_zero_concat_window.
Qed.

(** ** The refiner on a field that stays zero *)

Lemma add_images_zeros h w :
  0 < h -> add_images (zeros h w) (zeros h w) = Ok (zeros h w).
Proof.
  intros Hh. unfold add_images, broadcast2.
  rewrite (has_shape_nrows _ _ _ (has_shape_zeros h w)).
  rewrite (has_shape_ncols _ _ _ (has_shape_zeros h w) Hh).
  rewrite !broadcast_dim_same. cbn [bind]. f_equal.
  symmetry. unfold zeros at 1. symmetry.
  rewrite map_const with (y := repeat 0%Qc w);
    [rewrite length_seq; reflexivity|].
  intros r. rewrite map_const with (y := 0%Qc);
    [rewrite length_seq; reflexivity|].
  intros c. unfold bget. rewrite !get2_zeros. ring.
Qed.

Lemma warp_image_by_zeros img h w :
  has_shape img h w -> 2 <= h -> 2 <= w ->
  warp_image img (zeros h w) (zeros h w) = Ok img.
Proof using resize_same_size griddata_at_points.
  intros Himg Hh2 Hw2.
  assert (Hh : 0 < h) by lia. assert (Hw : 0 < w) by lia.
  pose proof (has_shape_nrows _ _ _ Himg) as Er.
  pose proof (has_shape_ncols _ _ _ Himg Hh) as Ec.
  pose proof (has_shape_zeros h w) as Hz.
  assert (Ef : rescale_field img (zeros h w) (zeros h w)
               = Ok (zeros h w, zeros h w)).
  { unfold rescale_field.
    rewrite (has_shape_nrows _ _ _ Hz), (has_shape_ncols _ _ _ Hz Hh).
    rewrite Er, Ec, !true_divide_same by assumption. cbn [bind].
    rewrite (resize_same_size _ _ _ Hz Hh Hw). cbn [bind].
    rewrite scale_one. reflexivity. }
  destruct (grid_points_length img) as [Lx Ly]. rewrite Er, Ec in Lx, Ly.
  assert (Lz : length (flatten (zeros h w)) = h * w)
    by (apply length_concat_has_shape; exact Hz).
  assert (Li : length (flatten img) = h * w)
    by (apply length_concat_has_shape; exact Himg).
  assert (Exi : query_points img (zeros h w) (zeros h w)
                = Ok (grid_points img)).
  { unfold query_points. destruct (grid_points img) as [xs ys].
    cbn [fst snd] in Lx, Ly |- *.
    rewrite !add_flat_zero by (try apply all_zero_flatten_zeros; congruence).
    reflexivity. }
  rewrite (warp_image_stages img _ _ _ _ Ef Exi).
  unfold sample_and_fill.
  rewrite griddata_at_points
    by (first [ exact (grid_points_spans img h w Himg Hh2 Hw2)
              | apply grid_points_NoDup | congruence ]).
  cbn [bind].
  unfold reshape2. rewrite (has_shape_shape _ _ _ Himg Hh). cbn [fst snd].
  rewrite length_map, Li, Nat.eqb_refl. cbn [bind]. f_equal.
  unfold flatten. rewrite concat_map, chunks_concat.
  - apply fill_nan_defined.
  - rewrite length_map. apply Himg.
  - apply Forall_map. eapply Forall_impl; [|apply Himg].
    intros row Hrow. cbn beta in Hrow |- *. rewrite length_map. exact Hrow.
Qed.

(** The loop over the levels, started from the zero field, when the
    iterations of every level hand the zero field back. *)
Lemma refine_levels_keep_zero step ws max_iter
    (pyramid_I1 pyarmid_I2 : list image) n h w :
  0 < h -> 0 < w ->
  (forall k, k <= n ->
     has_shape (nth k pyramid_I1 []) (level_dim h k) (level_dim w k)) ->
  (forall k, k <= n ->
     level_iterations step (nth k pyramid_I1 []) (nth k pyarmid_I2 [])
       ws max_iter (zeros (level_dim h k) (level_dim w k))
       (zeros (level_dim h k) (level_dim w k))
     = Ok (zeros (level_dim h k) (level_dim w k),
           zeros (level_dim h k) (level_dim w k))) ->
  forall m, m <= n ->
    for_each (rev (range 0 (S m)))
             (refine_level step pyramid_I1 pyarmid_I2 ws max_iter)
             (zeros (level_dim h m) (level_dim w m),
              zeros (level_dim h m) (level_dim w m))
    = Ok (zeros h w, zeros h w).
Proof using resize_zeros.
  intros Hh Hw Hp1 Hit.
  induction m as [|m IH]; intros Hm;
    rewrite rev_range_S; cbn [for_each]; unfold refine_level at 1;
    cbn [fst snd]; rewrite Hit by exact Hm; cbn [bind].
  - reflexivity.
  - cbn [Nat.eqb Nat.sub]. rewrite Nat.sub_0_r.
    assert (Hprev := Hp1 m ltac:(lia)).
    pose proof (level_dim_pos h m Hh) as Qh.
    pose proof (level_dim_pos w m Hw) as Qw.
    pose proof (level_dim_pos h (S m) Hh) as Ph.
    pose proof (level_dim_pos w (S m) Hw) as Pw.
    rewrite (has_shape_nrows _ _ _ Hprev), (has_shape_ncols _ _ _ Hprev Qh).
    rewrite resize_zeros by assumption. cbn [bind].
    rewrite scale_zeros. apply IH. lia.
Qed.

Lemma pyramidal_flow_keep_zero step I1 I2 ws max_iter n h w :
  has_shape I1 h w -> has_shape I2 h w -> 2 ^ n < h -> 2 ^ n < w ->
  let H := ceil_div h (2 ^ n) * 2 ^ n in
  let W := ceil_div w (2 ^ n) * 2 ^ n in
  (forall I1' I2' k,
     fit_size I1 (W, H) = Ok I1' -> fit_size I2 (W, H) = Ok I2' ->
     has_shape I1' H W -> has_shape I2' H W -> k <= n ->
     2 <= level_dim H k -> 2 <= level_dim W k ->
     level_iterations step (nth k (build_pyramid I1' n) [])
       (nth k (build_pyramid I2' n) []) ws max_iter
       (zeros (level_dim H k) (level_dim W k))
       (zeros (level_dim H k) (level_dim W k))
     = Ok (zeros (level_dim H k) (level_dim W k),
           zeros (level_dim H k) (level_dim W k))) ->
  pyramidal_flow step I1 I2 ws max_iter n = Ok (zeros H W, zeros H W).
Proof using resize_shape resize_zeros.
  intros H1 H2 Lh Lw H W Hit.
  pose proof (pow2_pos n) as Hp.
  assert (HH : h <= H) by (apply ceil_div_mul_ge; exact Hp).
  assert (HW : w <= W) by (apply ceil_div_mul_ge; exact Hp).
  destruct (working_images I1 I2 n h w h w H1 ltac:(lia) ltac:(lia)
              H2 ltac:(lia) ltac:(lia) ltac:(fold H W; lia))
    as [PH [PW [Esize [I1' [I2' [E1 [E2 [S1 S2]]]]]]]].
  fold H W in PH, PW, Esize, E1, E2, S1, S2.
  destruct (build_pyramid_levels I1' n H W S1 PH) as [L1 Lv1].
  rewrite (pyramidal_flow_loop step I1 I2 I1' I2' ws max_iter n H W
             Esize E1 E2 S2 PH PW).
  apply refine_levels_keep_zero with (n := n); try assumption; [|lia].
  intros k Hk. apply Hit; try assumption.
  - exact (level_dim_working h n k Lh Hk).
  - exact (level_dim_working w n k Lw Hk).
Qed.

Lemma level_iterations_none step I1_level I2_level ws u v h w h' w' :
  has_shape I2_level h w -> 2 <= h -> 2 <= w ->
  has_shape u h' w' -> has_shape v h' w' -> 0 < h' -> 0 < w' ->
  level_iterations step I1_level I2_level ws 0 u v = Ok (u, v).
Proof using resize_shape griddata_length.
  intros H2 Hh Hw Hu Hv Hh' Hw'. unfold level_iterations.
  destruct (warp_image_shape I2_level u v h w h' w') as [cur [Ecur _]];
    try assumption.
  rewrite Ecur. reflexivity.
Qed.

(** X15. Without iterations nothing is estimated: with [max_iter = 0] both
    refiners return the zero field of the resized shape, for every
    [window_size], on images higher and wider than [2 ^ num_levels]
    pixels (the coarsest level is still warped once, and must keep two
    rows and two columns). *)
Theorem optical_flow_without_iterations
    (I1 I2 : image) (window_size num_levels h w : nat) :
  has_shape I1 h w -> has_shape I2 h w ->
  2 ^ num_levels < h -> 2 ^ num_levels < w ->
  let H := ceil_div h (2 ^ num_levels) * 2 ^ num_levels in
  let W := ceil_div w (2 ^ num_levels) * 2 ^ num_levels in
  lucas_kanade_optical_flow I1 I2 window_size 0 num_levels
  = Ok (zeros H W, zeros H W) /\
  faster_lucas_kanade_optical_flow I1 I2 window_size 0 num_levels
  = Ok (zeros H W, zeros H W).
Proof using resize_shape resize_zeros griddata_length.
  intros H1 H2 Lh Lw H W.
  pose proof (pow2_pos num_levels) as Hp.
  assert (PH : 0 < H)
    by (pose proof (ceil_div_mul_ge h (2 ^ num_levels) Hp) as G; unfold H;
        lia).
  assert (PW : 0 < W)
    by (pose proof (ceil_div_mul_ge w (2 ^ num_levels) Hp) as G; unfold W;
        lia).
  split; apply pyramidal_flow_keep_zero with (h := h) (w := w);
    try assumption;
    intros I1' I2' k _ _ S1 S2 Hk Bh Bw;
    destruct (build_pyramid_levels I2' num_levels H W S2 PH) as [_ Lv2];
    apply level_iterations_none
      with (h := level_dim H k) (w := level_dim W k)
           (h' := level_dim H k) (w' := level_dim W k);
    auto using has_shape_zeros, level_dim_pos.
Qed.

Lemma level_iterations_same_image L ws max_iter h w :
  Nat.odd ws = true -> has_shape L h w -> 2 <= h -> 2 <= w ->
  level_iterations lucas_kanade_step L L ws max_iter (zeros h w) (zeros h w)
  = Ok (zeros h w, zeros h w).
Proof using resize_same_size griddata_at_points.
  intros Hodd HL Hh2 Hw2. unfold level_iterations.
  assert (Hh : 0 < h) by lia.
  rewrite (warp_image_by_zeros L h w HL Hh2 Hw2). cbn [bind].
  rewrite for_each_stable; [reflexivity|].
  intros iter_num _.
  rewrite (dense_step_same_image L ws Hodd).
  rewrite (has_shape_nrows _ _ _ HL), (has_shape_ncols _ _ _ HL Hh).
  cbn [bind]. rewrite add_images_zeros by exact Hh. cbn [bind].
  rewrite (warp_image_by_zeros L h w HL Hh2 Hw2). reflexivity.
Qed.

(** X16. End-to-end zero motion: the dense refiner applied to an image and
    itself returns the zero field, for every number of iterations and
    every number of levels that leaves the coarsest level two rows and two
    columns ([2 ^ num_levels] below the height and the width). *)
Theorem lucas_kanade_optical_flow_zero_motion
    (I : image) (window_size max_iter num_levels h w : nat) :
  has_shape I h w -> 2 ^ num_levels < h -> 2 ^ num_levels < w ->
  Nat.odd window_size = true ->
  let H := ceil_div h (2 ^ num_levels) * 2 ^ num_levels in
  let W := ceil_div w (2 ^ num_levels) * 2 ^ num_levels in
  lucas_kanade_optical_flow I I window_size max_iter num_levels
  = Ok (zeros H W, zeros H W).
Proof using resize_shape resize_same_size resize_zeros griddata_at_points.
  intros HI Lh Lw Hodd H W.
  pose proof (pow2_pos num_levels) as Hp.
  assert (PH : 0 < H)
    by (pose proof (ceil_div_mul_ge h (2 ^ num_levels) Hp) as G; unfold H;
        lia).
  apply pyramidal_flow_keep_zero with (h := h) (w := w); try assumption.
  intros I1' I2' k E1 E2 S1 S2 Hk Bh Bw.
  rewrite E1 in E2. apply Ok_inj in E2. subst I2'.
  destruct (build_pyramid_levels I1' num_levels H W S1 PH) as [_ Lv].
  apply level_iterations_same_image; auto.
Qed.

(** ** Smoothing of the field and cropping in the drivers *)

Lemma length_update_from A (f : A -> A) lo stop l : forall i,
  length (update_from i lo stop f l) = length l.
Proof.
  induction l as [|x l IH]; intros i; cbn; [reflexivity|].
  rewrite IH. reflexivity.
Qed.

Lemma nth_update_from A (f : A -> A) lo stop d l : forall i k,
  k < length l ->
  nth k (update_from i lo stop f l) d =
  if (lo <=? i + k) && (i + k <? stop) then f (nth k l d) else nth k l d.
Proof.
  induction l as [|x l IH]; intros i k Hk; cbn [length] in Hk; [lia|].
  destruct k as [|k]; cbn [update_from nth].
  - rewrite Nat.add_0_r. destruct ((lo <=? i) && (i <? stop)); reflexivity.
  - rewrite IH by lia. replace (S i + k) with (i + S k) by lia. reflexivity.
Qed.

Lemma update_from_compose A (f g : A -> A) lo stop l : forall i,
  update_from i lo stop f (update_from i lo stop g l)
  = update_from i lo stop (fun x => f (g x)) l.
Proof.
  induction l as [|x l IH]; intros i; cbn [update_from]; [reflexivity|].
  rewrite IH. destruct ((lo <=? i) && (i <? stop)); reflexivity.
Qed.

Lemma update_from_ext A (f g : A -> A) lo stop l : forall i,
  (forall x, f x = g x) ->
  update_from i lo stop f l = update_from i lo stop g l.
Proof.
  induction l as [|x l IH]; intros i Hfg; cbn [update_from]; [reflexivity|].
  rewrite (IH (S i) Hfg), Hfg. reflexivity.
Qed.

Lemma skipn_update_from A (f : A -> A) lo stop k : forall l i,
  skipn k (update_from i lo stop f l)
  = update_from (i + k) lo stop f (skipn k l).
Proof.
  induction k as [|k IH]; intros l i.
  - rewrite Nat.add_0_r. reflexivity.
  - destruct l as [|x l]; [reflexivity|]. cbn [update_from skipn].
    rewrite IH. replace (S i + k) with (i + S k) by lia. reflexivity.
Qed.

Lemma firstn_update_from A (f : A -> A) lo stop k : forall l i,
  firstn k (update_from i lo stop f l)
  = update_from i lo stop f (firstn k l).
Proof.
  induction k as [|k IH]; intros l i; [reflexivity|].
  destruct l as [|x l]; [reflexivity|]. cbn [update_from firstn].
  rewrite IH. reflexivity.
Qed.

Lemma update_from_inside A (f : A -> A) lo stop l : forall i,
  lo <= i -> i + length l <= stop ->
  update_from i lo stop f l = map f l.
Proof.
  induction l as [|x l IH]; intros i Hlo Hstop; cbn [length] in Hstop;
    cbn [update_from map]; [reflexivity|].
  rewrite IH by lia.
  assert (E : (lo <=? i) && (i <? stop) = true).
  { apply andb_true_intro. split; [apply Nat.leb_le | apply Nat.ltb_lt]; lia. }
  rewrite E. reflexivity.
Qed.

(** Reading back the slice that was written. *)
Lemma slice_neg_update A (f : A -> A) lo hi l :
  slice_neg lo hi (update_slice_neg lo hi f l) = map f (slice_neg lo hi l).
Proof.
  unfold slice_neg, update_slice_neg, slice.
  rewrite length_update_from.
  set (stop := neg_stop hi (length l)).
  rewrite skipn_update_from, firstn_update_from. cbn [Nat.add].
  destruct (Nat.le_gt_cases stop lo) as [Hle|Hgt].
  - replace (stop - lo) with 0 by lia. reflexivity.
  - apply update_from_inside; [lia|].
    rewrite length_firstn. lia.
Qed.

Lemma update_slice_neg_twice A (f g : A -> A) lo hi l :
  update_slice_neg lo hi f (update_slice_neg lo hi g l)
  = update_slice_neg lo hi (fun x => f (g x)) l.
Proof.
  unfold update_slice_neg. rewrite length_update_from.
  apply update_from_compose.
Qed.

Lemma update_slice_neg_ext A (f g : A -> A) lo hi l :
  (forall x, f x = g x) ->
  update_slice_neg lo hi f l = update_slice_neg lo hi g l.
Proof. intros H. unfold update_slice_neg. apply update_from_ext. exact H. Qed.

Lemma slice2_neg_fill_interior a b x :
  slice2_neg b b b b (fill_interior a b x)
  = map (map (fun _ => x)) (slice2_neg b b b b a).
Proof.
  unfold slice2_neg, fill_interior.
  rewrite slice_neg_update, !map_map.
  apply map_ext. intros row. apply slice_neg_update.
Qed.

Lemma fill_interior_twice a b x :
  fill_interior (fill_interior a b x) b x = fill_interior a b x.
Proof.
  unfold fill_interior. rewrite update_slice_neg_twice.
  apply update_slice_neg_ext. intros row.
  rewrite update_slice_neg_twice. reflexivity.
Qed.

Lemma qz_plus a b : qz (a + b) = (qz a + qz b)%Qc.
Proof.
  unfold qz. apply Qc_is_canon. cbn [this Qcplus Q2Qc].
  rewrite !Qred_correct. rewrite inject_Z_plus. reflexivity.
Qed.

Lemma sumq_constant A (l : list A) x :
  sumq (map (fun _ => x) l) = (qz (Z.of_nat (length l)) * x)%Qc.
Proof.
  induction l as [|y l IH]; cbn [map length].
  - change (qz (Z.of_nat 0)) with 0%Qc. rewrite Qcmult_0_l. reflexivity.
  - rewrite sumq_cons, IH, Nat2Z.inj_succ, <- Z.add_1_r, qz_plus.
    change (qz 1) with 1%Qc. ring.
Qed.

Lemma mean_constant a x :
  flatten a <> [] -> mean (map (map (fun _ => x)) a) = Some x.
Proof.
  intros Hne. unfold mean, flatten in *.
  rewrite <- concat_map.
  destruct (concat a) as [|y rest] eqn:E; [contradiction|].
  cbn [map]. f_equal.
  change (x :: map (fun _ : Qc => x) rest)
    with (map (fun _ : Qc => x) (y :: rest)).
  rewrite sumq_constant, length_map.
  rewrite Qcmult_comm. apply Qcdiv_mult_l.
  apply qz_of_nat_nonzero. cbn. lia.
Qed.

Lemma mean_some_nonempty a m : mean a = Some m -> flatten a <> [].
Proof. unfold mean. destruct (flatten a); [discriminate | discriminate]. Qed.

(** X17. Smoothing is idempotent: the interior already holds its own mean. *)
Theorem smooth_interior_idempotent (u : image) (boarder : nat) :
  smooth_interior (smooth_interior u boarder) boarder
  = smooth_interior u boarder.
Proof.
  unfold smooth_interior at 2 3.
  destruct (mean (slice2_neg boarder boarder boarder boarder u))
    as [m|] eqn:Em.
  - unfold smooth_interior.
    rewrite slice2_neg_fill_interior.
    rewrite mean_constant by (apply mean_some_nonempty with (m := m); exact Em).
    apply fill_interior_twice.
  - unfold smooth_interior. rewrite Em. reflexivity.
Qed.

Lemma nth_slice A (l : list A) lo stop i d :
  i < stop - lo -> nth i (slice lo stop l) d = nth (lo + i) l d.
Proof.
  intros Hi. unfold slice. rewrite nth_firstn.
  apply Nat.ltb_lt in Hi. rewrite Hi. apply nth_skipn.
Qed.

Lemma neg_stop_pos hi n : 0 < hi -> neg_stop hi n = n - hi.
Proof.
  intros H. unfold neg_stop.
  destruct (hi =? 0) eqn:E; [apply Nat.eqb_eq in E; lia | reflexivity].
Qed.

Lemma slice_neg_length A (l : list A) lo hi :
  0 < hi -> length (slice_neg lo hi l) = length l - lo - hi.
Proof.
  intros H. unfold slice_neg. rewrite neg_stop_pos by exact H.
  rewrite slice_length by lia. lia.
Qed.

Lemma has_shape_slice2_neg a h w r0 r1 c0 c1 :
  has_shape a h w -> 0 < r1 -> 0 < c1 ->
  has_shape (slice2_neg r0 r1 c0 c1 a) (h - r0 - r1) (w - c0 - c1).
Proof.
  intros [Hl Hr] H1 H2. unfold slice2_neg. split.
  - rewrite length_map, slice_neg_length by exact H1. rewrite Hl. reflexivity.
  - apply Forall_map. unfold slice_neg at 1. apply Forall_slice.
    eapply Forall_impl; [|exact Hr]. intros row Hrow. cbn beta in Hrow |- *.
    change (length (slice_neg c0 c1 row) = w - c0 - c1).
    rewrite slice_neg_length by exact H2. rewrite Hrow. reflexivity.
Qed.

Lemma get2_slice2_neg a h w r0 r1 c0 c1 i j :
  has_shape a h w -> 0 < r1 -> 0 < c1 ->
  i < h - r0 - r1 -> j < w - c0 - c1 ->
  get2 (slice2_neg r0 r1 c0 c1 a) i j = get2 a (r0 + i) (c0 + j).
Proof.
  intros Ha H1 H2 Hi Hj. unfold get2, slice2_neg.
  pose proof (has_shape_nrows _ _ _ Ha) as Hn. unfold nrows in Hn.
  rewrite nth_indep with (d' := slice_neg c0 c1 [])
    by (rewrite length_map, slice_neg_length by exact H1; lia).
  rewrite (map_nth (slice_neg c0 c1)).
  unfold slice_neg at 2. rewrite neg_stop_pos by exact H1.
  rewrite nth_slice by lia.
  pose proof (has_shape_row a h w (r0 + i) Ha ltac:(lia)) as Hrow.
  unfold slice_neg. rewrite neg_stop_pos by exact H2.
  apply nth_slice. lia.
Qed.

(** X18. The crop of [..._fix_effects]: with positive [end_rows] and
    [end_cols] the cropped frame loses [start + end] rows and columns and
    shows the frame from [(start_rows, start_cols)] on. *)
Theorem crop_borders_spec
    (frame : image) (h w start_rows start_cols end_rows end_cols : nat) :
  has_shape frame h w -> 0 < end_rows -> 0 < end_cols ->
  let cropped := crop_borders frame start_rows start_cols end_rows end_cols in
  has_shape cropped (h - start_rows - end_rows) (w - start_cols - end_cols) /\
  forall i j,
    i < h - start_rows - end_rows -> j < w - start_cols - end_cols ->
    get2 cropped i j = get2 frame (start_rows + i) (start_cols + j).
Proof.
  intros Hf Hr Hc. cbn zeta. unfold crop_borders. split.
  - apply has_shape_slice2_neg; assumption.
  - intros i j Hi Hj. apply get2_slice2_neg with (h := h) (w := w);
      assumption.
Qed.

Lemma concat_all_nil A (l : list (list A)) :
  Forall (fun row => row = []) l -> concat l = [].
Proof.
  induction 1 as [|row l Hrow Hl IH]; cbn; [reflexivity|].
  rewrite Hrow, IH. reflexivity.
Qed.

(** X19. Asking to cut nothing at the bottom or at the right ([end_rows = 0]
    or [end_cols = 0]) does not keep the frame: [-0] is [0], and the crop
    has no pixel left. *)
Theorem crop_borders_zero_end
    (frame : image) (start_rows start_cols end_rows end_cols : nat) :
  end_rows = 0 \/ end_cols = 0 ->
  flatten (crop_borders frame start_rows start_cols end_rows end_cols) = [].
Proof.
  intros [->| ->]; unfold crop_borders, slice2_neg, flatten.
  - unfold slice_neg at 2. cbn [neg_stop Nat.eqb]. unfold slice.
    reflexivity.
  - apply concat_all_nil. apply Forall_map. apply Forall_forall.
    intros row _. unfold slice_neg. cbn [neg_stop Nat.eqb]. unfold slice.
    reflexivity.
Qed.

(** X20. When the margin leaves no interior pixel (a zero margin included,
    because [u[0:-0]] is empty), the mean is [nan], the assignment writes
    nothing and the field is kept as it is. *)
Theorem smooth_interior_no_interior (u : image) (h w boarder : nat) :
  has_shape u h w ->
  boarder = 0 \/ h <= 2 * boarder \/ w <= 2 * boarder ->
  smooth_interior u boarder = u.
Proof.
  intros Hu Hcase. unfold smooth_interior.
  assert (E : flatten (slice2_neg boarder boarder boarder boarder u) = []).
  { destruct (Nat.eq_dec boarder 0) as [->|Hb].
    - reflexivity.
    - apply length_zero_iff_nil. unfold flatten.
      rewrite length_concat_has_shape
        with (h := h - boarder - boarder) (w := w - boarder - boarder)
        by (apply has_shape_slice2_neg; [exact Hu | lia | lia]).
      destruct Hcase as [H0|[H1|H2]]; [lia| |].
      + replace (h - boarder - boarder) with 0 by lia. reflexivity.
      + replace (w - boarder - boarder) with 0 by lia. lia. }
  unfold mean. rewrite E. reflexivity.
Qed.

(** X21. With a positive margin that leaves an interior, every interior entry
    becomes the mean of the old interior entries and the margin is not
    touched. *)
Theorem smooth_interior_spec (u : image) (h w boarder : nat) :
  has_shape u h w -> 0 < boarder -> 2 * boarder < h -> 2 * boarder < w ->
  let region := slice2_neg boarder boarder boarder boarder u in
  exists m,
    mean region = Some m /\
    has_shape region (h - 2 * boarder) (w - 2 * boarder) /\
    (forall i j, i < h - 2 * boarder -> j < w - 2 * boarder ->
       get2 region i j = get2 u (boarder + i) (boarder + j)) /\
    has_shape (smooth_interior u boarder) h w /\
    forall r c, r < h -> c < w ->
      get2 (smooth_interior u boarder) r c
      = if interior h w boarder r c then m else get2 u r c.
Proof.
  intros Hu Hb Hh Hw region.
  assert (Hreg : has_shape region (h - 2 * boarder) (w - 2 * boarder)).
  { replace (h - 2 * boarder) with (h - boarder - boarder) by lia.
    replace (w - 2 * boarder) with (w - boarder - boarder) by lia.
    apply has_shape_slice2_neg; assumption. }
  assert (Hlen : length (flatten region)
                 = (h - 2 * boarder) * (w - 2 * boarder))
    by (apply length_concat_has_shape; exact Hreg).
  assert (Em : exists m, mean region = Some m).
  { unfold mean. destruct (flatten region) as [|x rest]; [|eauto].
    cbn [length] in Hlen. nia. }
  destruct Em as [m Em]. exists m. split; [exact Em|]. split; [exact Hreg|].
  split.
  { intros i j Hi Hj. apply get2_slice2_neg with (h := h) (w := w);
      try assumption; lia. }
  unfold smooth_interior. fold region. rewrite Em.
  destruct Hu as [Hl Hr]. rewrite Forall_forall in Hr.
  assert (Hrow : forall r, r < h -> length (nth r u []) = w)
    by (intros r Hlt; apply Hr, nth_In; lia).
  unfold fill_interior, update_slice_neg. rewrite Hl.
  rewrite neg_stop_pos by exact Hb. split.
  - split; [rewrite length_update_from; exact Hl|].
    apply Forall_forall. intros row Hin.
    apply In_nth with (d := []) in Hin. destruct Hin as [r [Hlt <-]].
    rewrite length_update_from, Hl in Hlt.
    rewrite nth_update_from by lia. cbn [Nat.add].
    destruct ((boarder <=? r) && (r <? h - boarder)).
    + rewrite length_update_from. apply Hrow. exact Hlt.
    + apply Hrow. exact Hlt.
  - intros r c Hlt Hc. unfold get2, interior.
    rewrite nth_update_from by lia. cbn [Nat.add].
    destruct ((boarder <=? r) && (r <? h - boarder)); cbn [andb];
      [|reflexivity].
    rewrite nth_update_from by (rewrite Hrow by exact Hlt; exact Hc).
    cbn [Nat.add]. rewrite (Hrow r Hlt).
    rewrite neg_stop_pos by exact Hb. reflexivity.
Qed.


(** ** A video that does not move *)

Lemma update_from_fixed A (f : A -> A) lo stop l : forall i,
  Forall (fun x => f x = x) l -> update_from i lo stop f l = l.
Proof.
  induction l as [|x l IH]; intros i Hf; cbn [update_from]; [reflexivity|].
  inversion Hf as [|? ? Hx Hl]; subst.
  rewrite IH by exact Hl. rewrite Hx.
  destruct ((lo <=? i) && (i <? stop)); reflexivity.
Qed.

Lemma Forall_repeat A (P : A -> Prop) x n : P x -> Forall P (repeat x n).
Proof.
  intros Hx. apply Forall_forall. intros y Hy.
  apply repeat_spec in Hy. subst y. exact Hx.
Qed.

Lemma fill_interior_full h w c b :
  fill_interior (full h w c) b c = full h w c.
Proof.
  unfold fill_interior, update_slice_neg. apply update_from_fixed.
  unfold full. apply Forall_repeat.
  apply update_from_fixed. apply Forall_repeat. reflexivity.
Qed.

Lemma map_constant_rows (a : image) c :
  Forall (Forall (fun x => x = c)) a -> map (map (fun _ => c)) a = a.
Proof.
  induction 1 as [|row a Hrow Ha IH]; cbn [map]; [reflexivity|].
  rewrite IH. f_equal.
  induction Hrow as [|x row Hx Hr IHr]; cbn [map]; [reflexivity|].
  rewrite IHr, Hx. reflexivity.
Qed.

(** Smoothing leaves a constant field as it is. *)
Lemma smooth_interior_full h w c b :
  smooth_interior (full h w c) b = full h w c.
Proof.
  unfold smooth_interior.
  destruct (mean (slice2_neg b b b b (full h w c))) as [m|] eqn:Em;
    [|reflexivity].
  assert (Hc : Forall (Forall (fun x => x = c))
                 (slice2_neg b b b b (full h w c))).
  { unfold slice2_neg. apply Forall_map. unfold slice_neg at 2.
    apply Forall_slice. unfold full. apply Forall_repeat.
    unfold slice_neg. apply Forall_slice. apply Forall_repeat. reflexivity. }
  pose proof (mean_some_nonempty _ _ Em) as Hne.
  rewrite <- (map_constant_rows _ c Hc) in Em.
  rewrite (mean_constant _ c Hne) in Em.
  apply (f_equal (fun o => match o with Some x => x | None => c end)) in Em.
  cbn beta iota in Em. subst m. apply fill_interior_full.
Qed.

Lemma sparse_step_same_image I ws :
  Nat.odd ws = true -> 0 < nrows I -> 0 < ncols I ->
  faster_lucas_kanade_step I I ws
  = Ok (zeros (nrows I) (ncols I), zeros (nrows I) (ncols I)).
Proof using cornerHarris_shape.
  intros Hodd Hh Hw.
  destruct (Nat.lt_ge_cases (nrows I) MAX_SHAPE) as [Hsh|Hsh];
    [destruct (Nat.lt_ge_cases (ncols I) MAX_SHAPE) as [Hsw|Hsw]|].
  - rewrite faster_lucas_kanade_step_small by assumption.
    apply dense_step_same_image. exact Hodd.
  - destruct (faster_lucas_kanade_step_large I I ws eq_refl eq_refl
                Hodd Hh Hw (or_intror Hsw))
      as [corners [It [du [dv [_ [EIt [E [Sdu [Sdv Hval]]]]]]]]].
    rewrite sub_images_self in EIt. apply Ok_inj in EIt. subst It.
    destruct (zero_pairs_zeros du dv _ _ Sdu Sdv) as [-> ->]; [|exact E].
    intros r c. rewrite Hval. unfold corner_flow.
    destruct (interior (nrows I) (ncols I) (ws / 2) r c) eqn:Hin;
      [|reflexivity].
    destruct (Qc_eq_dec _ _); [reflexivity|].
    rewrite pixel_flow_zero_It; auto using has_shape_convolve2d.
  - destruct (faster_lucas_kanade_step_large I I ws eq_refl eq_refl
                Hodd Hh Hw (or_introl Hsh))
      as [corners [It [du [dv [_ [EIt [E [Sdu [Sdv Hval]]]]]]]]].
    rewrite sub_images_self in EIt. apply Ok_inj in EIt. subst It.
    destruct (zero_pairs_zeros du dv _ _ Sdu Sdv) as [-> ->]; [|exact E].
    intros r c. rewrite Hval. unfold corner_flow.
    destruct (interior (nrows I) (ncols I) (ws / 2) r c) eqn:Hin;
      [|reflexivity].
    destruct (Qc_eq_dec _ _); [reflexivity|].
    rewrite pixel_flow_zero_It; auto using has_shape_convolve2d.
Qed.

Lemma level_iterations_still step L ws max_iter h w :
  step L L ws = Ok (zeros h w, zeros h w) ->
  has_shape L h w -> 2 <= h -> 2 <= w ->
  level_iterations step L L ws max_iter (zeros h w) (zeros h w)
  = Ok (zeros h w, zeros h w).
Proof using resize_same_size griddata_at_points.
  intros Hstep HL Hh Hw. unfold level_iterations.
  rewrite (warp_image_by_zeros L h w HL Hh Hw). cbn [bind].
  rewrite for_each_stable; [reflexivity|].
  intros iter_num _. rewrite Hstep. cbn [bind].
  rewrite add_images_zeros by lia. cbn [bind].
  rewrite (warp_image_by_zeros L h w HL Hh Hw). reflexivity.
Qed.

(** A refiner whose step finds no motion between an image and itself
    returns the zero field on a pair of equal images. *)
Lemma pyramidal_flow_still step I ws max_iter n h w :
  (forall L h' w', has_shape L h' w' -> 0 < h' -> 0 < w' ->
     step L L ws = Ok (zeros h' w', zeros h' w')) ->
  has_shape I h w -> 2 ^ n < h -> 2 ^ n < w ->
  pyramidal_flow step I I ws max_iter n
  = Ok (zeros (ceil_div h (2 ^ n) * 2 ^ n) (ceil_div w (2 ^ n) * 2 ^ n),
        zeros (ceil_div h (2 ^ n) * 2 ^ n) (ceil_div w (2 ^ n) * 2 ^ n)).
Proof using resize_shape resize_same_size resize_zeros griddata_at_points.
  intros Hstep HI Lh Lw.
  set (H := ceil_div h (2 ^ n) * 2 ^ n).
  set (W := ceil_div w (2 ^ n) * 2 ^ n).
  pose proof (pow2_pos n) as Hp.
  assert (PH : 0 < H)
    by (pose proof (ceil_div_mul_ge h (2 ^ n) Hp) as G; unfold H; lia).
  apply pyramidal_flow_keep_zero with (h := h) (w := w); try assumption.
  intros I1' I2' k E1 E2 S1 S2 Hk Bh Bw.
  rewrite E1 in E2. apply Ok_inj in E2. subst I2'.
  destruct (build_pyramid_levels I1' n H W S1 PH) as [_ Lv].
  apply level_iterations_still; auto.
  apply Hstep; [auto | lia | lia].
Qed.

(** One pass of the loop body on a frame equal to the previous one, with
    no motion accumulated so far. *)
Lemma stabilization_step_still flow IMAGE_SIZE ws max_iter n
    frame working out h w :
  resize frame IMAGE_SIZE = Ok working ->
  flow working working ws max_iter n = Ok (zeros h w, zeros h w) ->
  has_shape working h w -> 2 <= h -> 2 <= w ->
  stabilization_step flow IMAGE_SIZE ws max_iter n frame
    (out, (working, zeros h w, zeros h w))
  = Ok (out ++ [working], (working, zeros h w, zeros h w)).
Proof using resize_same_size griddata_at_points.
  intros Er Ef Hs Hh Hw. unfold stabilization_step.
  rewrite Er. cbn [bind]. rewrite Ef. cbn [bind].
  change (zeros h w) with (full h w 0%Qc).
  rewrite smooth_interior_full.
  change (full h w 0%Qc) with (zeros h w).
  rewrite add_images_zeros by lia. cbn [bind].
  rewrite (warp_image_by_zeros working h w Hs Hh Hw). reflexivity.
Qed.

Lemma stabilization_loop_still flow IMAGE_SIZE ws max_iter n
    frame working h w k :
  resize frame IMAGE_SIZE = Ok working ->
  flow working working ws max_iter n = Ok (zeros h w, zeros h w) ->
  has_shape working h w -> 2 <= h -> 2 <= w ->
  forall out,
    for_each (repeat frame k)
      (stabilization_step flow IMAGE_SIZE ws max_iter n)
      (out, (working, zeros h w, zeros h w))
    = Ok (out ++ repeat working k, (working, zeros h w, zeros h w)).
Proof using resize_same_size griddata_at_points.
  intros Er Ef Hs Hh Hw.
  induction k as [|k IH]; intros out; cbn [repeat for_each].
  - rewrite app_nil_r. reflexivity.
  - rewrite (stabilization_step_still flow IMAGE_SIZE ws max_iter n
               frame working out h w Er Ef Hs Hh Hw).
    cbn [bind]. rewrite IH. rewrite <- app_assoc. reflexivity.
Qed.

(** X22. A video that does not move comes back as it went in: when every
    frame equals the first one, both drivers accumulate no motion and
    return, for every frame, the first frame at its working size.  The
    frames are higher and wider than [2 ^ num_levels] pixels, so that the
    coarsest pyramid level keeps two rows and two columns. *)
Theorem stabilization_static_video
    (I : image) (window_size max_iter num_levels h w k : nat) :
  has_shape I h w -> 2 ^ num_levels < h -> 2 ^ num_levels < w ->
  Nat.odd window_size = true ->
  let H := ceil_div h (2 ^ num_levels) * 2 ^ num_levels in
  let W := ceil_div w (2 ^ num_levels) * 2 ^ num_levels in
  exists working,
    fit_size I (image_size I num_levels) = Ok working /\
    has_shape working H W /\
    lucas_kanade_video_stabilization window_size max_iter num_levels
      I (repeat I k) = Ok (repeat working k) /\
    lucas_kanade_faster_video_stabilization window_size max_iter num_levels
      I (repeat I k) = Ok (repeat working k).
Proof using cornerHarris_shape resize_shape resize_same_size resize_zeros
            griddata_at_points.
  intros HI Lh Lw Hodd H W.
  pose proof (pow2_pos num_levels) as Hp.
  assert (Hh : 0 < h) by lia. assert (Hw : 0 < w) by lia.
  assert (HH : h <= H) by (apply ceil_div_mul_ge; exact Hp).
  assert (HW : w <= W) by (apply ceil_div_mul_ge; exact Hp).
  assert (PH : 0 < H) by lia. assert (PW : 0 < W) by lia.
  assert (Esize : image_size I num_levels = (W, H)).
  { unfold image_size.
    rewrite (has_shape_nrows _ _ _ HI), (has_shape_ncols _ _ _ HI Hh).
    reflexivity. }
  destruct (fit_size_shape I h w H W HI Hh Hw PH PW ltac:(lia))
    as [working [Ew Sw]].
  assert (Er : resize I (W, H) = Ok working).
  { revert Ew. unfold fit_size. cbn [fst snd].
    rewrite (has_shape_nrows _ _ _ HI), (has_shape_ncols _ _ _ HI Hh).
    destruct ((h =? W) && (w =? H)) eqn:E; [|intros Ew; exact Ew].
    apply andb_prop in E. destruct E as [E1 E2].
    apply Nat.eqb_eq in E1, E2. intros Ew. apply Ok_inj in Ew. subst working.
    assert (Eh : H = h) by lia. assert (Ewd : W = w) by lia.
    rewrite Eh, Ewd. apply resize_same_size; assumption. }
  assert (EH : ceil_div H (2 ^ num_levels) * 2 ^ num_levels = H)
    by (unfold H; rewrite ceil_div_multiple by exact Hp; reflexivity).
  assert (EW : ceil_div W (2 ^ num_levels) * 2 ^ num_levels = W)
    by (unfold W; rewrite ceil_div_multiple by exact Hp; reflexivity).
  assert (BH : 2 <= H) by lia. assert (BW : 2 <= W) by lia.
  assert (LH : 2 ^ num_levels < H) by lia.
  assert (LW : 2 ^ num_levels < W) by lia.
  exists working. split; [rewrite Esize; exact Ew|]. split; [exact Sw|].
  split.
  - unfold lucas_kanade_video_stabilization, stabilize_frames.
    rewrite Esize, Ew. cbn [bind].
    rewrite (has_shape_nrows _ _ _ Sw), (has_shape_ncols _ _ _ Sw PH).
    rewrite (stabilization_loop_still lucas_kanade_optical_flow (W, H)
               window_size max_iter num_levels I working H W k Er);
      [reflexivity | | exact Sw | exact BH | exact BW].
    unfold lucas_kanade_optical_flow.
    rewrite (pyramidal_flow_still lucas_kanade_step working window_size
               max_iter num_levels H W);
      [rewrite EH, EW; reflexivity | | exact Sw | exact LH | exact LW].
    intros L h' w' HL Hh' Hw'.
    rewrite (dense_step_same_image L window_size Hodd).
    rewrite (has_shape_nrows _ _ _ HL), (has_shape_ncols _ _ _ HL Hh').
    reflexivity.
  - unfold lucas_kanade_faster_video_stabilization, stabilize_frames.
    rewrite Esize, Ew. cbn [bind].
    rewrite (has_shape_nrows _ _ _ Sw), (has_shape_ncols _ _ _ Sw PH).
    rewrite (stabilization_loop_still faster_lucas_kanade_optical_flow (W, H)
               window_size max_iter num_levels I working H W k Er);
      [reflexivity | | exact Sw | exact BH | exact BW].
    unfold faster_lucas_kanade_optical_flow.
    rewrite (pyramidal_flow_still faster_lucas_kanade_step working
               window_size max_iter num_levels H W);
      [rewrite EH, EW; reflexivity | | exact Sw | exact LH | exact LW].
    intros L h' w' HL Hh' Hw'.
    pose proof (has_shape_nrows _ _ _ HL) as En.
    pose proof (has_shape_ncols _ _ _ HL Hh') as Ec.
    rewrite (sparse_step_same_image L window_size Hodd)
      by (rewrite ?En, ?Ec; assumption).
    rewrite En, Ec. reflexivity.
Qed.

End Flow.

(** ** The reference instances meet the contracts *)

Lemma harris_response_shape src blockSize ksize k :
  has_shape (harris_response src blockSize ksize k) (nrows src) (ncols src).
Proof. unfold harris_response. cbv zeta. apply has_shape_tabulate. Qed.

Lemma tabulate_get2 a h w :
  has_shape a h w ->
  map (fun i => map (fun j => get2 a i j) (seq 0 w)) (seq 0 h) = a.
Proof.
  intros [Hl Hr]. subst h.
  transitivity (map (fun i => nth i a []) (seq 0 (length a)));
    [|apply nth_seq_map].
  apply map_ext_in. intros i Hi. apply in_seq in Hi.
  rewrite Forall_forall in Hr.
  assert (Hrow : length (nth i a []) = w) by (apply Hr, nth_In; lia).
  rewrite <- Hrow. unfold get2. apply nth_seq_map.
Qed.

Lemma resize_nearest_shape src w h :
  0 < nrows src -> 0 < ncols src -> 0 < w -> 0 < h ->
  exists dst, resize_nearest src (w, h) = Ok dst /\ has_shape dst h w.
Proof.
  intros H1 H2 H3 H4. unfold resize_nearest.
  destruct (nrows src =? 0) eqn:E1; [apply Nat.eqb_eq in E1; lia|].
  destruct (ncols src =? 0) eqn:E2; [apply Nat.eqb_eq in E2; lia|].
  destruct (w =? 0) eqn:E3; [apply Nat.eqb_eq in E3; lia|].
  destruct (h =? 0) eqn:E4; [apply Nat.eqb_eq in E4; lia|].
  cbn [orb]. eexists. split; [reflexivity|].
  apply (has_shape_tabulate
           (fun i j => get2 src (i * nrows src / h) (j * ncols src / w))).
Qed.

Lemma resize_nearest_same_size src h w :
  has_shape src h w -> 0 < h -> 0 < w -> resize_nearest src (w, h) = Ok src.
Proof.
  intros Hs Hh Hw. unfold resize_nearest.
  rewrite (has_shape_nrows _ _ _ Hs), (has_shape_ncols _ _ _ Hs Hh).
  destruct (h =? 0) eqn:E1; [apply Nat.eqb_eq in E1; lia|].
  destruct (w =? 0) eqn:E2; [apply Nat.eqb_eq in E2; lia|].
  cbn [orb]. f_equal.
  transitivity (map (fun i => map (fun j => get2 src i j) (seq 0 w)) (seq 0 h));
    [|apply tabulate_get2; exact Hs].
  apply map_ext. intros i. apply map_ext. intros j.
  rewrite !Nat.div_mul by lia. reflexivity.
Qed.


Lemma inv_exact_zero_line a b c d :
  (a = 0%Qc /\ b = 0%Qc) \/ (c = 0%Qc /\ d = 0%Qc) \/
  (a = 0%Qc /\ c = 0%Qc) \/ (b = 0%Qc /\ d = 0%Qc) ->
  inv_exact [[a; b]; [c; d]] = None.
Proof.
  intros Hzero. unfold inv_exact.
  destruct (Qc_eq_dec (a * d - b * c) 0) as [_|N]; [reflexivity|].
  exfalso. apply N.
  destruct Hzero as [[-> ->]|[[-> ->]|[[-> ->]|[-> ->]]]]; ring.
Qed.

Lemma constantb_spec l :
  constantb l = true <-> forall x, In x l -> x = hd 0%Qc l.
Proof.
  unfold constantb. rewrite forallb_forall. split; intros H x Hx.
  - specialize (H x Hx). destruct (Qc_eq_dec x (hd 0%Qc l)); congruence.
  - destruct (Qc_eq_dec x (hd 0%Qc l)) as [_|N]; [reflexivity|].
    exfalso. apply N, H, Hx.
Qed.

Lemma griddata_exact_degenerate points values xi :
  fst points <> [] ->
  length (snd points) = length (fst points) ->
  length values = length (fst points) ->
  on_axis_line points ->
  griddata_exact points values xi = Err QhullError.
Proof.
  intros _ _ _ Hline. unfold griddata_exact.
  destruct Hline as [Hx|Hy].
  - rewrite (proj2 (constantb_spec _) Hx). reflexivity.
  - rewrite (proj2 (constantb_spec _) Hy), orb_true_r. reflexivity.
Qed.

Lemma spans_plane_not_constant points :
  spans_plane points -> length (snd points) = length (fst points) ->
  constantb (fst points) || constantb (snd points) = false.
Proof.
  intros [i [j [k [Hi [Hj [Hk Hcross]]]]]] Hlen.
  apply orb_false_iff. split; apply not_true_is_false; intros Hc;
    pose proof (proj1 (constantb_spec _) Hc) as Hall; apply Hcross;
    unfold cross, point_at; cbn [fst snd].
  - rewrite (Hall (nth i (fst points) 0%Qc)) by (apply nth_In; exact Hi).
    rewrite (Hall (nth j (fst points) 0%Qc)) by (apply nth_In; exact Hj).
    rewrite (Hall (nth k (fst points) 0%Qc)) by (apply nth_In; exact Hk).
    ring.
  - rewrite (Hall (nth i (snd points) 0%Qc)) by (apply nth_In; lia).
    rewrite (Hall (nth j (snd points) 0%Qc)) by (apply nth_In; lia).
    rewrite (Hall (nth k (snd points) 0%Qc)) by (apply nth_In; lia).
    ring.
Qed.

Lemma griddata_exact_length points values xi :
  spans_plane points ->
  length (snd points) = length (fst points) ->
  length values = length (fst points) ->
  length (fst xi) = length (snd xi) ->
  exists interpolated,
    griddata_exact points values xi = Ok interpolated /\
    length interpolated = length (fst xi).
Proof.
  intros Hspan Hlen _ H. unfold griddata_exact.
  rewrite (spans_plane_not_constant points Hspan Hlen).
  eexists. split; [reflexivity|]. rewrite length_map2. lia.
Qed.

Lemma lookup_point_nth xs : forall ys values i,
  length xs = length values -> length ys = length values ->
  NoDup (combine xs ys) -> i < length values ->
  lookup_point xs ys values (nth i xs 0%Qc) (nth i ys 0%Qc)
  = Some (nth i values 0%Qc).
Proof.
  induction xs as [|x0 xs IH]; intros [|y0 ys] [|v values] i Lx Ly Hnd Hi;
    cbn [length] in *; try lia.
  cbn [combine] in Hnd. apply NoDup_cons_iff in Hnd. destruct Hnd as [Hnotin Hnd].
  destruct i as [|i]; cbn [nth lookup_point].
  - destruct (Qc_eq_dec x0 x0) as [_|N]; [|contradiction].
    destruct (Qc_eq_dec y0 y0) as [_|N]; [|contradiction]. reflexivity.
  - assert (Hin : In (nth i xs 0%Qc, nth i ys 0%Qc) (combine xs ys)).
    { rewrite <- combine_nth by lia. apply nth_In.
      rewrite length_combine. lia. }
    destruct (Qc_eq_dec (nth i xs 0%Qc) x0) as [Ex|Nx].
    + destruct (Qc_eq_dec (nth i ys 0%Qc) y0) as [Ey|Ny].
      * exfalso. apply Hnotin. rewrite <- Ex, <- Ey. exact Hin.
      * apply IH; try lia. exact Hnd.
    + apply IH; try lia. exact Hnd.
Qed.

Lemma griddata_exact_at_points points values :
  spans_plane points ->
  length (fst points) = length values ->
  length (snd points) = length values ->
  NoDup (combine (fst points) (snd points)) ->
  griddata_exact points values points = Ok (map Some values).
Proof.
  intros Hspan Lx Ly Hnd. unfold griddata_exact.
  rewrite (spans_plane_not_constant points Hspan) by congruence.
  destruct points as [xs ys]. cbn [fst snd] in Lx, Ly, Hnd |- *. f_equal.
  apply nth_ext with (d := None) (d' := Some 0%Qc).
  - rewrite length_map2, length_map. lia.
  - intros i Hi. rewrite length_map2 in Hi.
    rewrite nth_map2 with (dl := 0%Qc) (dm := 0%Qc) by lia.
    rewrite (map_nth Some). apply lookup_point_nth; try assumption. lia.
Qed.

Lemma resize_nearest_zeros h w w' h' :
  0 < h -> 0 < w -> 0 < w' -> 0 < h' ->
  resize_nearest (zeros h w) (w', h') = Ok (zeros h' w').
Proof.
  intros Hh Hw Hw' Hh'. unfold resize_nearest.
  rewrite (has_shape_nrows _ _ _ (has_shape_zeros h w)).
  rewrite (has_shape_ncols _ _ _ (has_shape_zeros h w) Hh).
  destruct (h =? 0) eqn:E1; [apply Nat.eqb_eq in E1; lia|].
  destruct (w =? 0) eqn:E2; [apply Nat.eqb_eq in E2; lia|].
  destruct (w' =? 0) eqn:E3; [apply Nat.eqb_eq in E3; lia|].
  destruct (h' =? 0) eqn:E4; [apply Nat.eqb_eq in E4; lia|].
  cbn [orb]. f_equal.
  symmetry. unfold zeros at 1. symmetry.
  rewrite map_const with (y := repeat 0%Qc w');
    [rewrite length_seq; reflexivity|].
  intros i. rewrite map_const with (y := 0%Qc);
    [rewrite length_seq; reflexivity|].
  intros j. apply get2_zeros.
Qed.

(** ** The theorems at the sample inputs *)

Lemma has_shape_sample_I1 : has_shape sample_I1 3 3.
Proof. split; [reflexivity | repeat constructor]. Qed.

Lemma has_shape_sample_I2 : has_shape sample_I2 3 3.
Proof. split; [reflexivity | repeat constructor]. Qed.

Lemma has_shape_sample_4x4 : has_shape sample_4x4 4 4.
Proof. split; [reflexivity | repeat constructor]. Qed.

Lemma has_shape_sample_1x3 : has_shape sample_1x3 1 3.
Proof. split; [reflexivity | repeat constructor]. Qed.

Lemma integer_samples_qz (bound : Z) (zs : list (list Z)) :
  forallb (forallb (fun z => (Z.abs z <=? bound)%Z)) zs = true ->
  integer_samples bound (map (map qz) zs).
Proof.
  intros H. unfold integer_samples.
  apply Forall_forall. intros row Hrow.
  apply in_map_iff in Hrow. destruct Hrow as [zrow [<- Hin]].
  apply Forall_forall. intros x Hx.
  apply in_map_iff in Hx. destruct Hx as [z [<- Hz]].
  exists z. split; [reflexivity|].
  rewrite forallb_forall in H. specialize (H zrow Hin).
  rewrite forallb_forall in H. apply Z.leb_le. exact (H z Hz).
Qed.

Lemma integer_samples_sample_I1 : integer_samples (2 ^ 40) sample_I1.
Proof. apply integer_samples_qz. reflexivity. Qed.

Lemma integer_samples_sample_I2 : integer_samples (2 ^ 40) sample_I2.
Proof. apply integer_samples_qz. reflexivity. Qed.

Lemma lucas_kanade_step_zero_motion_witness :
  Nat.odd 3 = true /\
  lucas_kanade_step inv_exact sample_I1 sample_I1 3
  = Ok (zeros (nrows sample_I1) (ncols sample_I1),
        zeros (nrows sample_I1) (ncols sample_I1)).
Proof.
  split; [reflexivity|].
  exact (lucas_kanade_step_zero_motion inv_exact sample_I1 3 eq_refl).
Defined.

Lemma lucas_kanade_step_border_witness :
  shape sample_I1 = shape sample_I2 /\ Nat.odd 3 = true /\
  exists du dv,
    lucas_kanade_step inv_exact sample_I1 sample_I2 3 = Ok (du, dv) /\
    has_shape du (nrows sample_I1) (ncols sample_I1) /\
    has_shape dv (nrows sample_I1) (ncols sample_I1) /\
    forall r c,
      r < 3 / 2 \/ nrows sample_I1 - 3 / 2 <= r \/
      c < 3 / 2 \/ ncols sample_I1 - 3 / 2 <= c ->
      get2 du r c = 0%Qc /\ get2 dv r c = 0%Qc.
Proof.
  split; [reflexivity|]. split; [reflexivity|].
  exact (lucas_kanade_step_border inv_exact sample_I1 sample_I2 3
           eq_refl eq_refl).
Defined.

Lemma lucas_kanade_step_rejects_unbroadcastable_witness :
  (unbroadcastable (nrows sample_2x3) (nrows sample_I2) \/
   unbroadcastable (ncols sample_2x3) (ncols sample_I2)) /\
  lucas_kanade_step inv_exact sample_2x3 sample_I2 3 = Err ValueError.
Proof.
  assert (H : unbroadcastable (nrows sample_2x3) (nrows sample_I2) \/
              unbroadcastable (ncols sample_2x3) (ncols sample_I2)).
  { left. cbv. repeat split; discriminate. }
  split; [exact H|].
  exact (lucas_kanade_step_rejects_unbroadcastable inv_exact
           sample_2x3 sample_I2 3 H).
Defined.

(** C10, as stated, fails: an image of shape (1, 3) against one of shape
    (3, 3) is accepted, the subtraction broadcasting the single row,
    whatever [np.linalg.inv] does on the windows. *)
Lemma lucas_kanade_step_accepts_broadcast :
  ~ (exists inv : image -> option image,
       forall (I1 I2 : image) (window_size : nat),
         shape I1 <> shape I2 ->
         exists e, lucas_kanade_step inv I1 I2 window_size = Err e).
Proof.
  intros [inv H].
  destruct (H sample_1x3 sample_I2 1) as [e E].
  - cbv. discriminate.
  - destruct (lucas_kanade_step_broadcast_row_accepted inv) as [s Es].
    rewrite Es in E. discriminate.
Qed.

Lemma warp_image_zero_field_witness :
  has_shape sample_I1 3 3 /\ 2 <= 3 /\ 2 <= 3 /\
  warp_image resize_nearest griddata_exact sample_I1 (zeros 3 3) (zeros 3 3)
  = Ok sample_I1.
Proof.
  split; [exact has_shape_sample_I1|].
  split; [exact (le_S 2 2 (le_n 2))|]. split; [exact (le_S 2 2 (le_n 2))|].
  exact (warp_image_zero_field resize_nearest griddata_exact
           resize_nearest_same_size griddata_exact_at_points
           sample_I1 3 3 has_shape_sample_I1
           (le_S 2 2 (le_n 2)) (le_S 2 2 (le_n 2))).
Defined.

(** C3, as stated, fails on an image of a single row: the pixel grid lies
    on one line, [griddata] cannot triangulate it and the warp raises. *)
Lemma warp_image_zero_field_one_row :
  has_shape sample_1x3 1 3 /\
  warp_image resize_nearest griddata_exact sample_1x3 (zeros 1 3) (zeros 1 3)
  = Err QhullError.
Proof.
  split; [exact has_shape_sample_1x3|].
  vm_compute. reflexivity.
Qed.


Lemma warp_image_fills_holes_witness :
  has_shape sample_I1 3 3 /\ 2 <= 3 /\ 2 <= 3 /\
  0 < nrows sample_field /\ 0 < ncols sample_field /\
  0 < nrows sample_field /\ 0 < ncols sample_field /\
  exists field xi interpolated out,
    rescale_field resize_nearest sample_I1 sample_field sample_field
    = Ok field /\
    query_points sample_I1 (fst field) (snd field) = Ok xi /\
    griddata_exact (grid_points sample_I1) (flatten sample_I1) xi
    = Ok interpolated /\
    warp_image resize_nearest griddata_exact sample_I1 sample_field
               sample_field = Ok out /\
    has_shape out 3 3 /\
    forall r c, r < 3 -> c < 3 ->
      get2 out r c =
      match nth (r * 3 + c) interpolated None with
      | Some y => y
      | None => get2 sample_I1 r c
      end.
Proof.
  split; [exact has_shape_sample_I1|].
  split; [exact (le_S 2 2 (le_n 2))|]. split; [exact (le_S 2 2 (le_n 2))|].
  split; [exact (Nat.lt_0_succ 1)|]. split; [exact (Nat.lt_0_succ 1)|].
  split; [exact (Nat.lt_0_succ 1)|]. split; [exact (Nat.lt_0_succ 1)|].
  exact (warp_image_fills_holes resize_nearest griddata_exact
           resize_nearest_shape griddata_exact_length
           sample_I1 sample_field sample_field 3 3 has_shape_sample_I1
           (le_S 2 2 (le_n 2)) (le_S 2 2 (le_n 2))
           (Nat.lt_0_succ 1) (Nat.lt_0_succ 1)
           (Nat.lt_0_succ 1) (Nat.lt_0_succ 1)).
Defined.

(** C6, as stated for every image and every pair of fields, fails twice:
    on an image of a single column the interpolation raises, and with a
    field that has a row but no column the rescaling divides by zero. *)
Lemma warp_image_fills_holes_fails :
  warp_image resize_nearest griddata_exact
    (transpose sample_1x3) sample_field sample_field = Err QhullError /\
  warp_image resize_nearest griddata_exact sample_I1 [[]] [[]]
  = Err ZeroDivisionError.
Proof. split; vm_compute; reflexivity. Qed.

Lemma warp_image_flat_grid_witness :
  has_shape sample_1x3 1 3 /\ 0 < 1 /\ 0 < 3 /\ (1 = 1 \/ 3 = 1) /\
  0 < nrows sample_field /\ 0 < ncols sample_field /\
  0 < nrows sample_field /\ 0 < ncols sample_field /\
  warp_image resize_nearest griddata_exact sample_1x3 sample_field
    sample_field = Err QhullError.
Proof.
  split; [exact has_shape_sample_1x3|].
  split; [exact (Nat.lt_0_succ 0)|]. split; [exact (Nat.lt_0_succ 2)|].
  split; [left; reflexivity|].
  split; [exact (Nat.lt_0_succ 1)|]. split; [exact (Nat.lt_0_succ 1)|].
  split; [exact (Nat.lt_0_succ 1)|]. split; [exact (Nat.lt_0_succ 1)|].
  exact (warp_image_flat_grid resize_nearest griddata_exact
           resize_nearest_shape griddata_exact_degenerate
           sample_1x3 sample_field sample_field 1 3 has_shape_sample_1x3
           (Nat.lt_0_succ 0) (Nat.lt_0_succ 2) (or_introl eq_refl)
           (Nat.lt_0_succ 1) (Nat.lt_0_succ 1)
           (Nat.lt_0_succ 1) (Nat.lt_0_succ 1)).
Defined.

Lemma warp_image_rescales_field_witness :
  0 < nrows sample_4x4 /\ 0 < ncols sample_4x4 /\
  0 < nrows sample_field /\ 0 < ncols sample_field /\
  0 < nrows sample_field /\ 0 < ncols sample_field /\
  ncols sample_4x4 = 2 * ncols sample_field /\
  nrows sample_4x4 = 2 * nrows sample_field /\
  exists u_resized v_resized field xi,
    resize_nearest sample_field (ncols sample_4x4, nrows sample_4x4)
    = Ok u_resized /\
    resize_nearest sample_field (ncols sample_4x4, nrows sample_4x4)
    = Ok v_resized /\
    rescale_field resize_nearest sample_4x4 sample_field sample_field
    = Ok field /\
    query_points sample_4x4 (fst field) (snd field) = Ok xi /\
    forall r c,
      get2 (fst field) r c = (get2 u_resized r c * qz 2)%Qc /\
      get2 (snd field) r c = (get2 v_resized r c * qz 2)%Qc.
Proof.
  split; [exact (Nat.lt_0_succ 3)|]. split; [exact (Nat.lt_0_succ 3)|].
  split; [exact (Nat.lt_0_succ 1)|]. split; [exact (Nat.lt_0_succ 1)|].
  split; [exact (Nat.lt_0_succ 1)|]. split; [exact (Nat.lt_0_succ 1)|].
  split; [reflexivity|]. split; [reflexivity|].
  destruct (warp_image_rescales_field resize_nearest griddata_exact
              resize_nearest_shape sample_4x4 sample_field sample_field
              (Nat.lt_0_succ 3) (Nat.lt_0_succ 3)
              (Nat.lt_0_succ 1) (Nat.lt_0_succ 1)
              (Nat.lt_0_succ 1) (Nat.lt_0_succ 1))
    as [ur [vr [field [xi [Eu [Ev [_ [_ [Ef [Exi [_ [_ [_ Hdouble]]]]]]]]]]]]].
  exists ur, vr, field, xi.
  split; [exact Eu|]. split; [exact Ev|]. split; [exact Ef|].
  split; [exact Exi|]. exact (Hdouble eq_refl eq_refl).
Defined.



Lemma optical_flow_coarsest_level_flat_witness :
  has_shape sample_4x4 4 4 /\ has_shape sample_4x4 4 4 /\ 0 < 4 /\ 0 < 4 /\
  (4 <= 2 ^ 2 \/ 4 <= 2 ^ 2) /\
  lucas_kanade_optical_flow inv_exact resize_nearest griddata_exact
    sample_4x4 sample_4x4 3 2 2 = Err QhullError /\
  faster_lucas_kanade_optical_flow inv_exact resize_nearest harris_response
    griddata_exact sample_4x4 sample_4x4 3 2 2 = Err QhullError.
Proof.
  split; [exact has_shape_sample_4x4|]. split; [exact has_shape_sample_4x4|].
  split; [exact (Nat.lt_0_succ 3)|]. split; [exact (Nat.lt_0_succ 3)|].
  split; [left; exact (le_n 4)|].
  exact (optical_flow_coarsest_level_flat inv_exact resize_nearest
           harris_response griddata_exact resize_nearest_shape
           griddata_exact_degenerate sample_4x4 sample_4x4 3 2 2 4 4
           has_shape_sample_4x4 has_shape_sample_4x4
           (Nat.lt_0_succ 3) (Nat.lt_0_succ 3) (or_introl (le_n 4))).
Defined.


Lemma has_shape_sample_4x4_multiple :
  has_shape sample_4x4 (2 * 2 ^ 1) (2 * 2 ^ 1).
Proof. exact has_shape_sample_4x4. Qed.

Lemma has_shape_sample_4x4_quad :
  has_shape sample_4x4 (1 * 2 ^ 2) (1 * 2 ^ 2).
Proof. exact has_shape_sample_4x4. Qed.

Lemma lucas_kanade_step_even_window_rejected_witness :
  shape sample_4x4 = shape sample_4x4 /\ Nat.even 2 = true /\
  2 / 2 < nrows sample_4x4 - 2 / 2 /\ 2 / 2 < ncols sample_4x4 - 2 / 2 /\
  lucas_kanade_step inv_exact sample_4x4 sample_4x4 2 = Err ValueError.
Proof.
  split; [reflexivity|]. split; [reflexivity|].
  split; [vm_compute; lia|]. split; [vm_compute; lia|].
  apply (lucas_kanade_step_even_window_rejected inv_exact
           sample_4x4 sample_4x4 2);
    [reflexivity | reflexivity | vm_compute; lia | vm_compute; lia].
Defined.

Lemma lucas_kanade_step_no_interior_witness :
  shape sample_1x3 = shape sample_1x3 /\
  (nrows sample_1x3 <= 2 * (3 / 2) \/ ncols sample_1x3 <= 2 * (3 / 2)) /\
  lucas_kanade_step inv_exact sample_1x3 (offset sample_1x3 (qz 4)) 3
  = Ok (zeros 1 3, zeros 1 3).
Proof.
  split; [reflexivity|]. split; [left; vm_compute; lia|].
  apply (lucas_kanade_step_no_interior inv_exact
           sample_1x3 (offset sample_1x3 (qz 4)) 3);
    [reflexivity | left; vm_compute; lia].
Defined.

Lemma faster_lucas_kanade_step_zero_motion_witness :
  Nat.odd 3 = true /\ 0 < nrows sample_I1 /\ 0 < ncols sample_I1 /\
  faster_lucas_kanade_step inv_exact harris_response sample_I1 sample_I1 3
  = Ok (zeros 3 3, zeros 3 3).
Proof.
  split; [reflexivity|].
  split; [exact (Nat.lt_0_succ 2)|]. split; [exact (Nat.lt_0_succ 2)|].
  exact (faster_lucas_kanade_step_zero_motion inv_exact harris_response
           harris_response_shape sample_I1 3 eq_refl
           (Nat.lt_0_succ 2) (Nat.lt_0_succ 2)).
Defined.

Lemma faster_lucas_kanade_step_border_witness :
  shape sample_I1 = shape sample_I2 /\ Nat.odd 3 = true /\
  0 < nrows sample_I1 /\ 0 < ncols sample_I1 /\
  exists du dv,
    faster_lucas_kanade_step inv_exact harris_response sample_I1 sample_I2 3
    = Ok (du, dv) /\
    has_shape du 3 3 /\ has_shape dv 3 3 /\
    forall r c,
      r < 3 / 2 \/ nrows sample_I1 - 3 / 2 <= r \/
      c < 3 / 2 \/ ncols sample_I1 - 3 / 2 <= c ->
      get2 du r c = 0%Qc /\ get2 dv r c = 0%Qc.
Proof.
  split; [reflexivity|]. split; [reflexivity|].
  split; [exact (Nat.lt_0_succ 2)|]. split; [exact (Nat.lt_0_succ 2)|].
  exact (faster_lucas_kanade_step_border inv_exact harris_response
           harris_response_shape sample_I1 sample_I2 3 eq_refl eq_refl
           (Nat.lt_0_succ 2) (Nat.lt_0_succ 2)).
Defined.

Lemma faster_lucas_kanade_optical_flow_shape_witness :
  has_shape sample_I1 3 3 /\ has_shape sample_I2 3 3 /\
  2 ^ 1 < 3 /\ 2 ^ 1 < 3 /\ Nat.odd 3 = true /\
  exists u v,
    faster_lucas_kanade_optical_flow inv_exact resize_nearest harris_response
      griddata_exact sample_I1 sample_I2 3 2 1 = Ok (u, v) /\
    has_shape u 4 4 /\ has_shape v 4 4 /\
    Nat.divide (2 ^ 1) 4 /\ Nat.divide (2 ^ 1) 4.
Proof.
  split; [exact has_shape_sample_I1|]. split; [exact has_shape_sample_I2|].
  split; [exact (le_n 3)|]. split; [exact (le_n 3)|].
  split; [reflexivity|].
  exact (faster_lucas_kanade_optical_flow_shape inv_exact resize_nearest
           harris_response griddata_exact harris_response_shape
           resize_nearest_shape griddata_exact_length
           sample_I1 sample_I2 3 2 1 3 3
           has_shape_sample_I1 has_shape_sample_I2
           (le_n 3) (le_n 3) eq_refl).
Defined.

Lemma fit_size_multiple_unchanged_witness :
  has_shape sample_4x4 (2 * 2 ^ 1) (2 * 2 ^ 1) /\ 0 < 2 /\ 0 < 2 /\
  image_size sample_4x4 1 = (4, 4) /\
  fit_size resize_nearest sample_4x4 (image_size sample_4x4 1)
  = Ok sample_4x4.
Proof.
  split; [exact has_shape_sample_4x4_multiple|].
  split; [exact (Nat.lt_0_succ 1)|]. split; [exact (Nat.lt_0_succ 1)|].
  exact (fit_size_multiple_unchanged resize_nearest resize_nearest_same_size
           sample_4x4 1 2 2 has_shape_sample_4x4_multiple
           (Nat.lt_0_succ 1) (Nat.lt_0_succ 1)).
Defined.

Lemma build_pyramid_compose_witness :
  1 <= 1 /\
  nth (1 + 1) (build_pyramid sample_4x4 (1 + 1)) []
  = nth 1 (build_pyramid (nth 1 (build_pyramid sample_4x4 1) []) 1) [].
Proof.
  split; [exact (le_n 1)|].
  exact (build_pyramid_compose sample_4x4 1 1 1 (le_n 1)).
Defined.

Lemma build_pyramid_exact_halving_witness :
  has_shape sample_4x4 (1 * 2 ^ 2) (1 * 2 ^ 2) /\ 0 < 1 /\ 1 <= 2 /\
  has_shape (nth 1 (build_pyramid sample_4x4 2) []) 2 2.
Proof.
  split; [exact has_shape_sample_4x4_quad|].
  split; [exact (Nat.lt_0_succ 0)|]. split; [exact (le_S 1 1 (le_n 1))|].
  exact (build_pyramid_exact_halving sample_4x4 2 1 1 1
           has_shape_sample_4x4_quad (Nat.lt_0_succ 0) (le_S 1 1 (le_n 1))).
Defined.

Lemma warp_image_empty_field_witness :
  ((0 < nrows [[]] /\ ncols [[]] = 0) \/ nrows sample_field = 0) /\
  warp_image resize_nearest griddata_exact sample_I1 [[]] sample_field
  = Err ZeroDivisionError.
Proof.
  split; [left; split; [exact (Nat.lt_0_succ 0) | reflexivity]|].
  exact (warp_image_empty_field resize_nearest griddata_exact sample_I1
           [[]] sample_field
           (or_introl (conj (Nat.lt_0_succ 0) eq_refl))).
Defined.


Lemma lucas_kanade_step_offset_invariant_witness :
  has_shape sample_I1 3 3 /\ has_shape sample_I2 3 3 /\
  integer_samples (2 ^ 40) sample_I1 /\ integer_samples (2 ^ 40) sample_I2 /\
  (Z.abs 5 <= 2 ^ 40)%Z /\
  lucas_kanade_step inv_exact (offset sample_I1 (qz 5))
    (offset sample_I2 (qz 5)) 3
  = lucas_kanade_step inv_exact sample_I1 sample_I2 3.
Proof.
  assert (Hk : (Z.abs 5 <= 2 ^ 40)%Z) by (vm_compute; discriminate).
  split; [exact has_shape_sample_I1|]. split; [exact has_shape_sample_I2|].
  split; [exact integer_samples_sample_I1|].
  split; [exact integer_samples_sample_I2|].
  split; [exact Hk|].
  exact (lucas_kanade_step_offset_invariant inv_exact sample_I1 sample_I2
           5 3 3 3 has_shape_sample_I1 has_shape_sample_I2
           integer_samples_sample_I1 integer_samples_sample_I2 Hk).
Defined.

Lemma build_pyramid_constant_witness :
  1 <= 2 /\
  nth 1 (build_pyramid (full 4 3 (qz 7)) 2) [] = full 2 2 (qz 7).
Proof.
  split; [exact (le_S 1 1 (le_n 1))|].
  exact (build_pyramid_constant 4 3 (qz 7) 2 1 (le_S 1 1 (le_n 1))).
Defined.

Lemma lucas_kanade_step_flat_target_witness :
  shape sample_I1 = shape (full 3 3 (qz 4)) /\ Nat.odd 3 = true /\
  lucas_kanade_step inv_exact sample_I1 (full 3 3 (qz 4)) 3
  = Ok (zeros 3 3, zeros 3 3).
Proof.
  split; [reflexivity|]. split; [reflexivity|].
  exact (lucas_kanade_step_flat_target inv_exact inv_exact_zero_line
           sample_I1 3 3 (qz 4) 3 eq_refl eq_refl).
Defined.

Lemma optical_flow_without_iterations_witness :
  has_shape sample_I1 3 3 /\ has_shape sample_I2 3 3 /\
  2 ^ 1 < 3 /\ 2 ^ 1 < 3 /\
  lucas_kanade_optical_flow inv_exact resize_nearest griddata_exact
    sample_I1 sample_I2 3 0 1 = Ok (zeros 4 4, zeros 4 4) /\
  faster_lucas_kanade_optical_flow inv_exact resize_nearest harris_response
    griddata_exact sample_I1 sample_I2 3 0 1 = Ok (zeros 4 4, zeros 4 4).
Proof.
  split; [exact has_shape_sample_I1|]. split; [exact has_shape_sample_I2|].
  split; [exact (le_n 3)|]. split; [exact (le_n 3)|].
  exact (optical_flow_without_iterations inv_exact resize_nearest
           harris_response griddata_exact resize_nearest_shape
           griddata_exact_length resize_nearest_zeros
           sample_I1 sample_I2 3 1 3 3
           has_shape_sample_I1 has_shape_sample_I2 (le_n 3) (le_n 3)).
Defined.

Lemma lucas_kanade_optical_flow_zero_motion_witness :
  has_shape sample_I1 3 3 /\ 2 ^ 1 < 3 /\ 2 ^ 1 < 3 /\ Nat.odd 3 = true /\
  lucas_kanade_optical_flow inv_exact resize_nearest griddata_exact
    sample_I1 sample_I1 3 2 1 = Ok (zeros 4 4, zeros 4 4).
Proof.
  split; [exact has_shape_sample_I1|].
  split; [exact (le_n 3)|]. split; [exact (le_n 3)|].
  split; [reflexivity|].
  exact (lucas_kanade_optical_flow_zero_motion inv_exact resize_nearest
           griddata_exact resize_nearest_shape resize_nearest_same_size
           griddata_exact_at_points resize_nearest_zeros
           sample_I1 3 2 1 3 3 has_shape_sample_I1
           (le_n 3) (le_n 3) eq_refl).
Defined.

Lemma crop_borders_spec_witness :
  has_shape sample_4x4 4 4 /\ 0 < 1 /\ 0 < 2 /\
  has_shape (crop_borders sample_4x4 1 0 1 2) 2 2 /\
  forall i j, i < 4 - 1 - 1 -> j < 4 - 0 - 2 ->
    get2 (crop_borders sample_4x4 1 0 1 2) i j
    = get2 sample_4x4 (1 + i) (0 + j).
Proof.
  split; [exact has_shape_sample_4x4|].
  split; [exact (Nat.lt_0_succ 0)|]. split; [exact (Nat.lt_0_succ 1)|].
  exact (crop_borders_spec sample_4x4 4 4 1 0 1 2 has_shape_sample_4x4
           (Nat.lt_0_succ 0) (Nat.lt_0_succ 1)).
Defined.

Lemma crop_borders_zero_end_witness :
  (0 = 0 \/ 1 = 0) /\ flatten (crop_borders sample_4x4 1 1 0 1) = [].
Proof.
  split; [left; reflexivity|].
  exact (crop_borders_zero_end sample_4x4 1 1 0 1 (or_introl eq_refl)).
Defined.

Lemma smooth_interior_no_interior_witness :
  has_shape sample_4x4 4 4 /\ (2 = 0 \/ 4 <= 2 * 2 \/ 4 <= 2 * 2) /\
  smooth_interior sample_4x4 2 = sample_4x4.
Proof.
  split; [exact has_shape_sample_4x4|].
  split; [right; left; exact (le_n 4)|].
  exact (smooth_interior_no_interior sample_4x4 4 4 2 has_shape_sample_4x4
           (or_intror (or_introl (le_n 4)))).
Defined.

Lemma smooth_interior_spec_witness :
  has_shape sample_4x4 4 4 /\ 0 < 1 /\ 2 * 1 < 4 /\ 2 * 1 < 4 /\
  exists m,
    mean (slice2_neg 1 1 1 1 sample_4x4) = Some m /\
    has_shape (slice2_neg 1 1 1 1 sample_4x4) 2 2 /\
    (forall i j, i < 4 - 2 * 1 -> j < 4 - 2 * 1 ->
       get2 (slice2_neg 1 1 1 1 sample_4x4) i j
       = get2 sample_4x4 (1 + i) (1 + j)) /\
    has_shape (smooth_interior sample_4x4 1) 4 4 /\
    forall r c, r < 4 -> c < 4 ->
      get2 (smooth_interior sample_4x4 1) r c
      = if interior 4 4 1 r c then m else get2 sample_4x4 r c.
Proof.
  split; [exact has_shape_sample_4x4|].
  split; [exact (Nat.lt_0_succ 0)|].
  split; [exact (le_S 3 3 (le_n 3))|]. split; [exact (le_S 3 3 (le_n 3))|].
  exact (smooth_interior_spec sample_4x4 4 4 1 has_shape_sample_4x4
           (Nat.lt_0_succ 0) (le_S 3 3 (le_n 3)) (le_S 3 3 (le_n 3))).
Defined.

Lemma stabilization_static_video_witness :
  has_shape sample_I1 3 3 /\ 2 ^ 1 < 3 /\ 2 ^ 1 < 3 /\ Nat.odd 3 = true /\
  exists working,
    fit_size resize_nearest sample_I1 (image_size sample_I1 1) = Ok working /\
    has_shape working 4 4 /\
    lucas_kanade_video_stabilization inv_exact resize_nearest griddata_exact
      3 2 1 sample_I1 (repeat sample_I1 2) = Ok (repeat working 2) /\
    lucas_kanade_faster_video_stabilization inv_exact resize_nearest
      harris_response griddata_exact 3 2 1 sample_I1 (repeat sample_I1 2)
    = Ok (repeat working 2).
Proof.
  split; [exact has_shape_sample_I1|].
  split; [exact (le_n 3)|]. split; [exact (le_n 3)|].
  split; [reflexivity|].
  exact (stabilization_static_video inv_exact resize_nearest harris_response
           griddata_exact harris_response_shape resize_nearest_shape
           resize_nearest_same_size griddata_exact_at_points
           resize_nearest_zeros sample_I1 3 2 1 3 3 2 has_shape_sample_I1
           (le_n 3) (le_n 3) eq_refl).
Defined.

(** ** Concrete runs

    The functions evaluated at the reference instances of the library
    routines. *)

Example lucas_kanade_step_sample :
  lucas_kanade_step inv_exact sample_I1 sample_I2 3
  = Ok (map (map Q2Qc) [[0; 0; 0]; [0; -6073 # 256572; 0]; [0; 0; 0]]%Q,
        map (map Q2Qc) [[0; 0; 0]; [0; -5971 # 256572; 0]; [0; 0; 0]]%Q).
Proof. vm_compute. reflexivity. Qed.

Example lucas_kanade_step_even_window :
  lucas_kanade_step inv_exact sample_I1 sample_I2 2 = Err ValueError.
Proof. vm_compute. reflexivity. Qed.

Example lucas_kanade_step_late_failure :
  lucas_kanade_step inv_exact sample_I2 sample_1x3 1 = Err ValueError.
Proof. vm_compute. reflexivity. Qed.

Example build_pyramid_sample_shapes :
  map shape (build_pyramid sample_I1 3) = [(3, 3); (2, 2); (1, 1); (1, 1)].
Proof. vm_compute. reflexivity. Qed.

Example warp_image_sample :
  warp_image resize_nearest griddata_exact sample_4x4 sample_field sample_field
  = Ok (map (map qz)
          [[7; 6; 3; 4]; [3; 2; 7; 8]; [9; 8; 7; 6]; [5; 4; 3; 2]]%Z).
Proof. vm_compute. reflexivity. Qed.
